(** * Onyx: a shallow embedding of the bytecode compiler and virtual machine

    The development follows the C sources: [table.c] (hash tables),
    [compiler.c] (single-pass Pratt compiler) and [vm.c] (stack machine).
    C integers are rendered as [Z], doubles as the kernel's binary64 floats,
    arrays as lists read and written by index, and every loop that C writes
    as [for (;;)] or [while] either recurses on the data it walks or carries
    an explicit budget. *)

From Stdlib Require Import ZArith List String Ascii Bool Lia.
From Stdlib Require Import Floats.PrimFloat Numbers.DecimalString.
From Stdlib Require Floats.FloatOps Floats.SpecFloat Floats.FloatAxioms.
From Stdlib Require Numbers.Cyclic.Int63.Uint63.
From stdpp Require Import base option list gmap strings sorting.

Open Scope Z_scope.

(** ** Results of running C code

    [Ok a]: the code returns [a].  [Undefined]: the code leaves defined C
    (a read through a null or stray pointer, a call through a null function
    pointer, [%] by zero).  [Diverges]: a loop of the code never exits.
    [OutOfFuel]: the budget given to the model ran out; it says nothing
    about the code. *)

Inductive Res (A : Type) : Type :=
| Ok (a : A)
| Undefined
| Diverges
| OutOfFuel.

Arguments Ok {A} a.
Arguments Undefined {A}.
Arguments Diverges {A}.
Arguments OutOfFuel {A}.

Definition Res_bind {A B : Type} (m : Res A) (k : A -> Res B) : Res B :=
  match m with
  | Ok a => k a
  | Undefined => Undefined
  | Diverges => Diverges
  | OutOfFuel => OutOfFuel
  end.

Notation "x <- m ;; k" := (Res_bind m (fun x => k))
  (at level 100, m at next level, right associativity).

Definition of_option {A : Type} (o : option A) : Res A :=
  match o with
  | Some a => Ok a
  | None => Undefined
  end.

(** An array cell read through a C [int] index: outside the array the read
    is undefined. *)
Definition array_get {A : Type} (l : list A) (i : Z) : Res A :=
  if i <? 0 then Undefined else of_option (l !! Z.to_nat i).

(** An array cell written through a C [int] index.  A store outside the
    array is undefined in C; the model keeps the array as it is. *)
Definition array_set {A : Type} (l : list A) (i : Z) (x : A) : list A :=
  if i <? 0 then l else <[Z.to_nat i := x]> l.

(** ** Values and heap objects (value.h, object.h) *)

(** Heap addresses. *)
Abbreviation addr := nat (only parsing).

(** [ObjString]: strings are immutable, so a pointer to one is rendered as
    the string itself together with its heap address [str_addr]; two
    pointers are equal when the addresses are.  [length] is the length of
    [str_chars]. *)
Record ObjString := mkObjString {
  str_addr : addr;
  str_chars : string;
  str_hash : Z
}.

Inductive NativeFn := clockNative | inputNative | numNative.

(** Functions and natives are immutable once built and are carried by value
    like strings.  A closure's [upvalues] array holds addresses of
    [ObjUpvalue] cells, which are mutable and live in the machine's upvalue
    store. *)
Inductive Value : Type :=
| NIL_VAL
| BOOL_VAL (b : bool)
| NUMBER_VAL (n : float)
| OBJ_VAL (o : Obj)
with Obj : Type :=
| OBJ_STRING (s : ObjString)
| OBJ_FUNCTION (f : ObjFunction)
| OBJ_NATIVE (a : addr) (fn : NativeFn)
| OBJ_CLOSURE (c : ObjClosure)
| OBJ_UPVALUE (a : addr)
with ObjFunction : Type :=
| mkObjFunction (fn_addr : addr) (fn_arity : Z) (fn_upvalueCount : Z)
    (fn_chunk : Chunk) (fn_name : option ObjString)
with Chunk : Type :=
| mkChunk (ch_code : list Z) (ch_lines : list Z) (ch_constants : list Value)
with ObjClosure : Type :=
| mkObjClosure (cl_addr : addr) (cl_function : ObjFunction) (cl_upvalues : list addr).

Definition arity (f : ObjFunction) : Z :=
  match f with mkObjFunction _ a _ _ _ => a end.
Definition upvalueCount (f : ObjFunction) : Z :=
  match f with mkObjFunction _ _ u _ _ => u end.
Definition chunk (f : ObjFunction) : Chunk :=
  match f with mkObjFunction _ _ _ c _ => c end.
Definition name (f : ObjFunction) : option ObjString :=
  match f with mkObjFunction _ _ _ _ n => n end.
Definition code (c : Chunk) : list Z :=
  match c with mkChunk k _ _ => k end.
Definition lines (c : Chunk) : list Z :=
  match c with mkChunk _ l _ => l end.
Definition constants (c : Chunk) : list Value :=
  match c with mkChunk _ _ k => k end.
Definition function (c : ObjClosure) : ObjFunction :=
  match c with mkObjClosure _ f _ => f end.
Definition upvalues (c : ObjClosure) : list addr :=
  match c with mkObjClosure _ _ u => u end.

Definition IS_NIL (v : Value) : bool :=
  match v with NIL_VAL => true | _ => false end.
Definition IS_BOOL (v : Value) : bool :=
  match v with BOOL_VAL _ => true | _ => false end.
Definition IS_NUMBER (v : Value) : bool :=
  match v with NUMBER_VAL _ => true | _ => false end.
Definition IS_STRING (v : Value) : bool :=
  match v with OBJ_VAL (OBJ_STRING _) => true | _ => false end.

(** [AS_STRING] casts without a check: on anything but a string the read
    that follows is undefined. *)
Definition AS_STRING (v : Value) : Res ObjString :=
  match v with OBJ_VAL (OBJ_STRING s) => Ok s | _ => Undefined end.
Definition AS_FUNCTION (v : Value) : Res ObjFunction :=
  match v with OBJ_VAL (OBJ_FUNCTION f) => Ok f | _ => Undefined end.

(** Modelled from the spec: the hash of a string, computed in object.c
    (absent from src/): the 32-bit FNV-1a hash of its bytes. *)
Definition hashString (s : string) : Z :=
  fold_left
    (fun h c => ((Z.lxor h (Z.of_N (N_of_ascii c))) * 16777619) mod 2 ^ 32)
    (list_ascii_of_string s) 2166136261.

(** ** Hash tables (table.c) *)

Record Entry := mkEntry {
  e_key : option ObjString;
  e_value : Value
}.

Record Table := mkTable {
  t_count : Z;
  t_capacity : Z;
  t_entries : list Entry
}.

Definition initTable : Table :=
  {| t_count := 0; t_capacity := 0; t_entries := [] |}.

(** [entry->key == key] compares pointers. *)
Definition same_string (a b : ObjString) : bool :=
  Nat.eqb (str_addr a) (str_addr b).

(** Modelled from the spec: GROW_CAPACITY of memory.h (absent from src/):
    capacities start at 8 and double. *)
Definition GROW_CAPACITY (capacity : Z) : Z :=
  if capacity <? 8 then 8 else capacity * 2.

(** The probe loop of [findEntry].  The loop changes nothing but [index]
    and [tombstone], and [index] visits the [capacity] cells in a cycle:
    a probe that has not returned after [capacity] cells never returns,
    which is what running out of the budget [capacity] reports. *)
Fixpoint findEntry_probe (fuel : nat) (entries : list Entry) (capacity : Z)
    (key : ObjString) (index : Z) (tombstone : option Z) : Res Z :=
  match fuel with
  | O => Diverges
  | S fuel' =>
      entry <- array_get entries index ;;
      match e_key entry with
      | None =>
          if IS_NIL (e_value entry)
          then Ok (match tombstone with Some t => t | None => index end)
          else findEntry_probe fuel' entries capacity key
                 ((index + 1) mod capacity)
                 (match tombstone with Some t => Some t | None => Some index end)
      | Some k =>
          if same_string k key then Ok index
          else findEntry_probe fuel' entries capacity key
                 ((index + 1) mod capacity) tombstone
      end
  end.

(** [findEntry] returns the index of the bucket it points to. *)
Definition findEntry (entries : list Entry) (capacity : Z) (key : ObjString)
    : Res Z :=
  if capacity <=? 0 then Undefined
  else findEntry_probe (Z.to_nat capacity) entries capacity key
         (str_hash key mod capacity) None.

(** The second loop of [adjustCapacity], over the old entries.  The
    destination keeps its own value ([dest->value = dest->value]) and
    [table->count] is not touched. *)
Fixpoint adjustCapacity_copy (old : list Entry) (entries : list Entry)
    (capacity : Z) : Res (list Entry) :=
  match old with
  | [] => Ok entries
  | entry :: rest =>
      match e_key entry with
      | None => adjustCapacity_copy rest entries capacity
      | Some k =>
          dest <- findEntry entries capacity k ;;
          d <- array_get entries dest ;;
          adjustCapacity_copy rest
            (array_set entries dest {| e_key := Some k; e_value := e_value d |})
            capacity
      end
  end.

Definition adjustCapacity (table : Table) (capacity : Z) : Res Table :=
  let entries := replicate (Z.to_nat capacity)
                   {| e_key := None; e_value := NIL_VAL |} in
  entries' <- adjustCapacity_copy
                (take (Z.to_nat (t_capacity table)) (t_entries table))
                entries capacity ;;
  Ok {| t_count := 0; t_capacity := capacity; t_entries := entries' |}.

(** TABLE_MAX_LOAD is 0.75: [count + 1 > capacity * 0.75] compares an [int]
    with a double; both sides are exact in binary64, so the test is
    [4 * (count + 1) > 3 * capacity]. *)
Definition over_load (table : Table) : bool :=
  3 * t_capacity table <? 4 * (t_count table + 1).

Definition tableSet (table : Table) (key : ObjString) (value : Value)
    : Res (bool * Table) :=
  table <- (if over_load table
            then adjustCapacity table (GROW_CAPACITY (t_capacity table))
            else Ok table) ;;
  idx <- findEntry (t_entries table) (t_capacity table) key ;;
  entry <- array_get (t_entries table) idx ;;
  let isNewKey := match e_key entry with None => true | Some _ => false end in
  let count' := if isNewKey && IS_NIL (e_value entry)
                then t_count table + 1 else t_count table in
  Ok (isNewKey,
      {| t_count := count';
         t_capacity := t_capacity table;
         t_entries := array_set (t_entries table) idx
                        {| e_key := Some key; e_value := value |} |}).

Definition tableDelete (table : Table) (key : ObjString) : Res (bool * Table) :=
  if t_count table =? 0 then Ok (false, table)
  else
    idx <- findEntry (t_entries table) (t_capacity table) key ;;
    entry <- array_get (t_entries table) idx ;;
    match e_key entry with
    | None => Ok (false, table)
    | Some _ =>
        Ok (true,
            {| t_count := t_count table;
               t_capacity := t_capacity table;
               t_entries := array_set (t_entries table) idx
                              {| e_key := None; e_value := BOOL_VAL true |} |})
    end.

(** [tableGet] returns [Some v] for a hit that stores [v] through the out
    parameter, and [None] for a miss. *)
Definition tableGet (table : Table) (key : ObjString) : Res (option Value) :=
  if t_count table =? 0 then Ok None
  else
    idx <- findEntry (t_entries table) (t_capacity table) key ;;
    entry <- array_get (t_entries table) idx ;;
    match e_key entry with
    | None => Ok None
    | Some _ => Ok (Some (e_value entry))
    end.

(** ** Opcodes (chunk.h) *)

(** Modelled from the spec: the [OpCode] enumeration of chunk.h (the chunk.h
    under src/ predates these opcodes).  The enumerators stand in the order
    of the spec's opcode table, which is the order of the cases of [run];
    nothing below depends on the numbers beyond their being distinct. *)
Inductive OpCode :=
| OP_CONSTANT | OP_NIL | OP_TRUE | OP_FALSE | OP_POP
| OP_GET_LOCAL | OP_SET_LOCAL | OP_GET_GLOBAL | OP_DEFINE_GLOBAL | OP_SET_GLOBAL
| OP_GET_UPVALUE | OP_SET_UPVALUE
| OP_EQUAL | OP_GREATER | OP_LESS
| OP_ADD | OP_SUBTRACT | OP_MULTIPLY | OP_DIVIDE | OP_INT_DIVIDE | OP_MODULUS
| OP_NOT | OP_NEGATE | OP_PRINT
| OP_JUMP | OP_JUMP_IF_FALSE | OP_LOOP
| OP_CALL | OP_CLOSURE | OP_CLOSE_UPVALUE | OP_RETURN.

Definition all_opcodes : list OpCode :=
  [ OP_CONSTANT; OP_NIL; OP_TRUE; OP_FALSE; OP_POP;
    OP_GET_LOCAL; OP_SET_LOCAL; OP_GET_GLOBAL; OP_DEFINE_GLOBAL; OP_SET_GLOBAL;
    OP_GET_UPVALUE; OP_SET_UPVALUE;
    OP_EQUAL; OP_GREATER; OP_LESS;
    OP_ADD; OP_SUBTRACT; OP_MULTIPLY; OP_DIVIDE; OP_INT_DIVIDE; OP_MODULUS;
    OP_NOT; OP_NEGATE; OP_PRINT;
    OP_JUMP; OP_JUMP_IF_FALSE; OP_LOOP;
    OP_CALL; OP_CLOSURE; OP_CLOSE_UPVALUE; OP_RETURN ].

(** The byte an opcode is written as. *)
Definition op (o : OpCode) : Z :=
  match o with
  | OP_CONSTANT => 0 | OP_NIL => 1 | OP_TRUE => 2 | OP_FALSE => 3 | OP_POP => 4
  | OP_GET_LOCAL => 5 | OP_SET_LOCAL => 6 | OP_GET_GLOBAL => 7
  | OP_DEFINE_GLOBAL => 8 | OP_SET_GLOBAL => 9
  | OP_GET_UPVALUE => 10 | OP_SET_UPVALUE => 11
  | OP_EQUAL => 12 | OP_GREATER => 13 | OP_LESS => 14
  | OP_ADD => 15 | OP_SUBTRACT => 16 | OP_MULTIPLY => 17 | OP_DIVIDE => 18
  | OP_INT_DIVIDE => 19 | OP_MODULUS => 20
  | OP_NOT => 21 | OP_NEGATE => 22 | OP_PRINT => 23
  | OP_JUMP => 24 | OP_JUMP_IF_FALSE => 25 | OP_LOOP => 26
  | OP_CALL => 27 | OP_CLOSURE => 28 | OP_CLOSE_UPVALUE => 29 | OP_RETURN => 30
  end.

(** The case of the [switch] a byte selects, if any. *)
Definition decode (byte : Z) : option OpCode :=
  if byte <? 0 then None else all_opcodes !! Z.to_nat byte.

(** ** The machine's state (vm.h) *)

Definition UINT8_COUNT : Z := 256.
Definition FRAMES_MAX : Z := 64.
Definition STACK_MAX : Z := FRAMES_MAX * UINT8_COUNT.

(** Where an upvalue's [location] points: at a slot of the value stack, or
    at the upvalue's own [closed] field. *)
Inductive Location :=
| StackSlot (slot : Z)
| ClosedField.

Record ObjUpvalue := mkObjUpvalue {
  location : Location;
  closed : Value;
  next : option addr
}.

(** The heap: the interning pool [vm.strings], the upvalue objects, and the
    number of objects allocated so far, which is the address the next
    object gets (the list [vm.objects] threads them all). *)
Record Heap := mkHeap {
  strings : gmap string ObjString;
  cells : gmap addr ObjUpvalue;
  allocated : addr
}.

Record CallFrame := mkCallFrame {
  closure : ObjClosure;
  ip : Z;
  slots : Z
}.

(** What the interpreter wrote to stdout: a value through [printValue], or
    text through [printf]. *)
Inductive Output :=
| OutValue (v : Value)
| OutText (s : string).

(** [frames] lists the live call frames, innermost first: [vm.frames]
    up to [vm.frameCount], which is its length.  [stack] is the array
    [vm.stack], and [stackTop] the offset of [vm.stackTop] in it.  [out]
    and [err] are the lines written so far; [stdin] holds what the coming
    calls of [fgets] deliver, and [clock n] is what
    [(double)clock() / CLOCKS_PER_SEC] evaluates to the [n]-th time from
    now. *)
Record VM := mkVM {
  frames : list CallFrame;
  stack : list Value;
  stackTop : Z;
  globals : Table;
  heap : Heap;
  openUpvalues : option addr;
  out : list Output;
  err : list string;
  stdin : list string;
  clock : nat -> float
}.

Definition frameCount (vm : VM) : Z := Z.of_nat (length (frames vm)).

Definition with_frames (f : list CallFrame) (vm : VM) : VM :=
  mkVM f (stack vm) (stackTop vm) (globals vm) (heap vm) (openUpvalues vm)
    (out vm) (err vm) (stdin vm) (clock vm).
Definition with_stack (s : list Value) (vm : VM) : VM :=
  mkVM (frames vm) s (stackTop vm) (globals vm) (heap vm) (openUpvalues vm)
    (out vm) (err vm) (stdin vm) (clock vm).
Definition with_stackTop (t : Z) (vm : VM) : VM :=
  mkVM (frames vm) (stack vm) t (globals vm) (heap vm) (openUpvalues vm)
    (out vm) (err vm) (stdin vm) (clock vm).
Definition with_globals (g : Table) (vm : VM) : VM :=
  mkVM (frames vm) (stack vm) (stackTop vm) g (heap vm) (openUpvalues vm)
    (out vm) (err vm) (stdin vm) (clock vm).
Definition with_heap (h : Heap) (vm : VM) : VM :=
  mkVM (frames vm) (stack vm) (stackTop vm) (globals vm) h (openUpvalues vm)
    (out vm) (err vm) (stdin vm) (clock vm).
Definition with_openUpvalues (o : option addr) (vm : VM) : VM :=
  mkVM (frames vm) (stack vm) (stackTop vm) (globals vm) (heap vm) o
    (out vm) (err vm) (stdin vm) (clock vm).
Definition with_out (o : list Output) (vm : VM) : VM :=
  mkVM (frames vm) (stack vm) (stackTop vm) (globals vm) (heap vm)
    (openUpvalues vm) o (err vm) (stdin vm) (clock vm).
Definition with_err (e : list string) (vm : VM) : VM :=
  mkVM (frames vm) (stack vm) (stackTop vm) (globals vm) (heap vm)
    (openUpvalues vm) (out vm) e (stdin vm) (clock vm).
Definition with_stdin (i : list string) (vm : VM) : VM :=
  mkVM (frames vm) (stack vm) (stackTop vm) (globals vm) (heap vm)
    (openUpvalues vm) (out vm) (err vm) i (clock vm).
Definition with_clock (c : nat -> float) (vm : VM) : VM :=
  mkVM (frames vm) (stack vm) (stackTop vm) (globals vm) (heap vm)
    (openUpvalues vm) (out vm) (err vm) (stdin vm) c.

Definition with_cells (c : gmap addr ObjUpvalue) (h : Heap) : Heap :=
  mkHeap (strings h) c (allocated h).

(** ** Allocation (object.c) *)

(** Modelled from the spec: [copyString] and [takeString] of object.c
    (absent from src/): for any byte sequence at most one String exists, so
    the pool is asked first and a new String is allocated, hashed and
    entered in the pool only when the bytes are not interned yet.  The two
    functions differ in who owns the buffer, which the model does not
    track. *)
Definition copyString (chars : string) (h : Heap) : ObjString * Heap :=
  match strings h !! chars with
  | Some s => (s, h)
  | None =>
      let s := {| str_addr := allocated h; str_chars := chars;
                  str_hash := hashString chars |} in
      (s, mkHeap (<[chars := s]> (strings h)) (cells h) (S (allocated h)))
  end.

Definition takeString (chars : string) (h : Heap) : ObjString * Heap :=
  copyString chars h.

(** Modelled from the spec: [newNative], [newClosure] and [newUpvalue] of
    object.c (absent from src/): each allocates one object; a fresh upvalue
    is open on its slot, its [closed] field Nil and its link null. *)
Definition newNative (fn : NativeFn) (h : Heap) : Obj * Heap :=
  (OBJ_NATIVE (allocated h) fn,
   mkHeap (strings h) (cells h) (S (allocated h))).

Definition newClosure_addr (h : Heap) : addr * Heap :=
  (allocated h, mkHeap (strings h) (cells h) (S (allocated h))).

Definition newUpvalue (slot : Z) (h : Heap) : addr * Heap :=
  (allocated h,
   mkHeap (strings h)
     (<[allocated h := {| location := StackSlot slot; closed := NIL_VAL;
                          next := None |}]> (cells h))
     (S (allocated h))).

(** The address of a heap object, for comparisons of pointers. *)
Definition obj_addr (o : Obj) : addr :=
  match o with
  | OBJ_STRING s => str_addr s
  | OBJ_FUNCTION (mkObjFunction a _ _ _ _) => a
  | OBJ_NATIVE a _ => a
  | OBJ_CLOSURE (mkObjClosure a _ _) => a
  | OBJ_UPVALUE a => a
  end.

(** Modelled from the spec: [valuesEqual] of value.c (absent from src/):
    Nil equals Nil, booleans compare by value, numbers by IEEE equality,
    objects by identity. *)
Definition valuesEqual (a b : Value) : bool :=
  match a, b with
  | NIL_VAL, NIL_VAL => true
  | BOOL_VAL x, BOOL_VAL y => Bool.eqb x y
  | NUMBER_VAL x, NUMBER_VAL y => PrimFloat.eqb x y
  | OBJ_VAL x, OBJ_VAL y => Nat.eqb (obj_addr x) (obj_addr y)
  | _, _ => false
  end.

(** [%d] of the printf family. *)
Definition fmt_d (n : Z) : string := NilZero.string_of_int (Z.to_int n).

(** ** Conversions between [double] and [int] *)

Definition INT_MIN : Z := - 2 ^ 31.
Definition INT_MAX : Z := 2 ^ 31 - 1.

(** [(int)x]: the value of [x] truncated toward zero; undefined when that
    is no [int] (NaN and infinities included). *)
Definition double_to_int (x : float) : Res Z :=
  match FloatOps.Prim2SF x with
  | SpecFloat.S754_zero _ => Ok 0
  | SpecFloat.S754_finite s m e =>
      let a := if 0 <=? e then Z.pos m * 2 ^ e else Z.pos m / 2 ^ (- e) in
      let z := if s then - a else a in
      if (INT_MIN <=? z) && (z <=? INT_MAX) then Ok z else Undefined
  | _ => Undefined
  end.

(** [(double)z] for an [int] [z]: exact. *)
Definition int_to_double (z : Z) : float :=
  let a := PrimFloat.of_uint63 (Uint63.of_Z (Z.abs z)) in
  if z <? 0 then PrimFloat.opp a else a.

(** [a / b] on [int]: truncating; undefined on a zero divisor and on
    [INT_MIN / -1]. *)
Definition int_div (a b : Z) : Res Z :=
  if b =? 0 then Undefined
  else if (a =? INT_MIN) && (b =? -1) then Undefined
  else Ok (Z.quot a b).

Definition newline : string := String (ascii_of_nat 10) EmptyString.

Inductive InterpretResult :=
| INTERPRET_OK
| INTERPRET_COMPILE_ERROR
| INTERPRET_RUNTIME_ERROR.

(** One turn of the loop of [run]: the loop goes on in a new state, or
    [run] returns. *)
Inductive Step :=
| Running (vm : VM)
| Halted (result : InterpretResult) (vm : VM).

(** ** The virtual machine (vm.c) *)

Section Machine.

(** [strtod] of the C library. *)
Variable strtod : string -> float.

Definition resetStack (vm : VM) : VM :=
  with_openUpvalues None (with_frames [] (with_stackTop 0 vm)).

(** One line of the stack trace of [runtimeError]. *)
Definition trace_line (frame : CallFrame) : Res string :=
  let function := function (closure frame) in
  let instruction := ip frame - 1 in
  line <- array_get (lines (chunk function)) instruction ;;
  Ok ("[line " ++ fmt_d line ++ "] in " ++
      match name function with
      | None => "script"
      | Some n => str_chars n ++ "()"
      end)%string.

Fixpoint trace (fs : list CallFrame) : Res (list string) :=
  match fs with
  | [] => Ok []
  | frame :: rest =>
      l <- trace_line frame ;;
      ls <- trace rest ;;
      Ok (l :: ls)
  end.

(** [runtimeError] takes the message as [vfprintf] has formatted it. *)
Definition runtimeError (message : string) (vm : VM) : Res VM :=
  t <- trace (frames vm) ;;
  Ok (resetStack (with_err (err vm ++ message :: t) vm)).

Definition push (value : Value) (vm : VM) : VM :=
  with_stackTop (stackTop vm + 1)
    (with_stack (array_set (stack vm) (stackTop vm) value) vm).

Definition pop (vm : VM) : Res (Value * VM) :=
  let vm := with_stackTop (stackTop vm - 1) vm in
  v <- array_get (stack vm) (stackTop vm) ;;
  Ok (v, vm).

Definition peek (distance : Z) (vm : VM) : Res Value :=
  array_get (stack vm) (stackTop vm - 1 - distance).

(** The natives get [argCount] and [args], the offset of the first
    argument in the stack. *)
Definition clockNative_fn (argCount : Z) (args : Z) (vm : VM)
    : Res (Value * VM) :=
  Ok (NUMBER_VAL (clock vm O), with_clock (fun n => clock vm (S n)) vm).

(** [fgets] at the end of the input leaves the buffer unset, and the
    [strlen] that follows is undefined. *)
Definition inputNative_fn (argCount : Z) (args : Z) (vm : VM)
    : Res (Value * VM) :=
  a0 <- array_get (stack vm) args ;;
  prompt <- AS_STRING a0 ;;
  let vm := with_out (out vm ++ [OutText (str_chars prompt)]) vm in
  match stdin vm with
  | [] => Undefined
  | input :: rest =>
      let (str, h) := copyString input (heap vm) in
      Ok (OBJ_VAL (OBJ_STRING str), with_heap h (with_stdin rest vm))
  end.

Definition numNative_fn (argCount : Z) (args : Z) (vm : VM)
    : Res (Value * VM) :=
  a0 <- array_get (stack vm) args ;;
  s <- AS_STRING a0 ;;
  Ok (NUMBER_VAL (strtod (str_chars s)), vm).

(** The call through the function pointer of an [ObjNative]. *)
Definition native_call (fn : NativeFn) (argCount : Z) (args : Z) (vm : VM)
    : Res (Value * VM) :=
  match fn with
  | clockNative => clockNative_fn argCount args vm
  | inputNative => inputNative_fn argCount args vm
  | numNative => numNative_fn argCount args vm
  end.

Definition defineNative (name : string) (function : NativeFn) (vm : VM)
    : Res VM :=
  let (s, h) := copyString name (heap vm) in
  let vm := push (OBJ_VAL (OBJ_STRING s)) (with_heap h vm) in
  let (n, h) := newNative function (heap vm) in
  let vm := push (OBJ_VAL n) (with_heap h vm) in
  s0 <- array_get (stack vm) 0 ;;
  k <- AS_STRING s0 ;;
  v1 <- array_get (stack vm) 1 ;;
  r <- tableSet (globals vm) k v1 ;;
  p1 <- pop (with_globals (snd r) vm) ;;
  p2 <- pop (snd p1) ;;
  Ok (snd p2).

(** [initVM] works on the storage of the global [vm]; what the stack array
    holds is left as it is. *)
Definition initVM (vm : VM) : Res VM :=
  let vm := resetStack vm in
  let vm := with_heap (mkHeap ∅ (cells (heap vm)) (allocated (heap vm))) vm in
  let vm := with_globals initTable vm in
  vm <- defineNative "clock" clockNative vm ;;
  vm <- defineNative "input" inputNative vm ;;
  defineNative "num" numNative vm.

Definition call (closure : ObjClosure) (argCount : Z) (vm : VM)
    : Res (bool * VM) :=
  if negb (argCount =? arity (function closure)) then
    vm' <- runtimeError
             ("Expected " ++ fmt_d (arity (function closure)) ++
              " arguments but got " ++ fmt_d argCount ++ ".")%string vm ;;
    Ok (false, vm')
  else if frameCount vm =? FRAMES_MAX then
    vm' <- runtimeError "Stack overflow." vm ;;
    Ok (false, vm')
  else
    Ok (true,
        with_frames
          ({| closure := closure; ip := 0;
              slots := stackTop vm - argCount - 1 |} :: frames vm) vm).

Definition callValue (callee : Value) (argCount : Z) (vm : VM)
    : Res (bool * VM) :=
  match callee with
  | OBJ_VAL (OBJ_CLOSURE c) => call c argCount vm
  | OBJ_VAL (OBJ_NATIVE _ native) =>
      r <- native_call native argCount (stackTop vm - argCount) vm ;;
      let (result, vm) := r in
      let vm := with_stackTop (stackTop vm - (argCount + 1)) vm in
      Ok (true, push result vm)
  | _ =>
      vm' <- runtimeError "Can only call functions and classes." vm ;;
      Ok (false, vm')
  end.

(** The loop of [captureUpvalue].  A walk longer than the number of upvalue
    objects has met one of them twice and goes round for ever. *)
Fixpoint captureUpvalue_walk (fuel : nat) (cs : gmap addr ObjUpvalue)
    (prevUpvalue upvalue : option addr) (local : Z)
    : Res (option addr * option addr) :=
  match upvalue with
  | None => Ok (prevUpvalue, None)
  | Some p =>
      u <- of_option (cs !! p) ;;
      match location u with
      | ClosedField => Undefined
      | StackSlot l =>
          if local <? l then
            match fuel with
            | O => Diverges
            | S fuel' => captureUpvalue_walk fuel' cs (Some p) (next u) local
            end
          else Ok (prevUpvalue, Some p)
      end
  end.

Definition set_next (n : option addr) (u : ObjUpvalue) : ObjUpvalue :=
  {| location := location u; closed := closed u; next := n |}.

Definition captureUpvalue (local : Z) (vm : VM) : Res (addr * VM) :=
  let cs := cells (heap vm) in
  w <- captureUpvalue_walk (S (size cs)) cs None (openUpvalues vm) local ;;
  let (prevUpvalue, upvalue) := w in
  found <- match upvalue with
           | None => Ok false
           | Some p =>
               u <- of_option (cs !! p) ;;
               Ok match location u with
                  | StackSlot l => l =? local
                  | ClosedField => false
                  end
           end ;;
  match found, upvalue with
  | true, Some p => Ok (p, vm)
  | _, _ =>
      let (createdUpvalue, h) := newUpvalue local (heap vm) in
      let h := with_cells (alter (set_next upvalue) createdUpvalue (cells h)) h in
      match prevUpvalue with
      | None =>
          Ok (createdUpvalue,
              with_openUpvalues (Some createdUpvalue) (with_heap h vm))
      | Some q =>
          Ok (createdUpvalue,
              with_heap
                (with_cells (alter (set_next (Some createdUpvalue)) q (cells h)) h)
                vm)
      end
  end.

(** The loop of [closeUpvalues]: every turn closes one more upvalue object,
    so the budget of one turn per object is never used up. *)
Fixpoint closeUpvalues_loop (fuel : nat) (last : Z) (vm : VM) : Res VM :=
  match openUpvalues vm with
  | None => Ok vm
  | Some p =>
      upvalue <- of_option (cells (heap vm) !! p) ;;
      match location upvalue with
      | ClosedField => Undefined
      | StackSlot l =>
          if last <=? l then
            match fuel with
            | O => OutOfFuel
            | S fuel' =>
                v <- array_get (stack vm) l ;;
                let u := {| location := ClosedField; closed := v;
                            next := next upvalue |} in
                closeUpvalues_loop fuel' last
                  (with_openUpvalues (next upvalue)
                     (with_heap
                        (with_cells (<[p := u]> (cells (heap vm))) (heap vm))
                        vm))
            end
          else Ok vm
      end
  end.

Definition closeUpvalues (last : Z) (vm : VM) : Res VM :=
  closeUpvalues_loop (S (size (cells (heap vm)))) last vm.

Definition isFalsey (value : Value) : bool :=
  IS_NIL value ||
  match value with BOOL_VAL b => negb b | _ => false end.

Definition concatenate (vm : VM) : Res VM :=
  p <- pop vm ;;
  b <- AS_STRING (fst p) ;;
  p <- pop (snd p) ;;
  a <- AS_STRING (fst p) ;;
  let vm := snd p in
  let chars := (str_chars a ++ str_chars b)%string in
  let (result, h) := takeString chars (heap vm) in
  Ok (push (OBJ_VAL (OBJ_STRING result)) (with_heap h vm)).

Definition AS_NUMBER (v : Value) : Res float :=
  match v with NUMBER_VAL n => Ok n | _ => Undefined end.

Definition modulus (vm : VM) : Res Step :=
  v0 <- peek 0 vm ;;
  v1 <- (if IS_NUMBER v0 then peek 1 vm else Ok NIL_VAL) ;;
  if negb (IS_NUMBER v0) || negb (IS_NUMBER v1) then
    vm' <- runtimeError "Operands must be numbers." vm ;;
    Ok (Halted INTERPRET_RUNTIME_ERROR vm')
  else
    p <- pop vm ;;
    b <- AS_NUMBER (fst p) ;;
    p <- pop (snd p) ;;
    a <- AS_NUMBER (fst p) ;;
    q <- double_to_int (PrimFloat.div a b) ;;
    Ok (Running
          (push (NUMBER_VAL (PrimFloat.sub a (PrimFloat.mul (int_to_double q) b)))
             (snd p))).

Definition intDivison (vm : VM) : Res Step :=
  v0 <- peek 0 vm ;;
  v1 <- (if IS_NUMBER v0 then peek 1 vm else Ok NIL_VAL) ;;
  if negb (IS_NUMBER v0) || negb (IS_NUMBER v1) then
    vm' <- runtimeError "Operands must be numbers." vm ;;
    Ok (Halted INTERPRET_RUNTIME_ERROR vm')
  else
    p <- pop vm ;;
    b <- AS_NUMBER (fst p) ;;
    p <- pop (snd p) ;;
    a <- AS_NUMBER (fst p) ;;
    ia <- double_to_int a ;;
    ib <- double_to_int b ;;
    q <- int_div ia ib ;;
    Ok (Running (push (NUMBER_VAL (int_to_double q)) (snd p))).

Definition set_ip (i : Z) (frame : CallFrame) : CallFrame :=
  {| closure := closure frame; ip := i; slots := slots frame |}.

(** The frame [run] works in: [vm.frames[vm.frameCount - 1]]. *)
Definition current_frame (vm : VM) : Res CallFrame :=
  match frames vm with
  | [] => Undefined
  | frame :: _ => Ok frame
  end.

Definition READ_BYTE (vm : VM) : Res (Z * VM) :=
  match frames vm with
  | [] => Undefined
  | frame :: rest =>
      byte <- array_get (code (chunk (function (closure frame)))) (ip frame) ;;
      Ok (byte, with_frames (set_ip (ip frame + 1) frame :: rest) vm)
  end.

Definition READ_CONSTANT (vm : VM) : Res (Value * VM) :=
  r <- READ_BYTE vm ;;
  frame <- current_frame (snd r) ;;
  c <- array_get (constants (chunk (function (closure frame)))) (fst r) ;;
  Ok (c, snd r).

Definition READ_STRING (vm : VM) : Res (ObjString * VM) :=
  r <- READ_CONSTANT vm ;;
  s <- AS_STRING (fst r) ;;
  Ok (s, snd r).

Definition READ_SHORT (vm : VM) : Res (Z * VM) :=
  match frames vm with
  | [] => Undefined
  | frame :: rest =>
      let frame := set_ip (ip frame + 2) frame in
      let bytes := code (chunk (function (closure frame))) in
      hi <- array_get bytes (ip frame - 2) ;;
      lo <- array_get bytes (ip frame - 1) ;;
      Ok (Z.lor (Z.shiftl hi 8) lo mod 2 ^ 16, with_frames (frame :: rest) vm)
  end.

(** [frame->ip += offset] on the frame [run] works in. *)
Definition jump (offset : Z) (vm : VM) : Res VM :=
  match frames vm with
  | [] => Undefined
  | frame :: rest => Ok (with_frames (set_ip (ip frame + offset) frame :: rest) vm)
  end.

Definition BINARY_OP (valueType : float -> float -> Value) (vm : VM)
    : Res Step :=
  v0 <- peek 0 vm ;;
  v1 <- (if IS_NUMBER v0 then peek 1 vm else Ok NIL_VAL) ;;
  if negb (IS_NUMBER v0) || negb (IS_NUMBER v1) then
    vm' <- runtimeError "Operands must be numbers." vm ;;
    Ok (Halted INTERPRET_RUNTIME_ERROR vm')
  else
    p <- pop vm ;;
    b <- AS_NUMBER (fst p) ;;
    p <- pop (snd p) ;;
    a <- AS_NUMBER (fst p) ;;
    Ok (Running (push (valueType a b) (snd p))).

(** The loop of OP_CLOSURE over the upvalues the closure expects; it
    yields the array [closure->upvalues]. *)
Fixpoint closure_upvalues (n : nat) (vm : VM) : Res (list addr * VM) :=
  match n with
  | O => Ok ([], vm)
  | S n' =>
      r <- READ_BYTE vm ;;
      let (isLocal, vm) := r in
      r <- READ_BYTE vm ;;
      let (index, vm) := r in
      frame <- current_frame vm ;;
      r <- (if negb (isLocal =? 0)
            then captureUpvalue (slots frame + index) vm
            else
              a <- array_get (upvalues (closure frame)) index ;;
              Ok (a, vm)) ;;
      let (a, vm) := r in
      r <- closure_upvalues n' vm ;;
      Ok (a :: fst r, snd r)
  end.

(** The value [*upvalue->location]. *)
Definition read_location (a : addr) (vm : VM) : Res Value :=
  u <- of_option (cells (heap vm) !! a) ;;
  match location u with
  | StackSlot l => array_get (stack vm) l
  | ClosedField => Ok (closed u)
  end.

(** The store [*upvalue->location = v]. *)
Definition write_location (a : addr) (v : Value) (vm : VM) : Res VM :=
  u <- of_option (cells (heap vm) !! a) ;;
  match location u with
  | StackSlot l => Ok (with_stack (array_set (stack vm) l v) vm)
  | ClosedField =>
      Ok (with_heap
            (with_cells
               (<[a := {| location := ClosedField; closed := v;
                          next := next u |}]> (cells (heap vm)))
               (heap vm)) vm)
  end.

(** The body of the [switch] of [run], after [READ_BYTE] has fetched the
    instruction.  In OP_CLOSURE the closure is pushed once its upvalue
    array is filled: the loop that fills it neither reads nor moves the
    stack top. *)
Definition exec (instruction : OpCode) (vm : VM) : Res Step :=
  match instruction with
  | OP_CONSTANT =>
      r <- READ_CONSTANT vm ;;
      Ok (Running (push (fst r) (snd r)))
  | OP_NIL => Ok (Running (push NIL_VAL vm))
  | OP_TRUE => Ok (Running (push (BOOL_VAL true) vm))
  | OP_FALSE => Ok (Running (push (BOOL_VAL false) vm))
  | OP_POP =>
      p <- pop vm ;;
      Ok (Running (snd p))
  | OP_GET_LOCAL =>
      r <- READ_BYTE vm ;;
      let (slot, vm) := r in
      frame <- current_frame vm ;;
      v <- array_get (stack vm) (slots frame + slot) ;;
      Ok (Running (push v vm))
  | OP_SET_LOCAL =>
      r <- READ_BYTE vm ;;
      let (slot, vm) := r in
      frame <- current_frame vm ;;
      v <- peek 0 vm ;;
      Ok (Running (with_stack (array_set (stack vm) (slots frame + slot) v) vm))
  | OP_GET_GLOBAL =>
      r <- READ_STRING vm ;;
      let (name, vm) := r in
      g <- tableGet (globals vm) name ;;
      match g with
      | None =>
          vm' <- runtimeError
                   ("Undefined variable '" ++ str_chars name ++ "'.")%string vm ;;
          Ok (Halted INTERPRET_RUNTIME_ERROR vm')
      | Some value => Ok (Running (push value vm))
      end
  | OP_DEFINE_GLOBAL =>
      r <- READ_STRING vm ;;
      let (name, vm) := r in
      v <- peek 0 vm ;;
      s <- tableSet (globals vm) name v ;;
      p <- pop (with_globals (snd s) vm) ;;
      Ok (Running (snd p))
  | OP_SET_GLOBAL =>
      r <- READ_STRING vm ;;
      let (name, vm) := r in
      v <- peek 0 vm ;;
      s <- tableSet (globals vm) name v ;;
      let vm := with_globals (snd s) vm in
      if fst s then
        d <- tableDelete (globals vm) name ;;
        vm' <- runtimeError
                 ("Undefined variable '" ++ str_chars name ++ "'.")%string
                 (with_globals (snd d) vm) ;;
        Ok (Halted INTERPRET_RUNTIME_ERROR vm')
      else Ok (Running vm)
  | OP_GET_UPVALUE =>
      r <- READ_BYTE vm ;;
      let (slot, vm) := r in
      frame <- current_frame vm ;;
      a <- array_get (upvalues (closure frame)) slot ;;
      v <- read_location a vm ;;
      Ok (Running (push v vm))
  | OP_SET_UPVALUE =>
      r <- READ_BYTE vm ;;
      let (slot, vm) := r in
      frame <- current_frame vm ;;
      a <- array_get (upvalues (closure frame)) slot ;;
      v <- peek 0 vm ;;
      vm <- write_location a v vm ;;
      Ok (Running vm)
  | OP_EQUAL =>
      p <- pop vm ;;
      let b := fst p in
      p <- pop (snd p) ;;
      let a := fst p in
      Ok (Running (push (BOOL_VAL (valuesEqual a b)) (snd p)))
  | OP_GREATER => BINARY_OP (fun a b => BOOL_VAL (PrimFloat.ltb b a)) vm
  | OP_LESS => BINARY_OP (fun a b => BOOL_VAL (PrimFloat.ltb a b)) vm
  | OP_ADD =>
      v0 <- peek 0 vm ;;
      s1 <- (if IS_STRING v0 then peek 1 vm else Ok NIL_VAL) ;;
      if IS_STRING v0 && IS_STRING s1 then
        vm <- concatenate vm ;;
        Ok (Running vm)
      else
        n1 <- (if IS_NUMBER v0 then peek 1 vm else Ok NIL_VAL) ;;
        if IS_NUMBER v0 && IS_NUMBER n1 then
          p <- pop vm ;;
          b <- AS_NUMBER (fst p) ;;
          p <- pop (snd p) ;;
          a <- AS_NUMBER (fst p) ;;
          Ok (Running (push (NUMBER_VAL (PrimFloat.add a b)) (snd p)))
        else
          vm' <- runtimeError "Operands must be two numbers of two strings." vm ;;
          Ok (Halted INTERPRET_RUNTIME_ERROR vm')
  | OP_SUBTRACT => BINARY_OP (fun a b => NUMBER_VAL (PrimFloat.sub a b)) vm
  | OP_MULTIPLY => BINARY_OP (fun a b => NUMBER_VAL (PrimFloat.mul a b)) vm
  | OP_DIVIDE => BINARY_OP (fun a b => NUMBER_VAL (PrimFloat.div a b)) vm
  | OP_INT_DIVIDE => intDivison vm
  | OP_MODULUS => modulus vm
  | OP_NOT =>
      p <- pop vm ;;
      Ok (Running (push (BOOL_VAL (isFalsey (fst p))) (snd p)))
  | OP_NEGATE =>
      v0 <- peek 0 vm ;;
      if negb (IS_NUMBER v0) then
        vm' <- runtimeError "Operand must be a number." vm ;;
        Ok (Halted INTERPRET_RUNTIME_ERROR vm')
      else
        p <- pop vm ;;
        a <- AS_NUMBER (fst p) ;;
        Ok (Running (push (NUMBER_VAL (PrimFloat.opp a)) (snd p)))
  | OP_PRINT =>
      p <- pop vm ;;
      let vm := snd p in
      Ok (Running (with_out (out vm ++ [OutValue (fst p); OutText newline]) vm))
  | OP_JUMP =>
      r <- READ_SHORT vm ;;
      vm <- jump (fst r) (snd r) ;;
      Ok (Running vm)
  | OP_JUMP_IF_FALSE =>
      r <- READ_SHORT vm ;;
      let (offset, vm) := r in
      v <- peek 0 vm ;;
      if isFalsey v then
        vm <- jump offset vm ;;
        Ok (Running vm)
      else Ok (Running vm)
  | OP_LOOP =>
      r <- READ_SHORT vm ;;
      vm <- jump (- fst r) (snd r) ;;
      Ok (Running vm)
  | OP_CALL =>
      r <- READ_BYTE vm ;;
      let (argCount, vm) := r in
      callee <- peek argCount vm ;;
      c <- callValue callee argCount vm ;;
      if fst c then Ok (Running (snd c))
      else Ok (Halted INTERPRET_RUNTIME_ERROR (snd c))
  | OP_CLOSURE =>
      r <- READ_CONSTANT vm ;;
      function <- AS_FUNCTION (fst r) ;;
      let vm := snd r in
      let (a, h) := newClosure_addr (heap vm) in
      r <- closure_upvalues (Z.to_nat (upvalueCount function)) (with_heap h vm) ;;
      let closure := mkObjClosure a function (fst r) in
      Ok (Running (push (OBJ_VAL (OBJ_CLOSURE closure)) (snd r)))
  | OP_CLOSE_UPVALUE =>
      vm <- closeUpvalues (stackTop vm - 1) vm ;;
      p <- pop vm ;;
      Ok (Running (snd p))
  | OP_RETURN =>
      p <- pop vm ;;
      let result := fst p in
      let vm := snd p in
      match frames vm with
      | [] => Undefined
      | frame :: rest =>
          vm <- closeUpvalues (slots frame) vm ;;
          let vm := with_frames rest vm in
          if frameCount vm =? 0 then
            p <- pop vm ;;
            Ok (Halted INTERPRET_OK (snd p))
          else
            Ok (Running (push result (with_stackTop (slots frame) vm)))
      end
  end.

(** One turn of the loop of [run].  A byte that is no opcode selects no
    case of the [switch], and the loop goes on. *)
Definition step (vm : VM) : Res Step :=
  r <- READ_BYTE vm ;;
  match decode (fst r) with
  | None => Ok (Running (snd r))
  | Some instruction => exec instruction (snd r)
  end.

(** [run], with a budget of turns of its loop. *)
Fixpoint run (fuel : nat) (vm : VM) : Res (InterpretResult * VM) :=
  match fuel with
  | O => OutOfFuel
  | S fuel' =>
      s <- step vm ;;
      match s with
      | Running vm' => run fuel' vm'
      | Halted result vm' => Ok (result, vm')
      end
  end.

(** [interpret], from the result of [compile] on (a null pointer for a
    compile error). *)
Definition interpret (compiled : option ObjFunction) (fuel : nat) (vm : VM)
    : Res (InterpretResult * VM) :=
  match compiled with
  | None => Ok (INTERPRET_COMPILE_ERROR, vm)
  | Some function =>
      let vm := push (OBJ_VAL (OBJ_FUNCTION function)) vm in
      let (a, h) := newClosure_addr (heap vm) in
      let closure := mkObjClosure a function [] in
      p <- pop (with_heap h vm) ;;
      let vm := push (OBJ_VAL (OBJ_CLOSURE closure)) (snd p) in
      c <- call closure 0 vm ;;
      run fuel (snd c)
  end.

End Machine.

(** ** Tokens (scanner.h)

    The scanner is a collaborator: the compiler sees the tokens it hands
    out one by one.  A token points into the source text: [tk_start] is the
    text from the token's first character on, [tk_length] the length of the
    lexeme. *)

Inductive TokenType :=
| TOKEN_LEFT_PAREN | TOKEN_RIGHT_PAREN | TOKEN_LEFT_BRACE | TOKEN_RIGHT_BRACE
| TOKEN_COMMA | TOKEN_DOT | TOKEN_MINUS | TOKEN_PLUS | TOKEN_SEMICOLON
| TOKEN_SLASH | TOKEN_STAR
| TOKEN_BANG | TOKEN_BANG_EQUAL | TOKEN_EQUAL | TOKEN_EQUAL_EQUAL
| TOKEN_GREATER | TOKEN_GREATER_EQUAL | TOKEN_LESS | TOKEN_LESS_EQUAL
| TOKEN_IDENTIFIER | TOKEN_STRING | TOKEN_NUMBER
| TOKEN_AND | TOKEN_CLASS | TOKEN_ELSE | TOKEN_FALSE | TOKEN_FOR | TOKEN_FUN
| TOKEN_IF | TOKEN_NIL | TOKEN_OR | TOKEN_PRINT | TOKEN_RETURN | TOKEN_SUPER
| TOKEN_THIS | TOKEN_TRUE | TOKEN_VAR | TOKEN_WHILE
| TOKEN_ERROR | TOKEN_EOF.

Definition token_index (t : TokenType) : Z :=
  match t with
  | TOKEN_LEFT_PAREN => 0 | TOKEN_RIGHT_PAREN => 1 | TOKEN_LEFT_BRACE => 2
  | TOKEN_RIGHT_BRACE => 3 | TOKEN_COMMA => 4 | TOKEN_DOT => 5
  | TOKEN_MINUS => 6 | TOKEN_PLUS => 7 | TOKEN_SEMICOLON => 8
  | TOKEN_SLASH => 9 | TOKEN_STAR => 10 | TOKEN_BANG => 11
  | TOKEN_BANG_EQUAL => 12 | TOKEN_EQUAL => 13 | TOKEN_EQUAL_EQUAL => 14
  | TOKEN_GREATER => 15 | TOKEN_GREATER_EQUAL => 16 | TOKEN_LESS => 17
  | TOKEN_LESS_EQUAL => 18 | TOKEN_IDENTIFIER => 19 | TOKEN_STRING => 20
  | TOKEN_NUMBER => 21 | TOKEN_AND => 22 | TOKEN_CLASS => 23
  | TOKEN_ELSE => 24 | TOKEN_FALSE => 25 | TOKEN_FOR => 26 | TOKEN_FUN => 27
  | TOKEN_IF => 28 | TOKEN_NIL => 29 | TOKEN_OR => 30 | TOKEN_PRINT => 31
  | TOKEN_RETURN => 32 | TOKEN_SUPER => 33 | TOKEN_THIS => 34
  | TOKEN_TRUE => 35 | TOKEN_VAR => 36 | TOKEN_WHILE => 37
  | TOKEN_ERROR => 38 | TOKEN_EOF => 39
  end.

(** [a == b] on token types. *)
Definition type_eqb (a b : TokenType) : bool :=
  token_index a =? token_index b.

Record Token := mkToken {
  tk_type : TokenType;
  tk_start : string;
  tk_length : nat;
  tk_line : Z
}.

(** The lexeme: [tk_length] characters from [tk_start]. *)
Definition lexeme (t : Token) : string :=
  substring 0 (tk_length t) (tk_start t).

(** The scanner: the tokens it has yet to hand out.  Past the end of the
    source it hands out TOKEN_EOF. *)
Definition Scanner := list Token.

Definition scanToken (s : Scanner) : Token * Scanner :=
  match s with
  | [] => (mkToken TOKEN_EOF EmptyString 0 0, [])
  | t :: rest => (t, rest)
  end.

(** ** The compiler (compiler.c) *)

Record Parser := mkParser {
  current : Token;
  previous : Token;
  hadError : bool;
  panicMode : bool
}.

Definition PREC_NONE : Z := 0.
Definition PREC_ASSIGNMENT : Z := 1.
Definition PREC_OR : Z := 2.
Definition PREC_AND : Z := 3.
Definition PREC_EQUALITY : Z := 4.
Definition PREC_COMPARISON : Z := 5.
Definition PREC_TERM : Z := 6.
Definition PREC_FACTOR : Z := 7.
Definition PREC_UNARY : Z := 8.
Definition PREC_CALL : Z := 9.
Definition PREC_PRIMARY : Z := 10.

(** The functions a [ParseFn] of the rule table can point to. *)
Inductive ParseFn :=
| fn_grouping | fn_unary | fn_binary | fn_literal
| fn_variable | fn_string | fn_number.

Record ParseRule := mkRule {
  prefix : option ParseFn;
  infix : option ParseFn;
  precedence : Z
}.

(** The state the compiler works on: the globals [parser] and
    [compilingChunk], the scanner, the heap of the machine (for
    [copyString]) and the lines written to stderr. *)
Record Compiler := mkCompiler {
  parser : Parser;
  scanner : Scanner;
  compilingChunk : Chunk;
  c_heap : Heap;
  c_err : list string
}.

Definition with_parser (p : Parser) (c : Compiler) : Compiler :=
  mkCompiler p (scanner c) (compilingChunk c) (c_heap c) (c_err c).
Definition with_chunk (k : Chunk) (c : Compiler) : Compiler :=
  mkCompiler (parser c) (scanner c) k (c_heap c) (c_err c).

(** Modelled from the spec: [writeChunk] with its line argument and
    [addConstant] of chunk.c (the chunk.c under src/ predates them):
    [write] appends to the code and line arrays in lock-step, and
    [addConstant] appends to the constants and returns the index. *)
Definition writeChunk (k : Chunk) (byte : Z) (line : Z) : Chunk :=
  mkChunk (code k ++ [byte]) (lines k ++ [line]) (constants k).

Definition addConstant (k : Chunk) (value : Value) : Z * Chunk :=
  (Z.of_nat (length (constants k)),
   mkChunk (code k) (lines k) (constants k ++ [value])).

Definition UINT8_MAX : Z := 255.

Definition getRule (type : TokenType) : ParseRule :=
  match type with
  | TOKEN_LEFT_PAREN => mkRule (Some fn_grouping) None PREC_NONE
  | TOKEN_MINUS => mkRule (Some fn_unary) (Some fn_binary) PREC_TERM
  | TOKEN_PLUS => mkRule None (Some fn_binary) PREC_TERM
  | TOKEN_SLASH => mkRule None (Some fn_binary) PREC_FACTOR
  | TOKEN_STAR => mkRule None (Some fn_binary) PREC_FACTOR
  | TOKEN_BANG => mkRule (Some fn_unary) None PREC_NONE
  | TOKEN_BANG_EQUAL => mkRule None (Some fn_binary) PREC_EQUALITY
  | TOKEN_EQUAL_EQUAL => mkRule None (Some fn_binary) PREC_EQUALITY
  | TOKEN_GREATER => mkRule None (Some fn_binary) PREC_COMPARISON
  | TOKEN_GREATER_EQUAL => mkRule None (Some fn_binary) PREC_COMPARISON
  | TOKEN_LESS => mkRule None (Some fn_binary) PREC_COMPARISON
  | TOKEN_LESS_EQUAL => mkRule None (Some fn_binary) PREC_COMPARISON
  | TOKEN_IDENTIFIER => mkRule (Some fn_variable) None PREC_NONE
  | TOKEN_STRING => mkRule (Some fn_string) None PREC_NONE
  | TOKEN_NUMBER => mkRule (Some fn_number) None PREC_NONE
  | TOKEN_FALSE => mkRule (Some fn_literal) None PREC_NONE
  | TOKEN_NIL => mkRule (Some fn_literal) None PREC_NONE
  | TOKEN_TRUE => mkRule (Some fn_literal) None PREC_NONE
  | _ => mkRule None None PREC_NONE
  end.

Section Compile.

(** [strtod] of the C library. *)
Variable strtod : string -> float.

Definition errorAt (token : Token) (message : string) (c : Compiler)
    : Compiler :=
  if panicMode (parser c) then c
  else
    let p := parser c in
    let at_ :=
      match tk_type token with
      | TOKEN_EOF => " at end"
      | TOKEN_ERROR => ""
      | _ => " at '" ++ lexeme token ++ "'"
      end%string in
    mkCompiler (mkParser (current p) (previous p) true true)
      (scanner c) (compilingChunk c) (c_heap c)
      (c_err c ++
       ["[line " ++ fmt_d (tk_line token) ++ "] Error" ++ at_ ++ ": " ++ message]%string).

Definition error (message : string) (c : Compiler) : Compiler :=
  errorAt (previous (parser c)) message c.

Definition errorAtCurrent (message : string) (c : Compiler) : Compiler :=
  errorAt (current (parser c)) message c.

Definition set_current (t : Token) (c : Compiler) : Compiler :=
  let p := parser c in
  with_parser (mkParser t (previous p) (hadError p) (panicMode p)) c.

(** The loop of [advance]: scan until a token is no TOKEN_ERROR.  It walks
    the tokens the scanner has left. *)
Fixpoint advance_loop (s : Scanner) (c : Compiler) : Compiler :=
  match s with
  | [] =>
      mkCompiler (parser (set_current (fst (scanToken [])) c)) []
        (compilingChunk c) (c_heap c) (c_err c)
  | t :: rest =>
      let c := set_current t c in
      if type_eqb t.(tk_type) TOKEN_ERROR
      then advance_loop rest (errorAtCurrent (tk_start t) c)
      else mkCompiler (parser c) rest (compilingChunk c) (c_heap c) (c_err c)
  end.

Definition advance (c : Compiler) : Compiler :=
  let p := parser c in
  let c := with_parser (mkParser (current p) (current p) (hadError p) (panicMode p)) c in
  advance_loop (scanner c) c.

Definition consume (type : TokenType) (message : string) (c : Compiler)
    : Compiler :=
  if type_eqb (tk_type (current (parser c))) type then advance c
  else errorAtCurrent message c.

Definition check (type : TokenType) (c : Compiler) : bool :=
  type_eqb (tk_type (current (parser c))) type.

Definition match_ (type : TokenType) (c : Compiler) : bool * Compiler :=
  if negb (check type c) then (false, c) else (true, advance c).

Definition emitByte (byte : Z) (c : Compiler) : Compiler :=
  with_chunk (writeChunk (compilingChunk c) byte (tk_line (previous (parser c)))) c.

Definition emitBytes (byte1 byte2 : Z) (c : Compiler) : Compiler :=
  emitByte byte2 (emitByte byte1 c).

Definition emitReturn (c : Compiler) : Compiler :=
  emitByte (op OP_RETURN) c.

Definition makeConstant (value : Value) (c : Compiler) : Z * Compiler :=
  let (constant, k) := addConstant (compilingChunk c) value in
  let c := with_chunk k c in
  if UINT8_MAX <? constant
  then (0, error "Too many constants in one chunk." c)
  else (constant, c).

Definition emitConstant (value : Value) (c : Compiler) : Compiler :=
  let (constant, c) := makeConstant value c in
  emitBytes (op OP_CONSTANT) constant c.

Definition endCompiler (c : Compiler) : Compiler :=
  emitReturn c.

(** A call of [copyString] from the compiler: the string it returns, and
    the heap it leaves, kept in the compiler's state. *)
Definition intern (chars : string) (c : Compiler) : ObjString * Compiler :=
  let r := copyString chars (c_heap c) in
  (fst r, mkCompiler (parser c) (scanner c) (compilingChunk c) (snd r) (c_err c)).

Definition identifierConstant (name : Token) (c : Compiler) : Z * Compiler :=
  let (s, c) := intern (lexeme name) c in
  makeConstant (OBJ_VAL (OBJ_STRING s)) c.

Definition parseVariable (errorMessage : string) (c : Compiler)
    : Z * Compiler :=
  let c := consume TOKEN_IDENTIFIER errorMessage c in
  identifierConstant (previous (parser c)) c.

Definition defineVariable (global : Z) (c : Compiler) : Compiler :=
  emitBytes (op OP_DEFINE_GLOBAL) global c.

Definition literal (c : Compiler) : Compiler :=
  match tk_type (previous (parser c)) with
  | TOKEN_FALSE => emitByte (op OP_FALSE) c
  | TOKEN_NIL => emitByte (op OP_NIL) c
  | TOKEN_TRUE => emitByte (op OP_TRUE) c
  | _ => c
  end.

Definition number (c : Compiler) : Compiler :=
  let value := strtod (tk_start (previous (parser c))) in
  emitConstant (NUMBER_VAL value) c.

Definition string_ (c : Compiler) : Compiler :=
  let t := previous (parser c) in
  let (s, c) := intern (substring 1 (tk_length t - 2) (tk_start t)) c in
  emitConstant (OBJ_VAL (OBJ_STRING s)) c.

Definition namedVariable (name : Token) (c : Compiler) : Compiler :=
  let (arg, c) := identifierConstant name c in
  emitBytes (op OP_GET_GLOBAL) arg c.

Definition variable (c : Compiler) : Compiler :=
  namedVariable (previous (parser c)) c.

(** The functions that call [parsePrecedence] take it as [pp]. *)
Definition expression (pp : Z -> Compiler -> Res Compiler) (c : Compiler)
    : Res Compiler :=
  pp PREC_ASSIGNMENT c.

Definition grouping (pp : Z -> Compiler -> Res Compiler) (c : Compiler)
    : Res Compiler :=
  c <- expression pp c ;;
  Ok (consume TOKEN_RIGHT_PAREN "Expect ')' after expression." c).

Definition unary (pp : Z -> Compiler -> Res Compiler) (c : Compiler)
    : Res Compiler :=
  let operatorType := tk_type (previous (parser c)) in
  c <- pp PREC_UNARY c ;;
  Ok match operatorType with
     | TOKEN_BANG => emitByte (op OP_NOT) c
     | TOKEN_MINUS => emitByte (op OP_NEGATE) c
     | _ => c
     end.

Definition binary (pp : Z -> Compiler -> Res Compiler) (c : Compiler)
    : Res Compiler :=
  let operatorType := tk_type (previous (parser c)) in
  let rule := getRule operatorType in
  c <- pp (precedence rule + 1) c ;;
  Ok match operatorType with
     | TOKEN_BANG_EQUAL => emitBytes (op OP_EQUAL) (op OP_NOT) c
     | TOKEN_EQUAL_EQUAL => emitByte (op OP_EQUAL) c
     | TOKEN_GREATER => emitByte (op OP_GREATER) c
     | TOKEN_GREATER_EQUAL => emitBytes (op OP_LESS) (op OP_NOT) c
     | TOKEN_LESS => emitByte (op OP_LESS) c
     | TOKEN_LESS_EQUAL => emitBytes (op OP_GREATER) (op OP_NOT) c
     | TOKEN_PLUS => emitByte (op OP_ADD) c
     | TOKEN_MINUS => emitByte (op OP_SUBTRACT) c
     | TOKEN_STAR => emitByte (op OP_MULTIPLY) c
     | TOKEN_SLASH => emitByte (op OP_DIVIDE) c
     | _ => c
     end.

(** The call through a [ParseFn]. *)
Definition call_rule (pp : Z -> Compiler -> Res Compiler) (fn : ParseFn)
    (c : Compiler) : Res Compiler :=
  match fn with
  | fn_grouping => grouping pp c
  | fn_unary => unary pp c
  | fn_binary => binary pp c
  | fn_literal => Ok (literal c)
  | fn_variable => Ok (variable c)
  | fn_string => Ok (string_ c)
  | fn_number => Ok (number c)
  end.

(** The [while] loop of [parsePrecedence].  A null [infixRule] is called
    without a check. *)
Fixpoint parse_infix (fuel : nat) (pp : Z -> Compiler -> Res Compiler)
    (prec : Z) (c : Compiler) : Res Compiler :=
  if prec <=? precedence (getRule (tk_type (current (parser c)))) then
    match fuel with
    | O => OutOfFuel
    | S fuel' =>
        let c := advance c in
        match infix (getRule (tk_type (previous (parser c)))) with
        | None => Undefined
        | Some infixRule =>
            c <- call_rule pp infixRule c ;;
            parse_infix fuel' pp prec c
        end
    end
  else Ok c.

Fixpoint parsePrecedence (fuel : nat) (prec : Z) (c : Compiler)
    : Res Compiler :=
  match fuel with
  | O => OutOfFuel
  | S fuel' =>
      let c := advance c in
      match prefix (getRule (tk_type (previous (parser c)))) with
      | None => Ok (error "Expect expression." c)
      | Some prefixRule =>
          c <- call_rule (parsePrecedence fuel') prefixRule c ;;
          parse_infix fuel' (parsePrecedence fuel') prec c
      end
  end.

Definition varDecleration (fuel : nat) (c : Compiler) : Res Compiler :=
  let (global, c) := parseVariable "Expect variable name." c in
  let (m, c) := match_ TOKEN_EQUAL c in
  c <- (if m then expression (parsePrecedence fuel) c
        else Ok (emitByte (op OP_NIL) c)) ;;
  let c := consume TOKEN_SEMICOLON "Expect ';' after variable decleration." c in
  Ok (defineVariable global c).

Definition expressionStatement (fuel : nat) (c : Compiler) : Res Compiler :=
  c <- expression (parsePrecedence fuel) c ;;
  let c := consume TOKEN_SEMICOLON "Expect ';' after expression." c in
  Ok (emitByte (op OP_POP) c).

Definition printStatement (fuel : nat) (c : Compiler) : Res Compiler :=
  c <- expression (parsePrecedence fuel) c ;;
  let c := consume TOKEN_SEMICOLON "Expect ';' after value." c in
  Ok (emitByte (op OP_PRINT) c).

Definition clear_panic (c : Compiler) : Compiler :=
  let p := parser c in
  with_parser (mkParser (current p) (previous p) (hadError p) false) c.

(** The loop of [synchronize]: every turn takes a token from the scanner,
    and past the last one the current token is TOKEN_EOF. *)
Fixpoint synchronize_loop (fuel : nat) (c : Compiler) : Res Compiler :=
  if type_eqb (tk_type (current (parser c))) TOKEN_EOF then Ok c
  else if type_eqb (tk_type (previous (parser c))) TOKEN_SEMICOLON then Ok c
  else
    match tk_type (current (parser c)) with
    | TOKEN_CLASS | TOKEN_FUN | TOKEN_VAR | TOKEN_FOR | TOKEN_IF
    | TOKEN_WHILE | TOKEN_PRINT | TOKEN_RETURN => Ok c
    | _ =>
        match fuel with
        | O => OutOfFuel
        | S fuel' => synchronize_loop fuel' (advance c)
        end
    end.

Definition synchronize (c : Compiler) : Res Compiler :=
  let c := clear_panic c in
  synchronize_loop (S (length (scanner c))) c.

Definition statement (fuel : nat) (c : Compiler) : Res Compiler :=
  let (m, c) := match_ TOKEN_PRINT c in
  if m then printStatement fuel c else expressionStatement fuel c.

Definition decleration (fuel : nat) (c : Compiler) : Res Compiler :=
  let (m, c) := match_ TOKEN_VAR c in
  c <- (if m then varDecleration fuel c else statement fuel c) ;;
  if panicMode (parser c) then synchronize c else Ok c.

(** The loop of [compile]: declarations until the end of the source. *)
Fixpoint compile_loop (fuel : nat) (c : Compiler) : Res Compiler :=
  let (m, c) := match_ TOKEN_EOF c in
  if m then Ok c
  else
    match fuel with
    | O => OutOfFuel
    | S fuel' =>
        c <- decleration fuel' c ;;
        compile_loop fuel' c
    end.

(** [compile]: [initScanner(source)] gives the scanner its tokens; the
    tokens [parser] holds from before are not read.  The result is what
    [compile] returns together with the state it leaves. *)
Definition compile_with (fuel : nat) (source : Scanner) (k : Chunk) (h : Heap)
    : Res (bool * Compiler) :=
  let t0 := mkToken TOKEN_EOF EmptyString 0 0 in
  let c := mkCompiler (mkParser t0 t0 false false) source k h [] in
  let c := advance c in
  c <- compile_loop fuel c ;;
  let c := endCompiler c in
  Ok (negb (hadError (parser c)), c).

(** Every turn of every loop of the compiler takes a token, so a budget of
    the number of tokens, and two, is never used up. *)
Definition compile (source : Scanner) (k : Chunk) (h : Heap)
    : Res (bool * Compiler) :=
  compile_with (S (S (length source))) source k h.

End Compile.

(** * Specification-side definitions and example inputs *)

(** The bytes [binary] is specified to emit after the right operand, by
    operator: the table of the description of [binary]. *)
Definition binary_opcodes (operatorType : TokenType) : list OpCode :=
  match operatorType with
  | TOKEN_PLUS => [OP_ADD]
  | TOKEN_MINUS => [OP_SUBTRACT]
  | TOKEN_STAR => [OP_MULTIPLY]
  | TOKEN_SLASH => [OP_DIVIDE]
  | TOKEN_EQUAL_EQUAL => [OP_EQUAL]
  | TOKEN_BANG_EQUAL => [OP_EQUAL; OP_NOT]
  | TOKEN_LESS => [OP_LESS]
  | TOKEN_LESS_EQUAL => [OP_GREATER; OP_NOT]
  | TOKEN_GREATER => [OP_GREATER]
  | TOKEN_GREATER_EQUAL => [OP_LESS; OP_NOT]
  | _ => []
  end.

(** The token types the rule table gives [binary] as infix rule. *)
Definition is_binary_operator (t : TokenType) : bool :=
  match infix (getRule t) with
  | Some fn_binary => true
  | _ => false
  end.

(** The state a turn of [run] leaves. *)
Definition state_of (s : Step) : VM :=
  match s with
  | Running vm => vm
  | Halted _ vm => vm
  end.

(** [n] turns of the loop of [run], from [vm]. *)
Fixpoint run_steps (strtod : string -> float) (n : nat) (vm : VM) : Res Step :=
  match n with
  | O => Ok (Running vm)
  | S n' =>
      s <- step strtod vm ;;
      match s with
      | Running vm' => run_steps strtod n' vm'
      | Halted _ _ => Ok s
      end
  end.


(** ** The open-upvalue list *)

(** [lseg cs from l to]: following [next] from [from] in the store [cs]
    visits the upvalue objects [l] and arrives at [to]. *)
Fixpoint lseg (cs : gmap addr ObjUpvalue) (from : option addr) (l : list addr)
    (to : option addr) : Prop :=
  match l with
  | [] => from = to
  | p :: l' =>
      from = Some p /\
      exists u, cs !! p = Some u /\ lseg cs (next u) l' to
  end.

(** [chain cs head l]: the list that starts at [head] is made of the
    objects [l] and ends at the null pointer. *)
Definition chain (cs : gmap addr ObjUpvalue) (head : option addr)
    (l : list addr) : Prop :=
  lseg cs head l None.

(** The stack slot an upvalue object is open on, if it is open. *)
Definition open_slot (cs : gmap addr ObjUpvalue) (p : addr) : option Z :=
  match cs !! p with
  | Some u =>
      match location u with
      | StackSlot l => Some l
      | ClosedField => None
      end
  | None => None
  end.

(** [open_on cs l zs]: the objects [l] are open, on the slots [zs] in this
    order. *)
Definition open_on (cs : gmap addr ObjUpvalue) (l : list addr) (zs : list Z)
    : Prop :=
  Forall2 (fun p z => open_slot cs p = Some z) l zs.

(** Slots in strictly descending order. *)
Definition descending (zs : list Z) : Prop :=
  StronglySorted (fun a b => b < a) zs.

(** [open_list vm l zs]: the open-upvalue list of [vm] is made of the
    objects [l], all open, on the slots [zs], which descend. *)
Definition open_list (vm : VM) (l : list addr) (zs : list Z) : Prop :=
  chain (cells (heap vm)) (openUpvalues vm) l /\
  open_on (cells (heap vm)) l zs /\
  descending zs.


(** ** Example inputs *)

(** The storage of the global [vm] when a program starts: the stack array
    holds Nil, nothing is allocated, nothing waits on stdin and the clock
    reads zero. *)
Definition vm_storage : VM :=
  mkVM [] (replicate (Z.to_nat STACK_MAX) NIL_VAL) 0 initTable
    (mkHeap ∅ ∅ 0%nat) None [] [] [] (fun _ => PrimFloat.zero).

(** A stand-in for [strtod] in the examples: the value of the leading
    decimal digits of the text, as [strtod] gives for an unsigned integer
    literal below 2^53 that no fraction or exponent follows. *)
Fixpoint leading_digits (s : string) (acc : Z) : Z :=
  match s with
  | EmptyString => acc
  | String c rest =>
      let n := Z.of_N (N_of_ascii c) in
      if (48 <=? n) && (n <=? 57)
      then leading_digits rest (10 * acc + (n - 48))
      else acc
  end.

Definition strtod_digits (s : string) : float :=
  int_to_double (leading_digits s 0).

(** A token of one line of source, its lexeme the whole of [text]. *)
Definition token (type : TokenType) (text : string) : Token :=
  mkToken type text (String.length text) 1.

Definition empty_chunk : Chunk := mkChunk [] [] [].
Definition empty_heap : Heap := mkHeap ∅ ∅ 0%nat.

(** The interned string of an example, at address [a]. *)
Definition string_at (a : addr) (chars : string) : ObjString :=
  {| str_addr := a; str_chars := chars; str_hash := hashString chars |}.

(** [tableSet] of each pair in turn. *)
Fixpoint tableSetAll (kvs : list (ObjString * Value)) (t : Table) : Res Table :=
  match kvs with
  | [] => Ok t
  | (k, v) :: rest =>
      r <- tableSet t k v ;;
      tableSetAll rest (snd r)
  end.

(** Six globals, as [var a = 1; ... var f = 6;] defines them. *)
Definition six_globals : list (ObjString * Value) :=
  [ (string_at 1%nat "a", NUMBER_VAL 1%float); (string_at 2%nat "b", NUMBER_VAL 2%float);
    (string_at 3%nat "c", NUMBER_VAL 3%float); (string_at 4%nat "d", NUMBER_VAL 4%float);
    (string_at 5%nat "e", NUMBER_VAL 5%float); (string_at 6%nat "f", NUMBER_VAL 6%float) ].

(** ** The compiler's output *)

(** The bytes [bytes], emitted in order. *)
Definition emitAll (bytes : list Z) (c : Compiler) : Compiler :=
  fold_left (fun c byte => emitByte byte c) bytes c.

(** What a compilation leaves to see: the result of [compile], the code of
    the chunk and the lines written to stderr. *)
Definition outcome (r : Res (bool * Compiler))
    : Res (bool * list Z * list string) :=
  p <- r ;;
  Ok (fst p, code (compilingChunk (snd p)), c_err (snd p)).

(** ** Notions the proofs use *)



(** The part of an upvalue object the list is made of. *)
Definition link (u : ObjUpvalue) : Location * option addr :=
  (location u, next u).

(** Two stores with the same objects, linked the same way. *)
Definition same_links (cs cs' : gmap addr ObjUpvalue) : Prop :=
  forall p, link <$> cs' !! p = link <$> cs !! p.


(** What [closeUpvalues] leaves: the objects [l1] at the head of the list,
    on slots at or above [last], are closed and off the list; the list is
    the rest, [l2], on slots below [last]; no other object is touched. *)
Definition closed_upto (last : Z) (vm vm' : VM) (l : list addr)
    (zs : list Z) : Prop :=
  exists l1 l2 zs1 zs2,
    l = l1 ++ l2 /\ zs = zs1 ++ zs2 /\ open_list vm' l2 zs2 /\
    Forall (fun z => last <= z) zs1 /\ Forall (fun z => z < last) zs2 /\
    Forall (fun p => exists u, cells (heap vm') !! p = Some u /\
                               location u = ClosedField) l1 /\
    (forall q, q ∉ l1 -> cells (heap vm') !! q = cells (heap vm) !! q) /\
    (forall q, is_Some (cells (heap vm') !! q) <-> is_Some (cells (heap vm) !! q)) /\
    allocated (heap vm') = allocated (heap vm).


(** The tokens the compiler has yet to take: those the scanner holds, and
    the current one unless it is the end of the source. *)
Definition weight (t : Token) : nat :=
  if type_eqb (tk_type t) TOKEN_EOF then 0%nat else 1%nat.

(** The measure that every loop of the compiler brings down. *)
Definition tokens_left (c : Compiler) : nat :=
  (length (scanner c) + weight (current (parser c)))%nat.

(** An error flag that is up exactly when an error was reported. *)
Definition errors_flagged (c : Compiler) : Prop :=
  hadError (parser c) = true <-> c_err c <> [].

(** [later c c']: [c'] comes after [c] in a compilation: no token has come
    back, the code has only grown at its end, and the error flag still
    tells whether an error was reported. *)
Definition later (c c' : Compiler) : Prop :=
  (tokens_left c' <= tokens_left c)%nat /\
  (exists body, code (compilingChunk c') = code (compilingChunk c) ++ body) /\
  (errors_flagged c -> errors_flagged c').

(** Pieces that take no token: they leave the scanner and the current
    token alone. *)
Definition same_tokens (c c' : Compiler) : Prop :=
  scanner c' = scanner c /\ current (parser c') = current (parser c).

(** A piece that takes no token and appends [body] to the code. *)
Definition emits (body : list Z) (c c' : Compiler) : Prop :=
  later c c' /\ same_tokens c c' /\
  code (compilingChunk c') = code (compilingChunk c) ++ body.

(** [parses pp bound]: on a state with fewer than [bound] tokens left, [pp]
    returns, later in the compilation, and with fewer tokens left unless
    the source was already at its end. *)
Definition parses (pp : Z -> Compiler -> Res Compiler) (bound : nat) : Prop :=
  forall prec c,
    1 <= prec -> (tokens_left c < bound)%nat ->
    exists c',
      pp prec c = Ok c' /\ later c c' /\
      (weight (current (parser c)) = 1%nat ->
       (tokens_left c' < tokens_left c)%nat).

(** ** Example programs *)

(** The part of [interpret] before [run]: the closure of the script goes in
    slot zero of the stack and [call] pushes its frame. *)
Definition interpret_setup (function : ObjFunction) (vm : VM) : Res VM :=
  let vm := push (OBJ_VAL (OBJ_FUNCTION function)) vm in
  let (a, h) := newClosure_addr (heap vm) in
  let closure := mkObjClosure a function [] in
  p <- pop (with_heap h vm) ;;
  let vm := push (OBJ_VAL (OBJ_CLOSURE closure)) (snd p) in
  c <- call closure 0 vm ;;
  Ok (snd c).

(** The machine as [interpret] hands it to [run], for a script loaded after
    [initVM]. *)
Definition loaded (script : ObjFunction) : Res VM :=
  vm <- initVM vm_storage ;;
  interpret_setup script vm.

(** The machine [n] turns of [run] later, and the storage as it was if the
    run does not get that far. *)
Definition after_turns (n : nat) (script : ObjFunction) : VM :=
  match (vm <- loaded script ;; run_steps strtod_digits n vm) with
  | Ok s => state_of s
  | _ => vm_storage
  end.

(** The machine [n] turns of [run] after the start of [script]. *)
Definition turns (n : nat) (script : ObjFunction) : Res VM :=
  vm <- loaded script ;;
  s <- run_steps strtod_digits n vm ;;
  Ok (state_of s).

(** The number of entries of a table that hold a key. *)
Definition keys (t : Table) : nat :=
  length (filter (fun e => is_Some (e_key e)) (t_entries t)).

(** What a run leaves to see: the result of [interpret] and the lines
    written to stderr. *)
Definition report (r : Res (InterpretResult * VM))
    : Res (InterpretResult * list string) :=
  p <- r ;;
  Ok (fst p, err (snd p)).

(** A script of [n] bytes of code, all from line 1.  The objects among the
    constants of the examples sit at addresses from 1000 on, which the
    allocations of the runs below do not reach. *)
Definition script_of (bytes : list Z) (consts : list Value) : ObjFunction :=
  mkObjFunction 1000%nat 0 0
    (mkChunk bytes (replicate (length bytes) 1) consts) None.

(** [print "a" + 1;] *)
Definition add_script : ObjFunction :=
  script_of
    [op OP_CONSTANT; 0; op OP_CONSTANT; 1; op OP_ADD; op OP_PRINT;
     op OP_NIL; op OP_RETURN]
    [OBJ_VAL (OBJ_STRING (string_at 1001%nat "a")); NUMBER_VAL 1%float].

(** [fun f() { f(); } f();] *)
Definition name_f : ObjString := string_at 1001%nat "f".
Definition function_f : ObjFunction :=
  mkObjFunction 1002%nat 0 0
    (mkChunk
       [op OP_GET_GLOBAL; 0; op OP_CALL; 0; op OP_POP; op OP_NIL; op OP_RETURN]
       (replicate 7 1) [OBJ_VAL (OBJ_STRING name_f)])
    (Some name_f).
Definition recursive_script : ObjFunction :=
  script_of
    [op OP_CLOSURE; 0; op OP_DEFINE_GLOBAL; 1; op OP_GET_GLOBAL; 1;
     op OP_CALL; 0; op OP_POP; op OP_NIL; op OP_RETURN]
    [OBJ_VAL (OBJ_FUNCTION function_f); OBJ_VAL (OBJ_STRING name_f)].

(** [var a; var b; ... var l; x = nil;]: twelve globals, then an assignment
    to a name that was never defined. *)
Definition twelve_names : list ObjString :=
  imap (fun i chars => string_at (1001 + i)%nat chars)
    ["a"; "b"; "c"; "d"; "e"; "f"; "g"; "h"; "i"; "j"; "k"; "l"]%string.
Definition name_x : ObjString := string_at 1013%nat "x".
Definition assign_script : ObjFunction :=
  script_of
    (flat_map (fun i => [op OP_NIL; op OP_DEFINE_GLOBAL; i]) (seqZ 0 12) ++
     [op OP_NIL; op OP_SET_GLOBAL; 12; op OP_POP; op OP_NIL; op OP_RETURN])
    (map (fun s => OBJ_VAL (OBJ_STRING s)) (twelve_names ++ [name_x])).


(** The tokens of [a = b;] and the compiler that has [a] as its current
    token. *)
Definition assignment_tokens : list Token :=
  [token TOKEN_IDENTIFIER "a"; token TOKEN_EQUAL "=";
   token TOKEN_IDENTIFIER "b"; token TOKEN_SEMICOLON ";"]%string.
Definition at_assignment : Compiler :=
  advance
    (mkCompiler
       (mkParser (mkToken TOKEN_EOF EmptyString 0 0)
          (mkToken TOKEN_EOF EmptyString 0 0) false false)
       assignment_tokens empty_chunk empty_heap []).

(** * Tables, machine, compiler and chunk: further definitions *)

(** ** Hash tables: what the entries of a table are *)

(** An entry that was never used: a null key and a Nil value.  A tombstone
    has a null key too, but its value is [true]. *)
Definition vacant (e : Entry) : bool :=
  match e_key e with
  | None => IS_NIL (e_value e)
  | Some _ => false
  end.

(** An entry whose key is the string [key] itself (the same pointer). *)
Definition holds (key : ObjString) (e : Entry) : bool :=
  match e_key e with
  | Some k => same_string k key
  | None => false
  end.

(** The array of a table has [capacity] entries, and there is one. *)
Definition sized (entries : list Entry) (capacity : Z) : Prop :=
  0 < capacity /\ Z.of_nat (length entries) = capacity.

(** Some entry of the array was never used. *)
Definition has_vacancy (entries : list Entry) : Prop :=
  exists (i : nat) (e : Entry), entries !! i = Some e /\ vacant e = true.

(** Every key stored in the array is found by [findEntry] in the entry that
    stores it. *)
Definition keys_findable (entries : list Entry) (capacity : Z) : Prop :=
  forall (i : nat) (e : Entry) (k : ObjString),
    entries !! i = Some e -> e_key e = Some k ->
    findEntry entries capacity k = Ok (Z.of_nat i).

(** The table is one that [tableSet] and [tableDelete] keep in order. *)
Definition table_ok (t : Table) : Prop :=
  sized (t_entries t) (t_capacity t) /\
  keys_findable (t_entries t) (t_capacity t).

(** The pointer [key] and the keys of the array point into one heap: a key
    of the array at the address of [key] is [key]. *)
Definition same_object (entries : list Entry) (key : ObjString) : Prop :=
  forall (i : nat) (e : Entry) (k : ObjString),
    entries !! i = Some e -> e_key e = Some k ->
    same_string k key = true -> k = key.

(** The array stores [value] under [key]. *)
Definition stored (entries : list Entry) (key : ObjString) (value : Value)
    : Prop :=
  exists (i : nat) (e : Entry),
    entries !! i = Some e /\ holds key e = true /\ e_value e = value.

(** The entries in use: those with a key and the tombstones. *)
Fixpoint used (entries : list Entry) : Z :=
  match entries with
  | [] => 0
  | e :: rest => (if vacant e then 0 else 1) + used rest
  end.

(** [count] is at least the number of entries in use and within the load
    that [tableSet] allows. *)
Definition counted (t : Table) : Prop :=
  used (t_entries t) <= t_count t /\ 4 * t_count t <= 3 * t_capacity t.

(** [k] is a key of the array. *)
Definition key_in (entries : list Entry) (k : ObjString) : Prop :=
  exists (i : nat) (e : Entry), entries !! i = Some e /\ e_key e = Some k.

(** The keys of the array point into one heap: two of them at the same
    address are the same string. *)
Definition coherent_keys (entries : list Entry) : Prop :=
  forall k1 k2 : ObjString,
    key_in entries k1 -> key_in entries k2 ->
    same_string k1 k2 = true -> k1 = k2.

(** [memcmp(key->chars, chars, length) == 0] where [key] has [length]
    characters and [chars] is the caller's buffer: reading [length] bytes of
    a shorter buffer is undefined. *)
Definition same_bytes (k : ObjString) (chars : string) (length : Z) : Res bool :=
  if Z.of_nat (String.length chars) <? length then Undefined
  else Ok (String.eqb (str_chars k) (substring 0 (Z.to_nat length) chars)).

(** The loop of [tableFindString].  It changes nothing but [index], which
    visits the [capacity] entries in a cycle: a loop that has not returned
    after [capacity] entries never returns. *)
Fixpoint tableFindString_probe (fuel : nat) (entries : list Entry)
    (capacity : Z) (chars : string) (length : Z) (hash : Z) (index : Z)
    : Res (option ObjString) :=
  match fuel with
  | O => Diverges
  | S fuel' =>
      entry <- array_get entries index ;;
      match e_key entry with
      | None =>
          if IS_NIL (e_value entry) then Ok None
          else tableFindString_probe fuel' entries capacity chars length hash
                 ((index + 1) mod capacity)
      | Some k =>
          if (Z.of_nat (String.length (str_chars k)) =? length)
             && (str_hash k =? hash)
          then
            same <- same_bytes k chars length ;;
            if same then Ok (Some k)
            else tableFindString_probe fuel' entries capacity chars length
                   hash ((index + 1) mod capacity)
          else tableFindString_probe fuel' entries capacity chars length hash
                 ((index + 1) mod capacity)
      end
  end.

(** [tableFindString] returns the key found, or the null pointer. *)
Definition tableFindString (table : Table) (chars : string) (length : Z)
    (hash : Z) : Res (option ObjString) :=
  if t_count table =? 0 then Ok None
  else if t_capacity table <=? 0 then Undefined
  else tableFindString_probe (Z.to_nat (t_capacity table)) (t_entries table)
         (t_capacity table) chars length hash (hash mod t_capacity table).

(** Tables for the examples: the first three of the six globals, and all
    six. *)
Definition table_of (kvs : list (ObjString * Value)) : Table :=
  match tableSetAll kvs initTable with
  | Ok t => t
  | _ => initTable
  end.
Definition three_table : Table := table_of (take 3 six_globals).
Definition six_table : Table := table_of six_globals.

(** ** The machine: instructions by kind *)

(** The instructions that take two numbers. *)
Definition numeric_ops : list OpCode :=
  [OP_GREATER; OP_LESS; OP_SUBTRACT; OP_MULTIPLY; OP_DIVIDE;
   OP_INT_DIVIDE; OP_MODULUS].

(** A frame whose [ip] is past an instruction of its chunk that has a line:
    [runtimeError] reads [lines[ip - 1]]. *)
Definition has_line (frame : CallFrame) : Prop :=
  0 <= ip frame - 1 <
    Z.of_nat (length (lines (chunk (function (closure frame))))).

(** The machine one turn into [add_script], two more values pushed. *)
Definition two_pushed (a b : Value) : VM :=
  push b (push a (after_turns 1 add_script)).

(** The machine once [run] has read the instruction byte. *)
Definition fetched (vm : VM) : VM :=
  match READ_BYTE vm with
  | Ok (_, vm') => vm'
  | _ => vm
  end.

(** [while (false) {}], as the compiler of the book lays it out. *)
Definition loop_script : ObjFunction :=
  script_of
    [op OP_FALSE; op OP_JUMP_IF_FALSE; 0; 4; op OP_POP; op OP_LOOP; 0; 7;
     op OP_POP; op OP_NIL; op OP_RETURN]
    [].

(** ** The machine: upvalues *)

(** Every slot of [zs] lies in the stack array. *)
Definition slots_in_stack (vm : VM) (zs : list Z) : Prop :=
  Forall (fun z => 0 <= z < Z.of_nat (length (stack vm))) zs.

(** [vm'] differs from [vm] in upvalue objects and in the head of their
    list at most. *)
Definition same_but_upvalues (vm vm' : VM) : Prop :=
  frames vm' = frames vm /\ stack vm' = stack vm /\
  stackTop vm' = stackTop vm /\ globals vm' = globals vm /\
  strings (heap vm') = strings (heap vm) /\
  out vm' = out vm /\ err vm' = err vm.

(** The storage with 7 in slot 3 of the stack and one upvalue open on that
    slot. *)
Definition one_open : VM :=
  match captureUpvalue 3
          (with_stack (array_set (stack vm_storage) 3 (NUMBER_VAL 7)) vm_storage)
  with
  | Ok (_, vm) => vm
  | _ => vm_storage
  end.

(** The machine inside the first call of [f] of [recursive_script], Nil
    pushed. *)
Definition in_call : VM := push NIL_VAL (after_turns 4 recursive_script).

(** ** The machine: what an instruction does to the stack *)

(** [stack_use o]: the number of values the case of [o] in [run] reads from
    the top of the stack, and the number by which it moves the stack top.
    OP_CALL and OP_RETURN have none: what they do depends on the callee and
    on the frame. *)
Definition stack_use (o : OpCode) : option (Z * Z) :=
  match o with
  | OP_CONSTANT | OP_NIL | OP_TRUE | OP_FALSE
  | OP_GET_LOCAL | OP_GET_GLOBAL | OP_GET_UPVALUE | OP_CLOSURE => Some (0, 1)
  | OP_POP | OP_PRINT | OP_DEFINE_GLOBAL | OP_CLOSE_UPVALUE => Some (1, -1)
  | OP_SET_LOCAL | OP_SET_GLOBAL | OP_SET_UPVALUE
  | OP_NOT | OP_NEGATE | OP_JUMP_IF_FALSE => Some (1, 0)
  | OP_JUMP | OP_LOOP => Some (0, 0)
  | OP_EQUAL | OP_GREATER | OP_LESS
  | OP_ADD | OP_SUBTRACT | OP_MULTIPLY | OP_DIVIDE
  | OP_INT_DIVIDE | OP_MODULUS => Some (2, -1)
  | OP_CALL | OP_RETURN => None
  end.

(** ** The compiler: the shape of the code *)

(** The operand of an instruction of straight-line code over globals: none,
    or one byte that is the index of a constant.  The instructions with a
    slot, a jump offset, an argument count or upvalue descriptors have no
    shape here. *)
Inductive Shape :=
| NoOperand
| ConstantOperand.

Definition shape (o : OpCode) : option Shape :=
  match o with
  | OP_CONSTANT | OP_GET_GLOBAL | OP_DEFINE_GLOBAL | OP_SET_GLOBAL =>
      Some ConstantOperand
  | OP_NIL | OP_TRUE | OP_FALSE | OP_POP
  | OP_EQUAL | OP_GREATER | OP_LESS
  | OP_ADD | OP_SUBTRACT | OP_MULTIPLY | OP_DIVIDE
  | OP_INT_DIVIDE | OP_MODULUS
  | OP_NOT | OP_NEGATE | OP_PRINT => Some NoOperand
  | _ => None
  end.

(** [straight_line n code d]: the depth of the stack after [code], started
    at depth [d], when [code] is a sequence of whole instructions that have
    a shape, every constant operand is below [n], and no instruction reads
    more values than the stack holds. *)
Fixpoint straight_line (n : Z) (code : list Z) (d : Z) : option Z :=
  match code with
  | [] => Some d
  | byte :: rest =>
      match decode byte with
      | None => None
      | Some o =>
          match stack_use o, shape o with
          | Some (need, net), Some NoOperand =>
              if d <? need then None else straight_line n rest (d + net)
          | Some (need, net), Some ConstantOperand =>
              match rest with
              | [] => None
              | k :: rest' =>
                  if (d <? need) || (k <? 0) || (n <=? k) then None
                  else straight_line n rest' (d + net)
              end
          | _, _ => None
          end
      end
  end.

(** Panic mode is entered with the error flag up. *)
Definition panic_flagged (c : Compiler) : Prop :=
  panicMode (parser c) = true -> hadError (parser c) = true.

(** [compiled need net c c']: [c'] comes after [c] in a compilation.  The
    error flag has not come down and no constant has gone; the code has
    grown by bytes that fit a [uint8_t], the line array by as many lines;
    and if no error was reported, the bytes are straight-line code that
    reads at most [need] values of the stack it finds and leaves it [net]
    deeper. *)
Definition compiled (need net : Z) (c c' : Compiler) : Prop :=
  let k := compilingChunk c in
  let k' := compilingChunk c' in
  (hadError (parser c) = true -> hadError (parser c') = true) /\
  (panic_flagged c -> panic_flagged c') /\
  (length (constants k) <= length (constants k'))%nat /\
  exists body,
    code k' = code k ++ body /\
    length (lines k') = (length (lines k) + length body)%nat /\
    Forall (fun b => 0 <= b <= UINT8_MAX) body /\
    (panic_flagged c -> hadError (parser c') = false ->
     forall n d,
       Z.of_nat (length (constants k')) <= n -> need <= d ->
       straight_line n body d = Some (d + net)).

(** What [parsePrecedence] is taken to do where it is called. *)
Definition expression_parser (pp : Z -> Compiler -> Res Compiler) : Prop :=
  forall prec c c', 1 <= prec -> pp prec c = Ok c' -> compiled 0 1 c c'.

(** The tokens of [var a = 1; print a + 2;]. *)
Definition print_sum_tokens : list Token :=
  [token TOKEN_VAR "var"; token TOKEN_IDENTIFIER "a"; token TOKEN_EQUAL "=";
   token TOKEN_NUMBER "1"; token TOKEN_SEMICOLON ";";
   token TOKEN_PRINT "print"; token TOKEN_IDENTIFIER "a";
   token TOKEN_PLUS "+"; token TOKEN_NUMBER "2";
   token TOKEN_SEMICOLON ";"]%string.

(** ** The compiler: what it reports *)

(** [reports c c']: between [c] and [c'] the compiler has stayed in panic
    mode and reported nothing; or it has stayed out of panic mode and
    reported nothing; or it has reported one line and entered panic
    mode. *)
Definition reports (c c' : Compiler) : Prop :=
  (panicMode (parser c) = true ->
   panicMode (parser c') = true /\ c_err c' = c_err c) /\
  (panicMode (parser c) = false ->
   (panicMode (parser c') = false /\ c_err c' = c_err c) \/
   (panicMode (parser c') = true /\
    exists line, c_err c' = c_err c ++ [line])).

(** The places where [synchronize] stops: the end of the source, the token
    after a semicolon, and the keywords that start a statement. *)
Definition at_boundary (c : Compiler) : bool :=
  type_eqb (tk_type (current (parser c))) TOKEN_EOF ||
  type_eqb (tk_type (previous (parser c))) TOKEN_SEMICOLON ||
  match tk_type (current (parser c)) with
  | TOKEN_CLASS | TOKEN_FUN | TOKEN_VAR | TOKEN_FOR | TOKEN_IF
  | TOKEN_WHILE | TOKEN_PRINT | TOKEN_RETURN => true
  | _ => false
  end.

(** The line [errorAt] writes for a TOKEN_ERROR token, whose text is the
    message of the scanner. *)
Definition scan_error_line (t : Token) : string :=
  ("[line " ++ fmt_d (tk_line t) ++ "] Error: " ++ tk_start t)%string.

(** The compiler at the start of [print ) ) ;]. *)
Definition at_bad_print : Compiler :=
  advance
    (mkCompiler
       (mkParser (mkToken TOKEN_EOF EmptyString 0 0)
          (mkToken TOKEN_EOF EmptyString 0 0) false false)
       [token TOKEN_PRINT "print"; token TOKEN_RIGHT_PAREN ")";
        token TOKEN_RIGHT_PAREN ")"; token TOKEN_SEMICOLON ";"]%string
       empty_chunk empty_heap []).

(** ** The chunk of bytes (chunk.h, chunk.c, memory.c)

    [chunk.h] and [chunk.c] under src/ are the first version of the chunk:
    a dynamic array of bytes.  The array is the list of its cells, [None]
    for a cell that was never written. *)

Module ByteChunk.

Record Chunk := mkChunk {
  count : Z;
  capacity : Z;
  code : list (option Z)
}.

Definition initChunk : Chunk :=
  {| count := 0; capacity := 0; code := [] |}.

(** [reallocate] on a block of cells: the new block keeps the old content
    up to the smaller of the two sizes, and the cells beyond are unset.
    [exit(1)] on a failed allocation is left out: the allocation
    succeeds. *)
Definition reallocate (pointer : list (option Z)) (oldSize newSize : Z)
    : list (option Z) :=
  if newSize =? 0 then []
  else take (Z.to_nat newSize) pointer ++
       replicate (Z.to_nat newSize - length pointer) None.

(** Modelled from the spec: GROW_ARRAY and FREE_ARRAY of memory.h (absent
    from src/): the array grows through the allocator, [reallocate], from
    the old count to the new one, and is freed by a size of zero; a cell
    of [uint8_t] is one byte. *)
Definition GROW_ARRAY (pointer : list (option Z)) (oldCount newCount : Z)
    : list (option Z) :=
  reallocate pointer oldCount newCount.

Definition FREE_ARRAY (pointer : list (option Z)) (oldCount : Z)
    : list (option Z) :=
  reallocate pointer oldCount 0.

(** [count + 1] and the doubled capacity are [int]s: past INT_MAX they are
    undefined.  A store outside the array is undefined. *)
Definition writeChunk (chunk : Chunk) (byte : Z) : Res Chunk :=
  if count chunk =? INT_MAX then Undefined
  else
    chunk <- (if capacity chunk <? count chunk + 1 then
                let oldCapacity := capacity chunk in
                let capacity' := GROW_CAPACITY oldCapacity in
                if INT_MAX <? capacity' then Undefined
                else Ok {| count := count chunk;
                           capacity := capacity';
                           code := GROW_ARRAY (code chunk) oldCapacity capacity' |}
              else Ok chunk) ;;
    if (count chunk <? 0) || (Z.of_nat (length (code chunk)) <=? count chunk)
    then Undefined
    else Ok {| count := count chunk + 1;
               capacity := capacity chunk;
               code := <[Z.to_nat (count chunk) := Some byte]> (code chunk) |}.

Definition freeChunk (chunk : Chunk) : Chunk :=
  let _ := FREE_ARRAY (code chunk) (capacity chunk) in
  initChunk.

(** The bytes of the chunk: its first [count] cells. *)
Definition bytes (chunk : Chunk) : list (option Z) :=
  take (Z.to_nat (count chunk)) (code chunk).

(** The invariant of the dynamic array: the count is within the capacity,
    which is the size of the block, and is zero or a power of two from 8
    on; and the block is at most twice as large as the writes so far have
    needed, 8 cells at least. *)
Definition sound (chunk : Chunk) : Prop :=
  0 <= count chunk <= capacity chunk /\
  Z.of_nat (length (code chunk)) = capacity chunk /\
  (capacity chunk = 0 \/ exists k, 3 <= k <= 30 /\ capacity chunk = 2 ^ k) /\
  capacity chunk <= Z.max 8 (2 * (count chunk - 1)).

(** One [writeChunk] for each byte of a list, in order. *)
Fixpoint writeAll (chunk : Chunk) (l : list Z) : Res Chunk :=
  match l with
  | [] => Ok chunk
  | byte :: rest =>
      chunk <- writeChunk chunk byte ;;
      writeAll chunk rest
  end.

(** A chunk whose block of 8 cells is full. *)
Definition eight_bytes : Chunk :=
  {| count := 8; capacity := 8; code := map Some [1; 2; 3; 4; 5; 6; 7; 8] |}.

End ByteChunk.

(** ** Reading a script (main.c) *)

(** How a function of main.c ends: it returns, or it calls [exit]. *)
Inductive Ran (A : Type) :=
| Returned (a : A)
| Exited (status : Z).
Arguments Returned {A} a.
Arguments Exited {A} status.

(** A file that [fopen] has opened: its bytes, whose number [ftell] reports
    at the end of the file, and the number of them [fread] delivers, which
    is smaller after a read error. *)
Record OpenFile := mkOpenFile {
  f_bytes : list Z;
  f_read : nat
}.

(** What the C library does for [readFile]: the file [fopen] opens for a
    path, if any, and whether [malloc] finds the memory. *)
Record Libc := mkLibc {
  fopen : string -> option OpenFile;
  malloc_succeeds : bool
}.

Definition quote : string := String (ascii_of_nat 34) EmptyString.

(** [readFile]: the lines written to stderr, and the buffer returned or the
    exit status.  The buffer is the list of its cells, [None] for a cell
    that was never written; the terminator is the byte 0.  A store outside
    the buffer is undefined. *)
Definition readFile (libc : Libc) (path : string)
    : Res (list string * Ran (list (option Z))) :=
  match fopen libc path with
  | None =>
      Ok (["Could not open file " ++ quote ++ path ++ quote ++ "."]%string,
          Exited 74)
  | Some file =>
      let fileSize := Z.of_nat (length (f_bytes file)) in
      if negb (malloc_succeeds libc) then
        Ok (["Not enough memory to read " ++ quote ++ path ++ quote ++ "."]%string,
            Exited 74)
      else
        let buffer : list (option Z) := replicate (Z.to_nat (fileSize + 1)) None in
        let bytesRead := Z.of_nat (Nat.min (f_read file) (length (f_bytes file))) in
        let buffer :=
          (Some <$> take (Z.to_nat bytesRead) (f_bytes file)) ++
          drop (Z.to_nat bytesRead) buffer in
        if bytesRead <? fileSize then
          Ok (["Could not read file " ++ quote ++ path ++ quote ++ "."]%string,
              Exited 74)
        else if Z.of_nat (length buffer) <=? bytesRead + 1 then Undefined
        else Ok ([], Returned (<[Z.to_nat (bytesRead + 1) := Some 0]> buffer))
  end.

(** [runFile], with [interpret] as the function of the source text it is
    for [runFile]; it returns when the script has run without error. *)
Definition runFile (libc : Libc)
    (interpret : list (option Z) -> InterpretResult) (path : string)
    : Res (list string * Ran unit) :=
  r <- readFile libc path ;;
  match snd r with
  | Exited status => Ok (fst r, Exited status)
  | Returned source =>
      match interpret source with
      | INTERPRET_COMPILE_ERROR => Ok (fst r, Exited 65)
      | INTERPRET_RUNTIME_ERROR => Ok (fst r, Exited 70)
      | INTERPRET_OK => Ok (fst r, Returned tt)
      end
  end.

(** The machine of [recursive_script] before the call of [f]: the callee
    on top of the stack; the callee; and the machine [call] leaves. *)
Definition before_call : VM := after_turns 3 recursive_script.
Definition callee : ObjClosure :=
  match peek 0 before_call with
  | Ok (OBJ_VAL (OBJ_CLOSURE c)) => c
  | _ => mkObjClosure 0%nat function_f []
  end.
Definition called : VM :=
  match call callee 0 before_call with
  | Ok (_, vm) => vm
  | _ => before_call
  end.

(** The machine of [recursive_script] once [f] is defined and OP_GET_GLOBAL
    is read, and its globals. *)
Definition at_get_global : VM := fetched (after_turns 2 recursive_script).
Definition globals_f : Table := globals at_get_global.

(** * Theorems *)

(** ** Reading results *)

Lemma bind_Ok {A B : Type} (m : Res A) (k : A -> Res B) (b : B) :
  Res_bind m k = Ok b -> exists a, m = Ok a /\ k a = Ok b.
Proof. destruct m; simpl; intros H; try discriminate. eauto. Qed.

Ltac inv_bind H :=
  let a := fresh "a" in
  let Ha := fresh "Ha" in
  apply bind_Ok in H; destruct H as (a & Ha & H).

(** Take apart a hypothesis that says a piece of the model returned. *)
Ltac inv_ok :=
  repeat match goal with
  | H : Res_bind _ _ = Ok _ |- _ => inv_bind H
  | H : Ok _ = Ok _ |- _ => injection H as H
  | H : Undefined = Ok _ |- _ => discriminate H
  | H : Diverges = Ok _ |- _ => discriminate H
  | H : OutOfFuel = Ok _ |- _ => discriminate H
  | H : (_, _) = (_, _) |- _ => injection H as H
  | H : (let (_, _) := ?p in _) = Ok _ |- _ => destruct p eqn:?
  | H : (if ?b then _ else _) = Ok _ |- _ => destruct b eqn:?
  | H : match ?x with _ => _ end = Ok _ |- _ => destruct x eqn:?
  end.

Lemma array_get_Ok {A : Type} (l : list A) (i : Z) (x : A) :
  array_get l i = Ok x <-> 0 <= i /\ l !! Z.to_nat i = Some x.
Proof.
  unfold array_get. destruct (Z.ltb_spec i 0).
  - split; [discriminate | lia].
  - destruct (l !! Z.to_nat i); simpl; split; intros H'.
    + injection H' as ->. auto.
    + destruct H' as [_ [= ->]]. reflexivity.
    + discriminate.
    + destruct H' as [_ [=]].
Qed.

Lemma array_get_set {A : Type} (l : list A) (i : Z) (x : A) :
  0 <= i < Z.of_nat (length l) -> array_get (array_set l i x) i = Ok x.
Proof.
  intros Hi. apply array_get_Ok. split; [lia|].
  unfold array_set. destruct (Z.ltb_spec i 0); [lia|].
  apply list_lookup_insert_eq. lia.
Qed.

Lemma array_get_set_ne {A : Type} (l : list A) (i j : Z) (x : A) :
  i <> j -> array_get (array_set l i x) j = array_get l j.
Proof.
  intros Hne. unfold array_get, array_set.
  destruct (Z.ltb_spec j 0); [reflexivity|].
  destruct (Z.ltb_spec i 0); [reflexivity|].
  rewrite list_lookup_insert_ne; [reflexivity | lia].
Qed.

(** ** The machine: what each piece does to the call frames *)

Section MachineFacts.

Variable strtod : string -> float.


Lemma trace_length (fs : list CallFrame) (t : list string) :
  trace fs = Ok t -> length t = length fs.
Proof.
  revert t. induction fs as [|f fs IH]; simpl; intros t H.
  - injection H as <-. reflexivity.
  - inv_ok. subst t. simpl. f_equal. eauto.
Qed.

Lemma pop_keeps (vm vm' : VM) (v : Value) :
  pop vm = Ok (v, vm') ->
  vm' = with_stackTop (stackTop vm - 1) vm /\
  array_get (stack vm) (stackTop vm - 1) = Ok v.
Proof.
  unfold pop. intros H. inv_ok. subst. simpl in *. auto.
Qed.



Lemma READ_BYTE_Ok (vm vm' : VM) (byte : Z) :
  READ_BYTE vm = Ok (byte, vm') ->
  exists frame rest,
    frames vm = frame :: rest /\
    array_get (code (chunk (function (closure frame)))) (ip frame) = Ok byte /\
    vm' = with_frames (set_ip (ip frame + 1) frame :: rest) vm.
Proof.
  unfold READ_BYTE. destruct (frames vm) as [|frame rest]; [discriminate|].
  intros H. inv_ok. subst. eauto.
Qed.

Lemma captureUpvalue_keeps (local : Z) (vm : VM) (r : addr * VM) :
  captureUpvalue local vm = Ok r ->
  frames (snd r) = frames vm /\ stackTop (snd r) = stackTop vm /\
  stack (snd r) = stack vm /\ err (snd r) = err vm /\
  globals (snd r) = globals vm.
Proof.
  unfold captureUpvalue. intros H. inv_ok; subst; simpl; auto.
Qed.

Lemma closeUpvalues_loop_keeps (fuel : nat) (last : Z) (vm vm' : VM) :
  closeUpvalues_loop fuel last vm = Ok vm' ->
  frames vm' = frames vm /\ stackTop vm' = stackTop vm /\
  stack vm' = stack vm /\ err vm' = err vm /\ globals vm' = globals vm.
Proof.
  revert vm. induction fuel as [|fuel IH]; intros vm; simpl; intros H.
  - inv_ok; subst; auto.
  - destruct (openUpvalues vm) as [p|]; [|inv_ok; subst; auto].
    inv_bind H. destruct (location a) as [slot|]; [|discriminate].
    destruct (last <=? slot); [|inv_ok; subst; auto].
    inv_bind H. apply IH in H. simpl in H. exact H.
Qed.

Lemma closeUpvalues_keeps (last : Z) (vm vm' : VM) :
  closeUpvalues last vm = Ok vm' ->
  frames vm' = frames vm /\ stackTop vm' = stackTop vm /\
  stack vm' = stack vm /\ err vm' = err vm /\ globals vm' = globals vm.
Proof. apply closeUpvalues_loop_keeps. Qed.






Lemma closure_upvalues_depth (n : nat) (vm : VM) (r : list addr * VM) :
  closure_upvalues n vm = Ok r ->
  length (frames (snd r)) = length (frames vm) /\
  stackTop (snd r) = stackTop vm /\ err (snd r) = err vm /\
  stack (snd r) = stack vm.
Proof.
  revert vm r. induction n as [|n IH]; intros vm r; simpl; intros H.
  - injection H as <-. auto.
  - inv_bind H. destruct a as [isLocal vm1].
    inv_bind H. destruct a as [index vm2].
    inv_bind H. inv_bind H. destruct a0 as [p vm3].
    inv_bind H. injection H as <-. simpl.
    apply READ_BYTE_Ok in Ha as (f1 & r1 & Hf1 & _ & ->).
    apply READ_BYTE_Ok in Ha0 as (f2 & r2 & Hf2 & _ & ->).
    apply IH in Ha3 as (-> & -> & -> & ->).
    assert (frames vm3 = frames (with_frames (set_ip (ip f2 + 1) f2 :: r2)
                                   (with_frames (set_ip (ip f1 + 1) f1 :: r1) vm))
            /\ stackTop vm3 = stackTop vm /\ err vm3 = err vm
            /\ stack vm3 = stack vm) as (-> & -> & -> & ->).
    { destruct (negb (isLocal =? 0)).
      - apply captureUpvalue_keeps in Ha2. simpl in Ha2. tauto.
      - inv_ok. subst. auto. }
    simpl in *. rewrite Hf1. injection Hf2 as <- <-. auto.
Qed.

(** *** The call-frame count *)

















(** *** Calls *)



End MachineFacts.

(** ** The open-upvalue list *)

Section UpvalueFacts.

Implicit Types (cs : gmap addr ObjUpvalue) (l : list addr) (zs : list Z).

Lemma same_links_refl cs : same_links cs cs.
Proof. intros p. reflexivity. Qed.

Lemma same_links_trans cs1 cs2 cs3 :
  same_links cs1 cs2 -> same_links cs2 cs3 -> same_links cs1 cs3.
Proof. intros H12 H23 p. rewrite H23. apply H12. Qed.


(** A segment only depends on the links of its own objects. *)
Lemma lseg_ext cs cs' from l to :
  (forall p, p ∈ l -> next <$> cs' !! p = next <$> cs !! p) ->
  lseg cs from l to -> lseg cs' from l to.
Proof.
  revert from. induction l as [|p l IH]; intros from Hext; simpl; [auto|].
  intros (-> & u & Hu & H). split; [reflexivity|].
  pose proof (Hext p ltac:(left)) as Hp. rewrite Hu in Hp.
  destruct (cs' !! p) as [u'|] eqn:Hu'; [|discriminate].
  injection Hp as Hp. exists u'. split; [reflexivity|]. rewrite Hp.
  apply IH; [|exact H]. intros q Hq. apply Hext. right. exact Hq.
Qed.

Lemma open_on_ext cs cs' l zs :
  (forall p, p ∈ l -> open_slot cs' p = open_slot cs p) ->
  open_on cs l zs -> open_on cs' l zs.
Proof.
  unfold open_on. intros Hext H. revert Hext.
  induction H as [|p z l zs Hp H IH]; intros Hext; constructor.
  - rewrite Hext; [exact Hp | left].
  - apply IH. intros q Hq. apply Hext. right. exact Hq.
Qed.



Lemma open_on_elem cs l zs p :
  open_on cs l zs -> p ∈ l -> exists z, z ∈ zs /\ open_slot cs p = Some z.
Proof.
  unfold open_on. intros H. induction H as [|q z l zs Hq H IH]; intros Hp.
  - inversion Hp.
  - apply elem_of_cons in Hp as [-> | Hp].
    + exists z. split; [left | exact Hq].
    + destruct (IH Hp) as (z' & Hz' & Ho). exists z'. split; [right|]; auto.
Qed.

(** Descending slots have no repetition, so neither has the list. *)
Lemma open_on_NoDup cs l zs : open_on cs l zs -> descending zs -> NoDup l.
Proof.
  unfold open_on, descending. intros H. induction H as [|p z l zs Hp H IH];
    intros Hs; constructor.
  - intros Hin. apply StronglySorted_cons in Hs as [Hall _].
    destruct (open_on_elem _ _ _ _ H Hin) as (z' & Hz' & Ho).
    rewrite Forall_forall in Hall. specialize (Hall z' Hz').
    rewrite Hp in Ho. injection Ho as ->. lia.
  - apply IH. apply StronglySorted_cons in Hs as [_ Hs]. exact Hs.
Qed.

Lemma lseg_elem cs from l to p :
  lseg cs from l to -> p ∈ l -> is_Some (cs !! p).
Proof.
  revert from. induction l as [|q l IH]; intros from; simpl.
  - intros _ Hp. inversion Hp.
  - intros (-> & u & Hu & H) Hp. apply elem_of_cons in Hp as [-> | Hp].
    + eauto.
    + eapply IH; eauto.
Qed.

(** The list is no longer than the store has objects. *)
Lemma chain_length cs head l zs :
  chain cs head l -> open_on cs l zs -> descending zs ->
  (length l <= size cs)%nat.
Proof.
  intros Hc Ho Hd. pose proof (open_on_NoDup _ _ _ Ho Hd) as Hnd.
  rewrite <- (size_dom cs).
  rewrite <- (size_list_to_set (C := gset addr) l Hnd).
  apply subseteq_size. intros p Hp. apply elem_of_list_to_set in Hp.
  apply elem_of_dom. eapply lseg_elem; eauto.
Qed.







Lemma chain_head cs from l :
  chain cs from l ->
  match from with
  | None => l = []
  | Some p => exists l' u, l = p :: l' /\ cs !! p = Some u /\ chain cs (next u) l'
  end.
Proof.
  unfold chain. destruct l as [|q l]; simpl.
  - intros ->. reflexivity.
  - intros (-> & u & Hu & H). eauto.
Qed.

(** One more object closed: the rest of the list is as it was. *)
Lemma open_list_close (vm : VM) (p : addr) (u u' : ObjUpvalue) l zs (z : Z) :
  open_list vm (p :: l) (z :: zs) ->
  cells (heap vm) !! p = Some u ->
  open_list
    (with_openUpvalues (next u)
       (with_heap (with_cells (<[p := u']> (cells (heap vm))) (heap vm)) vm))
    l zs.
Proof.
  intros (Hc & Ho & Hd) Hu.
  pose proof (open_on_NoDup _ _ _ Ho Hd) as Hnd.
  apply NoDup_cons in Hnd as [Hp _].
  unfold chain in Hc. simpl in Hc. destruct Hc as (_ & u0 & Hu0 & Hc).
  rewrite Hu in Hu0. injection Hu0 as <-.
  assert (Hsame : forall q, q ∈ l ->
            <[p := u']> (cells (heap vm)) !! q = cells (heap vm) !! q).
  { intros q Hq. apply lookup_insert_ne. intros ->. contradiction. }
  unfold open_list. simpl. split; [|split].
  - eapply lseg_ext; [|exact Hc]. intros q Hq. rewrite Hsame by exact Hq. reflexivity.
  - inversion Ho; subst. eapply open_on_ext; [|eassumption].
    intros q Hq. unfold open_slot. rewrite Hsame by exact Hq. reflexivity.
  - unfold descending in *. apply StronglySorted_cons in Hd. tauto.
Qed.

Lemma closed_upto_stop (last : Z) (vm : VM) l zs :
  open_list vm l zs ->
  match zs with [] => True | z :: _ => z < last end ->
  closed_upto last vm vm l zs.
Proof.
  intros Hl Hz. exists [], l, [], zs.
  split; [reflexivity|]. split; [reflexivity|]. split; [exact Hl|].
  split; [constructor|]. split.
  - destruct zs as [|z zs]; [constructor|].
    destruct Hl as (_ & _ & Hd). unfold descending in Hd.
    apply StronglySorted_cons in Hd as [Hall _].
    constructor; [exact Hz|]. eapply Forall_impl; [exact Hall|].
    simpl. intros y Hy. lia.
  - split; [constructor|]. split; [reflexivity|]. split; [reflexivity|].
    reflexivity.
Qed.

Lemma closeUpvalues_loop_sorted (fuel : nat) (last : Z) :
  forall (vm vm' : VM) l zs,
    open_list vm l zs ->
    closeUpvalues_loop fuel last vm = Ok vm' ->
    closed_upto last vm vm' l zs.
Proof.
  induction fuel as [|fuel IH]; intros vm vm' l zs Hl H;
    pose proof Hl as (Hc & Ho & Hd); apply chain_head in Hc;
    simpl in H; destruct (openUpvalues vm) as [p|] eqn:Hhead;
    try (subst l; inversion Ho; subst; injection H as <-;
         apply closed_upto_stop; [exact Hl | exact I]);
    destruct Hc as (l' & u & -> & Hu & Hc); rewrite Hu in H; simpl in H;
    inversion Ho as [|? z ? zs' Hp Ho']; subst;
    unfold open_slot in Hp; rewrite Hu in Hp;
    destruct (location u) as [s|] eqn:Hloc; try discriminate;
    injection Hp as ->;
    destruct (Z.leb_spec last z) as [Hge | Hlt];
    try discriminate;
    try (injection H as <-; apply closed_upto_stop; [exact Hl | exact Hlt]).
  inv_bind H.
  pose proof (open_list_close vm p u
                {| location := ClosedField; closed := a; next := next u |}
                l' zs' z Hl Hu) as Hl1.
  destruct (IH _ _ _ _ Hl1 H)
    as (l1 & l2 & zs1 & zs2 & -> & -> & Hl2 & Hhi & Hlo & Hcl & Hfr & Hdom & Hal).
  simpl in Hfr, Hdom, Hal.
  pose proof (open_on_NoDup _ _ _ Ho Hd) as Hnd.
  apply NoDup_cons in Hnd as [Hp _].
  assert (Hp1 : p ∉ l1).
  { intros Hin. apply Hp. apply elem_of_app. left. exact Hin. }
  exists (p :: l1), l2, (z :: zs1), zs2.
  split; [reflexivity|]. split; [reflexivity|]. split; [exact Hl2|].
  split; [constructor; assumption|]. split; [exact Hlo|].
  split; [|split; [|split]].
  - constructor; [|exact Hcl].
    rewrite (Hfr p Hp1), lookup_insert_eq. eauto.
  - intros q Hq. apply not_elem_of_cons in Hq as [Hqp Hq].
    rewrite (Hfr q Hq). apply lookup_insert_ne. congruence.
  - intros q. rewrite Hdom, lookup_insert_is_Some.
    split.
    + intros [<- | [_ Hq]]; [eauto | exact Hq].
    + intros Hq. destruct (decide (p = q)); [left | right]; auto.
  - exact Hal.
Qed.


End UpvalueFacts.

Section UpvalueSteps.
Variable strtod : string -> float.
Implicit Types (cs : gmap addr ObjUpvalue) (l : list addr) (zs : list Z).




























End UpvalueSteps.


(** ** The compiler *)

Section CompilerFacts.
Variable strtod : string -> float.

Lemma later_refl (c : Compiler) : later c c.
Proof.
  split; [lia|]. split; [exists []; rewrite app_nil_r; reflexivity | auto].
Qed.

Lemma later_trans (c1 c2 c3 : Compiler) :
  later c1 c2 -> later c2 c3 -> later c1 c3.
Proof.
  intros (H1 & (b1 & E1) & F1) (H2 & (b2 & E2) & F2).
  split; [lia|]. split; [|auto].
  exists (b1 ++ b2). rewrite E2, E1, app_assoc. reflexivity.
Qed.

Lemma errorAt_later (token : Token) (message : string) (c : Compiler) :
  later c (errorAt token message c) /\
  scanner (errorAt token message c) = scanner c /\
  current (parser (errorAt token message c)) = current (parser c) /\
  previous (parser (errorAt token message c)) = previous (parser c).
Proof.
  unfold errorAt. destruct (panicMode (parser c)).
  - split; [apply later_refl | auto].
  - split; [|auto]. split; [unfold tokens_left; simpl; lia|].
    split; [exists []; simpl; rewrite app_nil_r; reflexivity|].
    unfold errors_flagged. simpl. intros _. split; [|reflexivity].
    intros _ H. apply app_eq_nil in H as [_ H]. discriminate.
Qed.

Lemma advance_loop_later (s : Scanner) (c : Compiler) :
  (tokens_left (advance_loop s c) <= length s)%nat /\
  compilingChunk (advance_loop s c) = compilingChunk c /\
  previous (parser (advance_loop s c)) = previous (parser c) /\
  (errors_flagged c -> errors_flagged (advance_loop s c)).
Proof.
  revert c. induction s as [|t rest IH]; intros c; simpl.
  - split; [reflexivity|]. split; [reflexivity|]. split; [reflexivity|].
    unfold errors_flagged. simpl. auto.
  - destruct (type_eqb (tk_type t) TOKEN_ERROR) eqn:Et.
    + destruct (IH (errorAtCurrent (tk_start t) (set_current t c)))
        as (Hm & Hk & Hp & Hf).
      destruct (errorAt_later (current (parser (set_current t c))) (tk_start t)
                  (set_current t c)) as ((_ & _ & Hf') & _ & _ & Hp').
      unfold errorAtCurrent in *.
      split; [lia|]. split; [rewrite Hk; unfold errorAt;
        destruct (panicMode (parser (set_current t c))); reflexivity|].
      split; [rewrite Hp, Hp'; reflexivity|].
      intros Hc. apply Hf, Hf'. exact Hc.
    + unfold tokens_left, weight. simpl. split; [|auto].
      destruct (type_eqb (tk_type t) TOKEN_EOF); lia.
Qed.

Lemma advance_later (c : Compiler) :
  later c (advance c) /\
  previous (parser (advance c)) = current (parser c) /\
  (type_eqb (tk_type (current (parser c))) TOKEN_EOF = false ->
   (tokens_left (advance c) < tokens_left c)%nat).
Proof.
  unfold advance.
  set (c0 := with_parser _ c).
  destruct (advance_loop_later (scanner c0) c0) as (Hm & Hk & Hp & Hf).
  unfold later, tokens_left, weight in *. simpl in *. split; [|split].
  - split; [destruct (type_eqb (tk_type (current (parser c))) TOKEN_EOF); lia|].
    split; [exists []; rewrite Hk, app_nil_r; reflexivity|].
    intros Hc. apply Hf. exact Hc.
  - exact Hp.
  - intros ->. lia.
Qed.

Lemma same_tokens_left (c c' : Compiler) :
  same_tokens c c' -> tokens_left c' = tokens_left c.
Proof. intros [Hs Hc]. unfold tokens_left. rewrite Hs, Hc. reflexivity. Qed.

Lemma error_later (message : string) (c : Compiler) :
  later c (error message c) /\ same_tokens c (error message c).
Proof.
  unfold error, same_tokens.
  destruct (errorAt_later (previous (parser c)) message c) as (? & ? & ? & ?).
  auto.
Qed.

Lemma errorAtCurrent_later (message : string) (c : Compiler) :
  later c (errorAtCurrent message c) /\
  same_tokens c (errorAtCurrent message c).
Proof.
  unfold errorAtCurrent, same_tokens.
  destruct (errorAt_later (current (parser c)) message c) as (? & ? & ? & ?).
  auto.
Qed.

Lemma consume_later (type : TokenType) (message : string) (c : Compiler) :
  later c (consume type message c).
Proof.
  unfold consume. destruct (type_eqb _ type).
  - apply advance_later.
  - apply errorAtCurrent_later.
Qed.

Lemma emitByte_later (byte : Z) (c : Compiler) :
  later c (emitByte byte c) /\ same_tokens c (emitByte byte c) /\
  code (compilingChunk (emitByte byte c)) = code (compilingChunk c) ++ [byte].
Proof.
  unfold emitByte, later, same_tokens, tokens_left, errors_flagged. simpl.
  repeat split; eauto; tauto.
Qed.

Lemma emitBytes_later (byte1 byte2 : Z) (c : Compiler) :
  later c (emitBytes byte1 byte2 c) /\
  same_tokens c (emitBytes byte1 byte2 c) /\
  code (compilingChunk (emitBytes byte1 byte2 c))
    = code (compilingChunk c) ++ [byte1; byte2].
Proof.
  unfold emitBytes, emitByte, later, same_tokens, tokens_left, errors_flagged.
  simpl. rewrite <- app_assoc. simpl. repeat split; eauto; tauto.
Qed.

Lemma makeConstant_later (value : Value) (c : Compiler) :
  later c (snd (makeConstant value c)) /\
  same_tokens c (snd (makeConstant value c)) /\
  code (compilingChunk (snd (makeConstant value c))) = code (compilingChunk c).
Proof.
  unfold makeConstant. simpl.
  set (c1 := with_chunk _ c).
  assert (H1 : later c c1 /\ same_tokens c c1 /\
               code (compilingChunk c1) = code (compilingChunk c)).
  { unfold c1, later, same_tokens, tokens_left, errors_flagged. simpl.
    repeat split; auto; try tauto. exists []. rewrite app_nil_r. reflexivity. }
  destruct (UINT8_MAX <? _); simpl; [|exact H1].
  destruct H1 as (Hl & (Hs & Hc) & Hk).
  destruct (error_later "Too many constants in one chunk." c1)
    as (Hl' & Hs' & Hc').
  split; [exact (later_trans _ _ _ Hl Hl')|]. split; [split; congruence|].
  rewrite <- Hk. unfold error, errorAt.
  destruct (panicMode (parser c1)); reflexivity.
Qed.

Lemma intern_later (chars : string) (c : Compiler) :
  later c (snd (intern chars c)) /\ same_tokens c (snd (intern chars c)) /\
  compilingChunk (snd (intern chars c)) = compilingChunk c.
Proof.
  unfold intern. destruct (copyString chars (c_heap c)) as [s h]. simpl.
  unfold later, same_tokens, tokens_left, errors_flagged. simpl.
  repeat split; auto; try tauto. exists []. rewrite app_nil_r. reflexivity.
Qed.

Lemma emits_trans (b1 b2 : list Z) (c1 c2 c3 : Compiler) :
  emits b1 c1 c2 -> emits b2 c2 c3 -> emits (b1 ++ b2) c1 c3.
Proof.
  intros (Hl1 & (Hs1 & Hc1) & Hk1) (Hl2 & (Hs2 & Hc2) & Hk2).
  split; [exact (later_trans _ _ _ Hl1 Hl2)|]. split; [split; congruence|].
  rewrite Hk2, Hk1, app_assoc. reflexivity.
Qed.

Lemma emits_nil (c c' : Compiler) :
  later c c' -> same_tokens c c' ->
  code (compilingChunk c') = code (compilingChunk c) -> emits [] c c'.
Proof. intros Hl Hs Hk. split; [|split]; auto. rewrite app_nil_r. exact Hk. Qed.

Lemma identifierConstant_emits (name : Token) (c : Compiler) :
  emits [] c (snd (identifierConstant name c)).
Proof.
  unfold identifierConstant.
  destruct (intern_later (lexeme name) c) as (Hl & Hs & Hk).
  destruct (intern (lexeme name) c) as [s c1]. simpl in *.
  destruct (makeConstant_later (OBJ_VAL (OBJ_STRING s)) c1) as (Hl' & Hs' & Hk').
  change (emits ([] ++ []) c (snd (makeConstant (OBJ_VAL (OBJ_STRING s)) c1))).
  eapply emits_trans; apply emits_nil; eauto. rewrite Hk. reflexivity.
Qed.

Lemma emitConstant_emits (value : Value) (c : Compiler) :
  emits [op OP_CONSTANT; fst (makeConstant value c)] c (emitConstant value c).
Proof.
  unfold emitConstant.
  destruct (makeConstant_later value c) as (Hl & Hs & Hk).
  destruct (makeConstant value c) as [constant c1]. simpl in *.
  change (emits ([] ++ [op OP_CONSTANT; constant]) c
            (emitBytes (op OP_CONSTANT) constant c1)).
  eapply emits_trans; [apply emits_nil; eauto|].
  apply emitBytes_later.
Qed.

Lemma namedVariable_emits (name : Token) (c : Compiler) :
  emits [op OP_GET_GLOBAL; fst (identifierConstant name c)] c
    (namedVariable name c).
Proof.
  unfold namedVariable.
  pose proof (identifierConstant_emits name c) as H.
  destruct (identifierConstant name c) as [arg c1]. simpl in *.
  change (emits ([] ++ [op OP_GET_GLOBAL; arg]) c
            (emitBytes (op OP_GET_GLOBAL) arg c1)).
  eapply emits_trans; [exact H|]. apply emitBytes_later.
Qed.

Lemma emits_later (body : list Z) (c c' : Compiler) :
  emits body c c' -> later c c'.
Proof. intros (H & _). exact H. Qed.

Lemma literal_later (c : Compiler) : later c (literal c).
Proof.
  unfold literal. destruct (tk_type (previous (parser c)));
    first [apply later_refl | apply emitByte_later].
Qed.

Lemma number_later (c : Compiler) : later c (number strtod c).
Proof. eapply emits_later. apply emitConstant_emits. Qed.

Lemma string_later (c : Compiler) : later c (string_ c).
Proof.
  unfold string_.
  set (t := previous (parser c)).
  destruct (intern_later (substring 1 (tk_length t - 2) (tk_start t)) c)
    as (Hl & _).
  destruct (intern _ c) as [s c1]. simpl in *.
  eapply later_trans; [exact Hl|]. eapply emits_later. apply emitConstant_emits.
Qed.

Lemma variable_later (c : Compiler) : later c (variable c).
Proof. eapply emits_later. apply namedVariable_emits. Qed.

Lemma rule_infix (t : TokenType) :
  1 <= precedence (getRule t) ->
  infix (getRule t) = Some fn_binary /\ type_eqb t TOKEN_EOF = false.
Proof.
  destruct t; simpl; unfold PREC_NONE; intros H; try lia; auto.
Qed.

Lemma rule_prefix (t : TokenType) (fn : ParseFn) :
  prefix (getRule t) = Some fn -> type_eqb t TOKEN_EOF = false.
Proof. destruct t; simpl; intros H; try discriminate; reflexivity. Qed.

Lemma rule_precedence (t : TokenType) : 0 <= precedence (getRule t).
Proof.
  destruct t; simpl;
    unfold PREC_NONE, PREC_TERM, PREC_FACTOR, PREC_EQUALITY, PREC_COMPARISON;
    lia.
Qed.

Lemma later_left (c c' : Compiler) :
  later c c' -> (tokens_left c' <= tokens_left c)%nat.
Proof. intros (H & _). exact H. Qed.

Lemma binary_emit_later (operatorType : TokenType) (c : Compiler) :
  later c
    match operatorType with
    | TOKEN_BANG_EQUAL => emitBytes (op OP_EQUAL) (op OP_NOT) c
    | TOKEN_EQUAL_EQUAL => emitByte (op OP_EQUAL) c
    | TOKEN_GREATER => emitByte (op OP_GREATER) c
    | TOKEN_GREATER_EQUAL => emitBytes (op OP_LESS) (op OP_NOT) c
    | TOKEN_LESS => emitByte (op OP_LESS) c
    | TOKEN_LESS_EQUAL => emitBytes (op OP_GREATER) (op OP_NOT) c
    | TOKEN_PLUS => emitByte (op OP_ADD) c
    | TOKEN_MINUS => emitByte (op OP_SUBTRACT) c
    | TOKEN_STAR => emitByte (op OP_MULTIPLY) c
    | TOKEN_SLASH => emitByte (op OP_DIVIDE) c
    | _ => c
    end.
Proof.
  destruct operatorType;
    first [apply later_refl | apply emitByte_later | apply emitBytes_later].
Qed.

Lemma call_rule_later (pp : Z -> Compiler -> Res Compiler) (bound : nat)
    (fn : ParseFn) (c : Compiler) :
  parses pp bound -> (tokens_left c < bound)%nat ->
  exists c', call_rule strtod pp fn c = Ok c' /\ later c c'.
Proof.
  intros Hpp Hb. destruct fn; simpl.
  - unfold grouping, expression.
    destruct (Hpp PREC_ASSIGNMENT c ltac:(unfold PREC_ASSIGNMENT; lia) Hb)
      as (c1 & -> & Hl & _).
    simpl. eexists. split; [reflexivity|].
    eapply later_trans; [exact Hl|]. apply consume_later.
  - unfold unary.
    destruct (Hpp PREC_UNARY c ltac:(unfold PREC_UNARY; lia) Hb)
      as (c1 & -> & Hl & _).
    simpl. eexists. split; [reflexivity|].
    eapply later_trans; [exact Hl|].
    destruct (tk_type (previous (parser c)));
      first [apply later_refl | apply emitByte_later].
  - unfold binary.
    pose proof (rule_precedence (tk_type (previous (parser c)))) as Hp.
    destruct (Hpp (precedence (getRule (tk_type (previous (parser c)))) + 1) c
                ltac:(lia) Hb) as (c1 & -> & Hl & _).
    simpl. eexists. split; [reflexivity|].
    eapply later_trans; [exact Hl|]. apply binary_emit_later.
  - eexists. split; [reflexivity|]. apply literal_later.
  - eexists. split; [reflexivity|]. apply variable_later.
  - eexists. split; [reflexivity|]. apply string_later.
  - eexists. split; [reflexivity|]. apply number_later.
Qed.

Lemma weight_eof (t : Token) :
  type_eqb (tk_type t) TOKEN_EOF = false -> weight t = 1%nat.
Proof. unfold weight. intros ->. reflexivity. Qed.

Lemma parse_infix_later (pp : Z -> Compiler -> Res Compiler) (bound : nat) :
  parses pp bound ->
  forall (n : nat) (prec : Z) (c : Compiler),
    1 <= prec -> (tokens_left c <= n)%nat -> (tokens_left c <= bound)%nat ->
    exists c', parse_infix strtod n pp prec c = Ok c' /\ later c c'.
Proof.
  intros Hpp. induction n as [|n IH]; intros prec c Hprec Hn Hb.
  - simpl. destruct (Z.leb_spec prec
                       (precedence (getRule (tk_type (current (parser c)))))).
    + destruct (rule_infix (tk_type (current (parser c))) ltac:(lia)) as (_ & He).
      apply weight_eof in He. unfold tokens_left in Hn. lia.
    + eexists. split; [reflexivity | apply later_refl].
  - simpl. destruct (Z.leb_spec prec
                       (precedence (getRule (tk_type (current (parser c)))))).
    + destruct (rule_infix (tk_type (current (parser c))) ltac:(lia)) as (Hi & He).
      destruct (advance_later c) as (Hl & Hprev & Hstrict).
      specialize (Hstrict He).
      rewrite Hprev, Hi.
      destruct (call_rule_later pp bound fn_binary (advance c) Hpp ltac:(lia))
        as (c1 & -> & Hl1).
      simpl.
      pose proof (later_left _ _ Hl1).
      destruct (IH prec c1 Hprec ltac:(lia) ltac:(lia)) as (c2 & -> & Hl2).
      eexists. split; [reflexivity|].
      eapply later_trans; [exact Hl|]. eapply later_trans; eassumption.
    + eexists. split; [reflexivity | apply later_refl].
Qed.

Lemma parsePrecedence_parses (fuel : nat) :
  parses (parsePrecedence strtod fuel) fuel.
Proof.
  induction fuel as [|fuel IH]; intros prec c Hprec Hb; [lia|].
  simpl.
  destruct (advance_later c) as (Hl & Hprev & Hstrict).
  rewrite Hprev.
  destruct (prefix (getRule (tk_type (current (parser c))))) as [fn|] eqn:Hfn.
  - apply rule_prefix in Hfn. specialize (Hstrict Hfn).
    destruct (call_rule_later _ fuel fn (advance c) IH ltac:(lia))
      as (c1 & -> & Hl1).
    simpl. pose proof (later_left _ _ Hl1).
    destruct (parse_infix_later _ fuel IH fuel prec c1 Hprec ltac:(lia) ltac:(lia))
      as (c2 & -> & Hl2).
    pose proof (later_left _ _ Hl2).
    eexists. split; [reflexivity|]. split; [|lia].
    eapply later_trans; [exact Hl|]. eapply later_trans; eassumption.
  - destruct (error_later "Expect expression." (advance c)) as (Hl1 & Hs1).
    eexists. split; [reflexivity|]. split.
    + eapply later_trans; eassumption.
    + intros Hw. rewrite (same_tokens_left _ _ Hs1). apply Hstrict.
      unfold weight in Hw. destruct (type_eqb _ TOKEN_EOF); [discriminate | reflexivity].
Qed.

Lemma match_later (type : TokenType) (c : Compiler) :
  later c (snd (match_ type c)) /\
  (fst (match_ type c) = false ->
   snd (match_ type c) = c /\
   type_eqb (tk_type (current (parser c))) type = false) /\
  (fst (match_ type c) = true -> type_eqb type TOKEN_EOF = false ->
   (tokens_left (snd (match_ type c)) < tokens_left c)%nat).
Proof.
  unfold match_, check.
  destruct (type_eqb (tk_type (current (parser c))) type) eqn:E; simpl.
  - destruct (advance_later c) as (Hl & _ & Hstrict).
    split; [exact Hl|]. split; [discriminate|]. intros _ Ht. apply Hstrict.
    unfold type_eqb in *. apply Z.eqb_eq in E. rewrite E. exact Ht.
  - split; [apply later_refl|]. split; [auto | discriminate].
Qed.

Lemma expression_later (fuel : nat) (c : Compiler) :
  (tokens_left c < fuel)%nat ->
  exists c',
    expression (parsePrecedence strtod fuel) c = Ok c' /\ later c c' /\
    (weight (current (parser c)) = 1%nat ->
     (tokens_left c' < tokens_left c)%nat).
Proof.
  intros Hb. unfold expression.
  apply parsePrecedence_parses; [unfold PREC_ASSIGNMENT; lia | exact Hb].
Qed.

Lemma varDecleration_later (fuel : nat) (c : Compiler) :
  (tokens_left c < fuel)%nat ->
  exists c', varDecleration strtod fuel c = Ok c' /\ later c c'.
Proof.
  intros Hb. unfold varDecleration, parseVariable.
  pose proof (consume_later TOKEN_IDENTIFIER "Expect variable name." c) as Hl1.
  set (c1 := consume _ _ c) in *.
  pose proof (emits_later _ _ _ (identifierConstant_emits (previous (parser c1)) c1))
    as Hl2.
  destruct (identifierConstant (previous (parser c1)) c1) as [global c2].
  simpl in Hl2.
  destruct (match_later TOKEN_EQUAL c2) as (Hl3 & _).
  destruct (match_ TOKEN_EQUAL c2) as [m c3]. simpl in Hl3.
  pose proof (later_left _ _ Hl1). pose proof (later_left _ _ Hl2).
  pose proof (later_left _ _ Hl3).
  assert (Hc3 : later c c3).
  { eapply later_trans; [exact Hl1|]. eapply later_trans; eassumption. }
  assert (H4 : exists c4,
             (if m then expression (parsePrecedence strtod fuel) c3
              else Ok (emitByte (op OP_NIL) c3)) = Ok c4 /\ later c3 c4).
  { destruct m.
    - destruct (expression_later fuel c3 ltac:(lia)) as (c4 & E & Hl4 & _). eauto.
    - eexists. split; [reflexivity | apply emitByte_later]. }
  destruct H4 as (c4 & -> & Hl4). simpl.
  eexists. split; [reflexivity|].
  eapply later_trans; [exact Hc3|]. eapply later_trans; [exact Hl4|].
  eapply later_trans; [apply consume_later|]. apply emitBytes_later.
Qed.

Lemma expressionStatement_later (fuel : nat) (c : Compiler) :
  (tokens_left c < fuel)%nat ->
  exists c',
    expressionStatement strtod fuel c = Ok c' /\ later c c' /\
    (weight (current (parser c)) = 1%nat ->
     (tokens_left c' < tokens_left c)%nat).
Proof.
  intros Hb. unfold expressionStatement.
  destruct (expression_later fuel c Hb) as (c1 & -> & Hl1 & Hs). cbn [Res_bind].
  assert (Hl2 : later c1 (emitByte (op OP_POP)
                  (consume TOKEN_SEMICOLON "Expect ';' after expression." c1))).
  { eapply later_trans; [apply consume_later | apply emitByte_later]. }
  eexists. split; [reflexivity|]. split.
  - eapply later_trans; eassumption.
  - intros Hw. specialize (Hs Hw). pose proof (later_left _ _ Hl2). lia.
Qed.

Lemma printStatement_later (fuel : nat) (c : Compiler) :
  (tokens_left c < fuel)%nat ->
  exists c', printStatement strtod fuel c = Ok c' /\ later c c'.
Proof.
  intros Hb. unfold printStatement.
  destruct (expression_later fuel c Hb) as (c1 & -> & Hl1 & _). cbn [Res_bind].
  eexists. split; [reflexivity|].
  eapply later_trans; [exact Hl1|].
  eapply later_trans; [apply consume_later | apply emitByte_later].
Qed.

Lemma statement_later (fuel : nat) (c : Compiler) :
  (tokens_left c < fuel)%nat ->
  exists c',
    statement strtod fuel c = Ok c' /\ later c c' /\
    (weight (current (parser c)) = 1%nat ->
     (tokens_left c' < tokens_left c)%nat).
Proof.
  intros Hb. unfold statement.
  destruct (match_later TOKEN_PRINT c) as (Hl & Hf & Ht).
  destruct (match_ TOKEN_PRINT c) as [[|] c1]; simpl in *.
  - specialize (Ht eq_refl eq_refl).
    destruct (printStatement_later fuel c1 ltac:(lia)) as (c2 & -> & Hl2).
    pose proof (later_left _ _ Hl2).
    eexists. split; [reflexivity|]. split; [|lia].
    eapply later_trans; eassumption.
  - destruct (Hf eq_refl) as (-> & _).
    apply expressionStatement_later. exact Hb.
Qed.

Lemma synchronize_loop_later (n : nat) (c : Compiler) :
  (tokens_left c <= n)%nat ->
  exists c', synchronize_loop n c = Ok c' /\ later c c'.
Proof.
  revert c. induction n as [|n IH]; intros c Hn; simpl;
    destruct (type_eqb (tk_type (current (parser c))) TOKEN_EOF) eqn:He;
    try (eexists; split; [reflexivity | apply later_refl]);
    destruct (type_eqb (tk_type (previous (parser c))) TOKEN_SEMICOLON);
    try (eexists; split; [reflexivity | apply later_refl]).
  - apply weight_eof in He. unfold tokens_left in Hn. lia.
  - destruct (advance_later c) as (Hl & _ & Hstrict). specialize (Hstrict He).
    destruct (IH (advance c) ltac:(lia)) as (c' & E & Hl').
    destruct (tk_type (current (parser c)));
      try (eexists; split; [reflexivity | apply later_refl]);
      (exists c'; split; [exact E | eapply later_trans; eassumption]).
Qed.

Lemma synchronize_later (c : Compiler) :
  exists c', synchronize c = Ok c' /\ later c c'.
Proof.
  unfold synchronize.
  assert (Hl : later c (clear_panic c)).
  { unfold clear_panic, later, tokens_left, errors_flagged. simpl.
    split; [lia|]. split; [exists []; rewrite app_nil_r; reflexivity | tauto]. }
  destruct (synchronize_loop_later (S (length (scanner (clear_panic c))))
              (clear_panic c)) as (c' & E & Hl').
  { unfold tokens_left, weight. destruct (type_eqb _ _); lia. }
  exists c'. split; [exact E | exact (later_trans _ _ _ Hl Hl')].
Qed.

Lemma decleration_later (fuel : nat) (c : Compiler) :
  (tokens_left c < fuel)%nat ->
  exists c',
    decleration strtod fuel c = Ok c' /\ later c c' /\
    (weight (current (parser c)) = 1%nat ->
     (tokens_left c' < tokens_left c)%nat).
Proof.
  intros Hb. unfold decleration.
  destruct (match_later TOKEN_VAR c) as (Hl & Hf & Ht).
  assert (H1 : exists c1,
             (let (m, c0) := match_ TOKEN_VAR c in
              if m then varDecleration strtod fuel c0
              else statement strtod fuel c0) = Ok c1 /\
             later c c1 /\
             (weight (current (parser c)) = 1%nat ->
              (tokens_left c1 < tokens_left c)%nat)).
  { destruct (match_ TOKEN_VAR c) as [[|] c0]; simpl in *.
    - specialize (Ht eq_refl eq_refl).
      destruct (varDecleration_later fuel c0 ltac:(lia)) as (c1 & E & Hl1).
      pose proof (later_left _ _ Hl1).
      exists c1. split; [exact E|]. split; [|lia].
      eapply later_trans; eassumption.
    - destruct (Hf eq_refl) as (-> & _). apply statement_later. exact Hb. }
  destruct H1 as (c1 & E & Hl1 & Hs).
  destruct (match_ TOKEN_VAR c) as [m c0]. rewrite E. simpl.
  destruct (panicMode (parser c1)).
  - destruct (synchronize_later c1) as (c2 & -> & Hl2).
    pose proof (later_left _ _ Hl2).
    eexists. split; [reflexivity|]. split.
    + eapply later_trans; eassumption.
    + intros Hw. specialize (Hs Hw). lia.
  - eexists. split; [reflexivity|]. split; assumption.
Qed.

Lemma compile_loop_later (fuel : nat) :
  forall c : Compiler,
    (tokens_left c + 2 <= fuel)%nat ->
    exists c', compile_loop strtod fuel c = Ok c' /\ later c c'.
Proof.
  induction fuel as [|fuel IH]; intros c Hb; [lia|].
  simpl.
  destruct (match_later TOKEN_EOF c) as (Hl & Hf & _).
  destruct (match_ TOKEN_EOF c) as [[|] c0]; simpl in *.
  - eexists. split; [reflexivity | exact Hl].
  - destruct (Hf eq_refl) as (-> & He).
    destruct (decleration_later fuel c ltac:(lia)) as (c1 & -> & Hl1 & Hs).
    specialize (Hs (weight_eof _ He)). simpl.
    destruct (IH c1 ltac:(lia)) as (c2 & -> & Hl2).
    eexists. split; [reflexivity|]. eapply later_trans; eassumption.
Qed.


End CompilerFacts.

(** ** What the compiler emits *)

Section CompilerClaims.
Variable strtod : string -> float.

(** [error] reports; it writes no byte and takes no token. *)
Lemma error_chunk (message : string) (c : Compiler) :
  compilingChunk (error message c) = compilingChunk c /\
  scanner (error message c) = scanner c /\
  current (parser (error message c)) = current (parser c) /\
  previous (parser (error message c)) = previous (parser c).
Proof.
  unfold error, errorAt. destruct (panicMode (parser c)); simpl; auto.
Qed.

(** What [variable] does, whatever follows the identifier. *)
Lemma variable_effect (c : Compiler) :
  code (compilingChunk (variable c)) =
    code (compilingChunk c) ++
    [op OP_GET_GLOBAL;
     if UINT8_MAX <? Z.of_nat (length (constants (compilingChunk c))) then 0
     else Z.of_nat (length (constants (compilingChunk c)))] /\
  constants (compilingChunk (variable c)) =
    constants (compilingChunk c) ++
    [OBJ_VAL (OBJ_STRING
       (fst (copyString (lexeme (previous (parser c))) (c_heap c))))] /\
  scanner (variable c) = scanner c /\
  current (parser (variable c)) = current (parser c).
Proof.
  unfold variable, namedVariable, identifierConstant, intern, makeConstant,
    addConstant.
  cbn [fst snd compilingChunk constants with_chunk].
  destruct (UINT8_MAX <? Z.of_nat (length (constants (compilingChunk c)))).
  - match goal with |- context [error ?m ?x] =>
      pose proof (error_chunk m x) as H; set (e := error m x) in * end.
    destruct H as (Hk & Hs & Hc & Hp).
    unfold emitBytes, emitByte, with_chunk, writeChunk. simpl.
    rewrite Hk, Hs, Hc. simpl. rewrite <- app_assoc. auto.
  - unfold emitBytes, emitByte, with_chunk, writeChunk. simpl.
    rewrite <- app_assoc. auto.
Qed.

(** [advance] over a token that is not an error token. *)
Lemma advance_token (c : Compiler) (t : Token) (rest : list Token) :
  scanner c = t :: rest -> tk_type t <> TOKEN_ERROR ->
  previous (parser (advance c)) = current (parser c) /\
  current (parser (advance c)) = t /\
  scanner (advance c) = rest /\
  compilingChunk (advance c) = compilingChunk c /\
  c_heap (advance c) = c_heap c.
Proof.
  intros Hs Ht. unfold advance. simpl. rewrite Hs. simpl.
  destruct (type_eqb (tk_type t) TOKEN_ERROR) eqn:E.
  - exfalso. apply Ht. destruct (tk_type t); try discriminate E. reflexivity.
  - simpl. auto.
Qed.

(** C2 (amended): this compiler has no locals, no upvalues and no
    assignment.  For every identifier expression, [variable] adds the name to
    the constants of the chunk and emits OP_GET_GLOBAL with the index of that
    constant (0 past the 256th constant, where an error is reported), and it
    takes no token.  When the identifier is followed by '=', at any
    precedence from PREC_ASSIGNMENT up, [parsePrecedence] compiles the
    identifier as that read and returns with the '=' as the current token:
    no right-hand side is compiled and no SET opcode is emitted. *)
Theorem variable_emits_OP_GET_GLOBAL (c : Compiler) :
  (code (compilingChunk (variable c)) =
     code (compilingChunk c) ++
     [op OP_GET_GLOBAL;
      if UINT8_MAX <? Z.of_nat (length (constants (compilingChunk c))) then 0
      else Z.of_nat (length (constants (compilingChunk c)))] /\
   constants (compilingChunk (variable c)) =
     constants (compilingChunk c) ++
     [OBJ_VAL (OBJ_STRING
        (fst (copyString (lexeme (previous (parser c))) (c_heap c))))] /\
   scanner (variable c) = scanner c /\
   current (parser (variable c)) = current (parser c)) /\
  (forall (fuel : nat) (prec : Z) (equal : Token) (rest : list Token),
     tk_type (current (parser c)) = TOKEN_IDENTIFIER ->
     scanner c = equal :: rest -> tk_type equal = TOKEN_EQUAL ->
     1 <= prec ->
     parsePrecedence strtod (S fuel) prec c = Ok (variable (advance c)) /\
     previous (parser (advance c)) = current (parser c) /\
     current (parser (variable (advance c))) = equal /\
     scanner (variable (advance c)) = rest).
Proof.
  split; [apply variable_effect|].
  intros fuel prec equal rest Hid Hs He Hp.
  destruct (advance_token c equal rest Hs) as (Hprev & Hcur & Hrest & _).
  { rewrite He. discriminate. }
  destruct (variable_effect (advance c)) as (_ & _ & Hvs & Hvc).
  split; [|rewrite Hvs, Hvc; auto].
  cbn [parsePrecedence]. rewrite Hprev, Hid. cbn [getRule prefix call_rule Res_bind].
  destruct fuel; cbn [parse_infix]; rewrite Hvc, Hcur, He; cbn [getRule precedence];
    unfold PREC_NONE; destruct (prec <=? 0) eqn:E; try reflexivity; lia.
Qed.

(** [binary] parses its right operand one level above the operator's own and
    then emits the opcodes of [binary_opcodes]. *)
Lemma binary_by_table (pp : Z -> Compiler -> Res Compiler) (c : Compiler) :
  binary pp c =
    (c' <- pp (precedence (getRule (tk_type (previous (parser c)))) + 1) c ;;
     Ok (emitAll (map op (binary_opcodes (tk_type (previous (parser c))))) c')).
Proof.
  unfold binary.
  destruct (tk_type (previous (parser c))); reflexivity.
Qed.

(** C9: for every binary operator [o1], [binary] parses the right operand at
    the precedence of [o1] plus one and then emits the opcodes of the
    operator: OP_EQUAL OP_NOT for !=, OP_GREATER OP_NOT for <=, OP_LESS OP_NOT
    for >=, and one opcode for the others.  So for identifiers a, b, c and
    binary operators [o1], [o2], the statement [a o1 b o2 c ;] compiles to
    the code of [(a o1 b) o2 c] when [o2] does not bind tighter than [o1], in
    particular when their precedences are equal, and to the code of
    [a o1 (b o2 c)] when it does. *)
Theorem binary_left_associative (a o1 b o2 c semi : Token) (h : Heap) :
  tk_type a = TOKEN_IDENTIFIER -> tk_type b = TOKEN_IDENTIFIER ->
  tk_type c = TOKEN_IDENTIFIER -> tk_type semi = TOKEN_SEMICOLON ->
  is_binary_operator (tk_type o1) = true ->
  is_binary_operator (tk_type o2) = true ->
  (forall pp c0,
     tk_type (previous (parser c0)) = tk_type o1 ->
     binary pp c0 =
       (c' <- pp (precedence (getRule (tk_type o1)) + 1) c0 ;;
        Ok (emitAll (map op (binary_opcodes (tk_type o1))) c'))) /\
  exists cst,
    compile strtod [a; o1; b; o2; c; semi] empty_chunk h = Ok (true, cst) /\
    code (compilingChunk cst) =
      [op OP_GET_GLOBAL; 0; op OP_GET_GLOBAL; 1] ++
      (if precedence (getRule (tk_type o2)) <=? precedence (getRule (tk_type o1))
       then map op (binary_opcodes (tk_type o1)) ++ [op OP_GET_GLOBAL; 2] ++
            map op (binary_opcodes (tk_type o2))
       else [op OP_GET_GLOBAL; 2] ++ map op (binary_opcodes (tk_type o2)) ++
            map op (binary_opcodes (tk_type o1))) ++
      [op OP_POP; op OP_RETURN].
Proof.
  intros Ha Hb Hc Hsemi H1 H2. split.
  { intros pp c0 H0. rewrite binary_by_table, H0. reflexivity. }
  destruct a as [ta sa na la], b as [tb sb nb lb], c as [tc sc nc lc],
    semi as [ts ss ns ls], o1 as [t1 s1 n1 l1], o2 as [t2 s2 n2 l2].
  simpl in *. subst ta tb tc ts.
  destruct t1; try discriminate H1; destruct t2; try discriminate H2;
    clear H1 H2; unfold compile, compile_with; cbv -[copyString];
    eexists; split; reflexivity.
Qed.
End CompilerClaims.


(** * Runs of example programs *)

Section ExampleSteps.
Variable strtod : string -> float.

(** [interpret] is its set-up followed by [run]. *)
Lemma interpret_setup_run (function : ObjFunction) (fuel : nat) (vm : VM) :
  interpret strtod (Some function) fuel vm =
    (vm' <- interpret_setup function vm ;; run strtod fuel vm').
Proof.
  unfold interpret, interpret_setup.
  destruct (newClosure_addr _) as [a h].
  destruct (pop _) as [p| | |]; try reflexivity. cbn [Res_bind].
  destruct (call _ _ _) as [c| | |]; reflexivity.
Qed.




End ExampleSteps.

Open Scope string_scope.

(** ** The hash table *)

(** C1 (code bug): six globals fit the first array of eight entries, and
    [tableGet] finds the value of the first.  A seventh key makes
    [adjustCapacity] build the array of sixteen: it copies the keys but
    assigns each new entry's value to itself, and it zeroes the count
    without counting the entries it copies.  So after the growth [tableGet]
    of the first key is a hit on Nil, not on the number stored; and when the
    set that triggers the growth is of a key already there, the count stays
    zero and [tableGet] of that very key is a miss. *)
Theorem adjustCapacity_loses_values :
  (t <- tableSetAll six_globals initTable ;;
   tableGet t (string_at 1%nat "a")) = Ok (Some (NUMBER_VAL 1%float)) /\
  (t <- tableSetAll six_globals initTable ;;
   r <- tableSet t (string_at 7%nat "g") (NUMBER_VAL 7%float) ;;
   tableGet (snd r) (string_at 1%nat "a")) = Ok (Some NIL_VAL) /\
  (t <- tableSetAll six_globals initTable ;;
   r <- tableSet t (string_at 1%nat "a") (NUMBER_VAL 10%float) ;;
   tableGet (snd r) (string_at 1%nat "a")) = Ok None.
Proof. repeat split; vm_compute; reflexivity. Qed.

(** C5 (code bug): after [var a; ... var l;] the globals table of sixteen
    entries holds the three natives and the twelve globals, its count at
    nine since the growth zeroed it, and a lookup of [x] misses.  The
    assignment [x = nil;] then takes the last empty entry, OP_SET_GLOBAL
    rolls it back with [tableDelete], which leaves a tombstone there, and
    the runtime error is reported.  No entry of the table is empty any
    more, so the probe of [findEntry] for [x] never ends: the lookup after
    the rollback does not miss, it does not return. *)
Theorem OP_SET_GLOBAL_rollback_fills_table :
  (vm <- turns 24 assign_script ;;
   found <- tableGet (globals vm) name_x ;;
   Ok (found, t_count (globals vm), t_capacity (globals vm),
       keys (globals vm))) = Ok (None, 9, 16, 15%nat) /\
  (vm <- turns 25 assign_script ;; r <- READ_BYTE vm ;; Ok (fst r)) =
    Ok (op OP_SET_GLOBAL) /\
  report (vm <- initVM vm_storage ;;
          interpret strtod_digits (Some assign_script) 26 vm) =
    Ok (INTERPRET_RUNTIME_ERROR,
        ["Undefined variable 'x'."; "[line 1] in script"]%string) /\
  (vm <- initVM vm_storage ;;
   r <- interpret strtod_digits (Some assign_script) 26 vm ;;
   Ok (t_count (globals (snd r)), t_capacity (globals (snd r)),
       keys (globals (snd r)))) = Ok (10, 16, 15%nat) /\
  (vm <- initVM vm_storage ;;
   r <- interpret strtod_digits (Some assign_script) 26 vm ;;
   tableGet (globals (snd r)) name_x) = Diverges.
Proof. repeat split; vm_compute; reflexivity. Qed.

(** ** The machine *)

(** C3 (code bug): when the operands of OP_ADD are neither two strings nor
    two numbers, the turn ends the run with the runtime error, and the
    message is "Operands must be two numbers of two strings.", with "of"
    where the specification has "or"; so it is for [print "a" + 1;]. *)
Theorem OP_ADD_message_differs :
  (forall (strtod : string -> float) (vm : VM) (a b : Value),
     peek 0 vm = Ok b -> peek 1 vm = Ok a ->
     IS_STRING b && IS_STRING a = false ->
     IS_NUMBER b && IS_NUMBER a = false ->
     exec strtod OP_ADD vm =
       (vm' <- runtimeError "Operands must be two numbers of two strings." vm ;;
        Ok (Halted INTERPRET_RUNTIME_ERROR vm'))) /\
  report (vm <- initVM vm_storage ;;
          interpret strtod_digits (Some add_script) 8 vm) =
    Ok (INTERPRET_RUNTIME_ERROR,
        ["Operands must be two numbers of two strings.";
         "[line 1] in script"]%string) /\
  String.eqb "Operands must be two numbers of two strings."
    "Operands must be two numbers or two strings." = false.
Proof.
  split; [|split; vm_compute; reflexivity].
  intros strtod vm a b Hb Ha Hs Hn. cbn [exec]. rewrite Hb. cbn [Res_bind].
  destruct (IS_STRING b) eqn:Eb; destruct (IS_NUMBER b) eqn:En;
    rewrite ?Ha; cbn [Res_bind]; cbn [andb] in *;
    rewrite ?Hs, ?Hn; reflexivity.
Qed.








(** ** The compiler *)

(** The expression of [a = b;] ends before the '=': what is compiled is the
    read of [a]. *)
Lemma variable_emits_OP_GET_GLOBAL_witness :
  parsePrecedence strtod_digits 1 PREC_ASSIGNMENT at_assignment =
    Ok (variable (advance at_assignment)) /\
  code (compilingChunk (variable (advance at_assignment))) =
    [op OP_GET_GLOBAL; 0] /\
  tk_type (current (parser (variable (advance at_assignment)))) = TOKEN_EQUAL.
Proof.
  destruct (variable_emits_OP_GET_GLOBAL strtod_digits at_assignment)
    as [_ Hassign].
  destruct (Hassign 0%nat PREC_ASSIGNMENT (token TOKEN_EQUAL "=")
              [token TOKEN_IDENTIFIER "b"; token TOKEN_SEMICOLON ";"])
    as (Hpp & _ & Hcur & _);
    [reflexivity | reflexivity | reflexivity | vm_compute; discriminate | ].
  split; [exact Hpp|]. split; [vm_compute; reflexivity|].
  rewrite Hcur. reflexivity.
Defined.

(** C2, as claimed: [a = b;] is no assignment to this compiler.  It emits
    the read of [a], reports an error at the '=', skips to the end of the
    statement and fails; no SET opcode is emitted and [b] is not compiled.
    And it has no blocks: in [{ var a; print a; }] the braces are errors and
    [a] is defined and read as a global. *)
Lemma assignment_is_not_compiled :
  outcome (compile strtod_digits assignment_tokens empty_chunk empty_heap) =
    Ok (false,
        [op OP_GET_GLOBAL; 0; op OP_POP; op OP_RETURN],
        ["[line 1] Error at '=': Expect ';' after expression."]%string) /\
  outcome
    (compile strtod_digits
       [token TOKEN_LEFT_BRACE "{"; token TOKEN_VAR "var";
        token TOKEN_IDENTIFIER "a"; token TOKEN_SEMICOLON ";";
        token TOKEN_PRINT "print"; token TOKEN_IDENTIFIER "a";
        token TOKEN_SEMICOLON ";"; token TOKEN_RIGHT_BRACE "}"]
       empty_chunk empty_heap) =
    Ok (false,
        [op OP_POP; op OP_NIL; op OP_DEFINE_GLOBAL; 0; op OP_GET_GLOBAL; 1;
         op OP_PRINT; op OP_POP; op OP_RETURN],
        ["[line 1] Error at '{': Expect expression.";
         "[line 1] Error at '}': Expect expression."]%string).
Proof. split; vm_compute; reflexivity. Qed.


(** [a - b - c;] compiles to the code of [(a - b) - c]. *)
Lemma binary_left_associative_witness :
  exists cst,
    compile strtod_digits
      [token TOKEN_IDENTIFIER "a"; token TOKEN_MINUS "-";
       token TOKEN_IDENTIFIER "b"; token TOKEN_MINUS "-";
       token TOKEN_IDENTIFIER "c"; token TOKEN_SEMICOLON ";"]
      empty_chunk empty_heap = Ok (true, cst) /\
    code (compilingChunk cst) =
      [op OP_GET_GLOBAL; 0; op OP_GET_GLOBAL; 1; op OP_SUBTRACT;
       op OP_GET_GLOBAL; 2; op OP_SUBTRACT; op OP_POP; op OP_RETURN].
Proof.
  destruct (binary_left_associative strtod_digits
              (token TOKEN_IDENTIFIER "a") (token TOKEN_MINUS "-")
              (token TOKEN_IDENTIFIER "b") (token TOKEN_MINUS "-")
              (token TOKEN_IDENTIFIER "c") (token TOKEN_SEMICOLON ";")
              empty_heap eq_refl eq_refl eq_refl eq_refl eq_refl eq_refl)
    as [_ (cst & Hc & Hcode)].
  exists cst. split; [exact Hc|exact Hcode].
Defined.

(** * Tables, machine, compiler and chunk: further theorems *)

Open Scope Z_scope.

(** ** The probe of [findEntry] *)

Section TableFacts.

Implicit Types (es : list Entry) (key : ObjString).

Lemma same_string_refl key : same_string key key = true.
Proof. unfold same_string. apply Nat.eqb_refl. Qed.

Lemma same_string_trans (a b c : ObjString) :
  same_string a b = true -> same_string b c = true -> same_string a c = true.
Proof.
  unfold same_string. rewrite !Nat.eqb_eq. congruence.
Qed.

Lemma same_string_sym (a b : ObjString) :
  same_string a b = same_string b a.
Proof. unfold same_string. apply Nat.eqb_sym. Qed.

(** Where the probe returns: at an entry that holds the key or at one with
    a null key (the tombstone it met first, or the unused entry). *)
Lemma probe_result (fuel : nat) es (capacity : Z) key :
  forall (index : Z) (tombstone : option Z) (idx : Z),
    (forall t, tombstone = Some t ->
       exists e, array_get es t = Ok e /\ e_key e = None) ->
    findEntry_probe fuel es capacity key index tombstone = Ok idx ->
    exists e, array_get es idx = Ok e /\
              (holds key e = true \/ e_key e = None).
Proof.
  induction fuel as [|fuel IH]; intros index tombstone idx Ht H;
    [discriminate|].
  cbn [findEntry_probe] in H. inv_bind H. rename a into entry.
  destruct (e_key entry) as [k|] eqn:Hk.
  - destruct (same_string k key) eqn:Hs.
    + injection H as <-. exists entry. split; [exact Ha|].
      left. unfold holds. rewrite Hk. exact Hs.
    + eapply IH; [exact Ht | exact H].
  - destruct (IS_NIL (e_value entry)).
    + injection H as <-. destruct tombstone as [t|].
      * destruct (Ht t eq_refl) as (e & He & Hn). exists e. auto.
      * exists entry. auto.
    + eapply IH; [|exact H].
      intros t Hsome. destruct tombstone as [t0|].
      * apply Ht. exact Hsome.
      * injection Hsome as <-. exists entry. auto.
Qed.

(** The probe that returned [idx] returns [idx] again once the key is
    stored there. *)
Lemma probe_set_same (fuel : nat) es (capacity : Z) key (v : Value) (idx : Z) :
  0 <= idx < Z.of_nat (length es) ->
  forall (index : Z) (tombstone : option Z),
    findEntry_probe fuel es capacity key index tombstone = Ok idx ->
    findEntry_probe fuel
      (array_set es idx {| e_key := Some key; e_value := v |})
      capacity key index tombstone = Ok idx.
Proof.
  intros Hidx. induction fuel as [|fuel IH]; intros index tombstone H;
    [discriminate|].
  cbn [findEntry_probe] in *.
  destruct (Z.eq_dec index idx) as [->|Hne].
  - rewrite array_get_set by exact Hidx. cbn [Res_bind e_key].
    rewrite same_string_refl. reflexivity.
  - rewrite array_get_set_ne by auto.
    destruct (array_get es index) as [entry| | |]; try discriminate.
    cbn [Res_bind] in *.
    destruct (e_key entry) as [k|].
    + destruct (same_string k key); [exact H | apply IH; exact H].
    + destruct (IS_NIL (e_value entry)); [exact H | apply IH; exact H].
Qed.

(** A probe that ends on the key it looks for does so whatever tombstone
    it carries, and still does when another entry it may have passed, one
    that was in use or a tombstone, is given another key or made a
    tombstone. *)
Lemma probe_found_stable (fuel : nat) es (capacity : Z) key (idx : Z)
    (e' : Entry) (j : Z) (found : Entry) :
  array_get es j = Ok found -> holds key found = true ->
  j <> idx ->
  holds key e' = false -> vacant e' = false ->
  (forall e, array_get es idx = Ok e -> holds key e = false) ->
  forall (index : Z) (tombstone tombstone' : option Z),
    (forall t, tombstone = Some t -> t <> j) ->
    findEntry_probe fuel es capacity key index tombstone = Ok j ->
    findEntry_probe fuel (array_set es idx e') capacity key index tombstone'
      = Ok j.
Proof.
  intros Hj Hfound Hne He' Hv' Hold.
  induction fuel as [|fuel IH]; intros index tombstone tombstone' Ht H;
    [discriminate|].
  cbn [findEntry_probe] in *. inv_bind H. rename a into entry.
  destruct (Z.eq_dec index idx) as [->|Hni].
  - assert (Hin : 0 <= idx < Z.of_nat (length es)).
    { apply array_get_Ok in Ha. destruct Ha as [H0 Hl].
      apply lookup_lt_Some in Hl. lia. }
    rewrite array_get_set by exact Hin. cbn [Res_bind].
    pose proof (Hold entry Ha) as Hoe. unfold holds in Hoe, He'.
    unfold vacant in Hv'.
    destruct (e_key entry) as [k|] eqn:Hk.
    + rewrite Hoe in H.
      destruct (e_key e') as [k'|] eqn:Hk'.
      * rewrite He'. eapply IH; [exact Ht | exact H].
      * rewrite Hv'. eapply IH; [exact Ht | exact H].
    + destruct (IS_NIL (e_value entry)) eqn:Hnil.
      * exfalso. injection H as H. destruct tombstone as [t|].
        -- exact (Ht t eq_refl H).
        -- congruence.
      * assert (Ht2 : forall t,
                  match tombstone with Some t0 => Some t0 | None => Some idx end
                  = Some t -> t <> j).
        { intros t Hsome. destruct tombstone as [t0|].
          - apply Ht. exact Hsome.
          - injection Hsome as <-. auto. }
        destruct (e_key e') as [k'|] eqn:Hk'.
        -- rewrite He'. eapply IH; [exact Ht2 | exact H].
        -- rewrite Hv'. eapply IH; [exact Ht2 | exact H].
  - rewrite array_get_set_ne by auto. rewrite Ha. cbn [Res_bind].
    destruct (e_key entry) as [k|] eqn:Hk.
    + destruct (same_string k key); [exact H|].
      eapply IH; [exact Ht | exact H].
    + destruct (IS_NIL (e_value entry)) eqn:Hnil.
      * exfalso. injection H as H. destruct tombstone as [t|].
        -- exact (Ht t eq_refl H).
        -- subst index. rewrite Ha in Hj. injection Hj as <-.
           unfold holds in Hfound. rewrite Hk in Hfound. discriminate.
      * eapply IH; [|exact H].
        intros t Hsome. destruct tombstone as [t0|].
        -- apply Ht. exact Hsome.
        -- injection Hsome as <-. intros ->. rewrite Ha in Hj.
           injection Hj as <-. unfold holds in Hfound. rewrite Hk in Hfound.
           discriminate.
Qed.

(** The probe visits the entries in a cycle, so with an unused entry in the
    array it returns before its budget of [capacity] turns is spent. *)
Lemma probe_total (fuel : nat) es (capacity : Z) key (v : nat) (ev : Entry) :
  sized es capacity -> es !! v = Some ev -> vacant ev = true ->
  forall (index : Z) (tombstone : option Z),
    0 <= index < capacity ->
    (Z.of_nat v - index) mod capacity < Z.of_nat fuel ->
    exists idx, findEntry_probe fuel es capacity key index tombstone = Ok idx.
Proof.
  intros [Hcap Hlen] Hv Hvac.
  assert (Hvr : 0 <= Z.of_nat v < capacity).
  { apply lookup_lt_Some in Hv. lia. }
  induction fuel as [|fuel IH]; intros index tombstone Hi Hd.
  - pose proof (Z.mod_pos_bound (Z.of_nat v - index) capacity Hcap). lia.
  - cbn [findEntry_probe].
    destruct (es !! Z.to_nat index) as [entry|] eqn:Hentry.
    2:{ apply lookup_ge_None in Hentry. lia. }
    assert (Hget : array_get es index = Ok entry).
    { apply array_get_Ok. split; [lia | exact Hentry]. }
    rewrite Hget. cbn [Res_bind].
    assert (Hnext : index <> Z.of_nat v ->
              0 <= (index + 1) mod capacity < capacity /\
              (Z.of_nat v - (index + 1) mod capacity) mod capacity
                < Z.of_nat fuel).
    { intros Hne. split; [apply Z.mod_pos_bound; lia|].
      rewrite Zminus_mod_idemp_r.
      set (d := (Z.of_nat v - index) mod capacity) in *.
      pose proof (Z.mod_pos_bound (Z.of_nat v - index) capacity Hcap) as Hb.
      fold d in Hb.
      pose proof (Z.div_mod (Z.of_nat v - index) capacity ltac:(lia)) as Hq.
      fold d in Hq.
      assert (Hd0 : d <> 0).
      { intros H0. rewrite H0 in Hq.
        assert ((Z.of_nat v - index) / capacity = 0) by nia. nia. }
      rewrite <- (Z.mod_unique_pos (Z.of_nat v - (index + 1)) capacity
                    ((Z.of_nat v - index) / capacity) (d - 1)); lia. }
    assert (Hat : index = Z.of_nat v -> entry = ev).
    { intros ->. rewrite Nat2Z.id in Hentry. congruence. }
    unfold vacant in Hvac.
    destruct (e_key entry) as [k|] eqn:Hk.
    + destruct (same_string k key); [eauto|].
      destruct (Z.eq_dec index (Z.of_nat v)) as [He|Hne].
      * rewrite (Hat He) in Hk. rewrite Hk in Hvac. discriminate.
      * destruct (Hnext Hne). apply IH; assumption.
    + destruct (IS_NIL (e_value entry)) eqn:Hnil; [eauto|].
      destruct (Z.eq_dec index (Z.of_nat v)) as [He|Hne].
      * rewrite (Hat He) in Hk, Hnil. rewrite Hk in Hvac. congruence.
      * destruct (Hnext Hne). apply IH; assumption.
Qed.

(** [findEntry] on an array with an unused entry. *)
Lemma findEntry_returns es (capacity : Z) key :
  sized es capacity -> has_vacancy es ->
  exists idx e,
    findEntry es capacity key = Ok idx /\
    0 <= idx < capacity /\
    array_get es idx = Ok e /\
    (holds key e = true \/ e_key e = None).
Proof.
  intros Hs (v & ev & Hv & Hvac). pose proof Hs as [Hcap Hlen].
  unfold findEntry. destruct (Z.leb_spec capacity 0) as [|_]; [lia|].
  destruct (probe_total (Z.to_nat capacity) es capacity key v ev Hs Hv Hvac
              (str_hash key mod capacity) None) as (idx & Hidx).
  { apply Z.mod_pos_bound. lia. }
  { pose proof (Z.mod_pos_bound
                  (Z.of_nat v - str_hash key mod capacity) capacity Hcap).
    lia. }
  destruct (probe_result (Z.to_nat capacity) es capacity key
              (str_hash key mod capacity) None idx) as (e & He & Hcases);
    [discriminate | exact Hidx |].
  exists idx, e. split; [exact Hidx|]. split; [|auto].
  apply array_get_Ok in He. destruct He as [H0 Hl].
  apply lookup_lt_Some in Hl. lia.
Qed.

(** Where [findEntry] returns, whenever it does. *)
Lemma findEntry_result es (capacity : Z) key (idx : Z) :
  findEntry es capacity key = Ok idx ->
  exists e, array_get es idx = Ok e /\
            (holds key e = true \/ e_key e = None).
Proof.
  unfold findEntry. destruct (capacity <=? 0); [discriminate|].
  apply probe_result. discriminate.
Qed.

End TableFacts.

(** ** Tables whose stored keys are findable *)

Section TableOps.

Implicit Types (es : list Entry) (key : ObjString).

Lemma findEntry_in_range es (capacity : Z) key (idx : Z) :
  findEntry es capacity key = Ok idx -> 0 <= idx < Z.of_nat (length es).
Proof.
  intros H. destruct (findEntry_result es capacity key idx H) as (e & He & _).
  apply array_get_Ok in He. destruct He as [H0 Hl].
  apply lookup_lt_Some in Hl. lia.
Qed.

Lemma array_get_nat {A : Type} (l : list A) (i : nat) :
  array_get l (Z.of_nat i) = of_option (l !! i).
Proof.
  unfold array_get. destruct (Z.ltb_spec (Z.of_nat i) 0); [lia|].
  rewrite Nat2Z.id. reflexivity.
Qed.

(** A key that is stored is found where it is stored, and nowhere else. *)
Lemma stored_at es (capacity : Z) key (i : nat) (e : Entry) :
  keys_findable es capacity -> same_object es key ->
  es !! i = Some e -> holds key e = true ->
  findEntry es capacity key = Ok (Z.of_nat i).
Proof.
  intros Hf Hso Hi Hh. unfold holds in Hh.
  destruct (e_key e) as [k|] eqn:Hk; [|discriminate].
  rewrite <- (Hso i e k Hi Hk Hh). exact (Hf i e k Hi Hk).
Qed.

(** Storing a key where [findEntry] points keeps every key findable. *)
Lemma set_keeps_findable es (capacity : Z) key (v : Value) (idx : Z) :
  keys_findable es capacity -> same_object es key ->
  findEntry es capacity key = Ok idx ->
  keys_findable (array_set es idx {| e_key := Some key; e_value := v |})
    capacity.
Proof.
  intros Hf Hso Hidx i e k Hi Hk.
  pose proof (findEntry_in_range _ _ _ _ Hidx) as Hr.
  destruct (findEntry_result _ _ _ _ Hidx) as (e0 & He0 & Hcases).
  destruct (Z.eq_dec (Z.of_nat i) idx) as [Heq|Hne].
  - subst idx. unfold array_set in Hi.
    destruct (Z.ltb_spec (Z.of_nat i) 0); [lia|].
    rewrite Nat2Z.id, list_lookup_insert_eq in Hi by lia.
    injection Hi as <-. injection Hk as <-.
    unfold findEntry in *. destruct (capacity <=? 0); [discriminate|].
    apply probe_set_same; assumption.
  - assert (Hi' : es !! i = Some e).
    { rewrite <- Hi. unfold array_set.
      destruct (Z.ltb_spec idx 0); [reflexivity|].
      rewrite list_lookup_insert_ne; [reflexivity | lia]. }
    pose proof (Hf i e k Hi' Hk) as Hfi.
    assert (Hkk : same_string k key = false).
    { destruct (same_string k key) eqn:Hs; [|reflexivity]. exfalso.
      rewrite (Hso i e k Hi' Hk Hs) in Hfi. congruence. }
    unfold findEntry in *. destruct (capacity <=? 0); [discriminate|].
    eapply probe_found_stable with (found := e) (tombstone := None).
    + rewrite array_get_nat, Hi'. reflexivity.
    + unfold holds. rewrite Hk. apply same_string_refl.
    + exact Hne.
    + unfold holds. cbn [e_key]. rewrite same_string_sym. exact Hkk.
    + reflexivity.
    + intros e1 He1. rewrite He0 in He1. injection He1 as <-.
      unfold holds in *. destruct (e_key e0) as [k0|]; [|reflexivity].
      destruct Hcases as [Hh|Hn]; [|discriminate].
      destruct (same_string k0 k) eqn:Hs; [|reflexivity].
      rewrite <- Hkk. symmetry. rewrite same_string_sym in Hs.
      exact (same_string_trans _ _ _ Hs Hh).
    + discriminate.
    + exact Hfi.
Qed.

(** The tombstone [tableDelete] leaves keeps every other key findable. *)
Lemma tombstone_keeps_findable es (capacity : Z) key (idx : Z) (e0 : Entry) :
  keys_findable es capacity -> same_object es key ->
  findEntry es capacity key = Ok idx ->
  array_get es idx = Ok e0 -> holds key e0 = true ->
  keys_findable
    (array_set es idx {| e_key := None; e_value := BOOL_VAL true |}) capacity.
Proof.
  intros Hf Hso Hidx He0 Hh0 i e k Hi Hk.
  pose proof (findEntry_in_range _ _ _ _ Hidx) as Hr.
  destruct (Z.eq_dec (Z.of_nat i) idx) as [Heq|Hne].
  - subst idx. unfold array_set in Hi.
    destruct (Z.ltb_spec (Z.of_nat i) 0); [lia|].
    rewrite Nat2Z.id, list_lookup_insert_eq in Hi by lia.
    injection Hi as <-. discriminate.
  - assert (Hi' : es !! i = Some e).
    { rewrite <- Hi. unfold array_set.
      destruct (Z.ltb_spec idx 0); [reflexivity|].
      rewrite list_lookup_insert_ne; [reflexivity | lia]. }
    pose proof (Hf i e k Hi' Hk) as Hfi.
    assert (Hkk : same_string k key = false).
    { destruct (same_string k key) eqn:Hs; [|reflexivity]. exfalso.
      rewrite (Hso i e k Hi' Hk Hs) in Hfi. congruence. }
    unfold findEntry in *. destruct (capacity <=? 0); [discriminate|].
    eapply probe_found_stable with (found := e) (tombstone := None).
    + rewrite array_get_nat, Hi'. reflexivity.
    + unfold holds. rewrite Hk. apply same_string_refl.
    + exact Hne.
    + reflexivity.
    + reflexivity.
    + intros e1 He1. rewrite He0 in He1. injection He1 as <-.
      unfold holds in *. destruct (e_key e0) as [k0|]; [|reflexivity].
      destruct (same_string k0 k) eqn:Hs; [|reflexivity].
      rewrite <- Hkk. symmetry. rewrite same_string_sym in Hs.
      exact (same_string_trans _ _ _ Hs Hh0).
    + discriminate.
    + exact Hfi.
Qed.

(** What is stored under the other keys when one entry changes hands. *)
Lemma stored_other es (idx : Z) (e0 e' : Entry) (k' : ObjString)
    (v' : Value) :
  array_get es idx = Ok e0 ->
  holds k' e0 = false -> holds k' e' = false ->
  stored (array_set es idx e') k' v' <-> stored es k' v'.
Proof.
  intros He0 Hold Hnew.
  assert (Hr : 0 <= idx < Z.of_nat (length es)).
  { apply array_get_Ok in He0. destruct He0 as [H0 Hl].
    apply lookup_lt_Some in Hl. lia. }
  assert (Hat : forall i e, Z.of_nat i <> idx ->
            array_set es idx e' !! i = Some e <-> es !! i = Some e).
  { intros i e Hne. unfold array_set.
    destruct (Z.ltb_spec idx 0); [lia|].
    rewrite list_lookup_insert_ne by lia. reflexivity. }
  split; intros (i & e & Hi & Hh & Hv); exists i, e.
  - destruct (Z.eq_dec (Z.of_nat i) idx) as [<-|Hne].
    + unfold array_set in Hi. destruct (Z.ltb_spec (Z.of_nat i) 0); [lia|].
      rewrite Nat2Z.id, list_lookup_insert_eq in Hi by lia.
      injection Hi as <-. congruence.
    + apply Hat in Hi; auto.
  - destruct (Z.eq_dec (Z.of_nat i) idx) as [<-|Hne].
    + rewrite array_get_nat, Hi in He0. injection He0 as <-. congruence.
    + split; [|auto]. apply Hat; auto.
Qed.

(** Counting the entries in use. *)
Lemma used_bounds es : 0 <= used es <= Z.of_nat (length es).
Proof.
  induction es as [|e es IH]; cbn [used length]; [lia|].
  destruct (vacant e); lia.
Qed.

Lemma used_vacancy es : used es < Z.of_nat (length es) -> has_vacancy es.
Proof.
  induction es as [|e es IH]; cbn [used length]; [lia|].
  destruct (vacant e) eqn:Hv; intros H.
  - exists 0%nat, e. auto.
  - destruct IH as (i & e1 & Hi & Hv1); [lia|]. exists (S i), e1. auto.
Qed.

Lemma used_insert es (i : nat) (e0 e' : Entry) :
  es !! i = Some e0 ->
  used (<[i := e']> es) =
    used es - (if vacant e0 then 0 else 1) + (if vacant e' then 0 else 1).
Proof.
  revert i. induction es as [|e es IH]; intros [|i] Hi; try discriminate.
  - injection Hi as ->. cbn [used]. simpl. lia.
  - cbn [used]. simpl. rewrite (IH i Hi). lia.
Qed.

End TableOps.

(** ** [tableGet], [tableSet] and [tableDelete] *)

Section TableTheorems.

Implicit Types (es : list Entry) (key : ObjString).

Lemma array_set_length {A : Type} (l : list A) (i : Z) (x : A) :
  length (array_set l i x) = length l.
Proof.
  unfold array_set. destruct (i <? 0); [reflexivity|].
  apply length_insert.
Qed.

Lemma array_set_lookup {A : Type} (l : list A) (idx : Z) (x y : A) (i : nat) :
  array_set l idx x !! i = Some y ->
  (Z.of_nat i = idx /\ y = x) \/ (Z.of_nat i <> idx /\ l !! i = Some y).
Proof.
  unfold array_set. destruct (Z.ltb_spec idx 0) as [Hn|Hp].
  - intros H. right. split; [lia | exact H].
  - destruct (Nat.eq_dec i (Z.to_nat idx)) as [->|Hne].
    + intros H. left. split; [lia|].
      apply lookup_lt_Some in H as Hlt. rewrite length_insert in Hlt.
      rewrite list_lookup_insert_eq in H by exact Hlt. congruence.
    + rewrite list_lookup_insert_ne by auto. intros H. right.
      split; [lia | exact H].
Qed.

(** The keys of the array after a store are the key stored and keys that
    were there. *)
Lemma same_object_set es (idx : Z) (e' : Entry) key :
  same_object es key ->
  (forall k, e_key e' = Some k -> same_string k key = true -> k = key) ->
  same_object (array_set es idx e') key.
Proof.
  intros Hso He' i e k Hi Hk Hs.
  destruct (array_set_lookup _ _ _ _ _ Hi) as [[_ ->]|[_ Hi']].
  - exact (He' k Hk Hs).
  - exact (Hso i e k Hi' Hk Hs).
Qed.

(** [tableGet] on a table with an unused entry: it returns, and what it
    returns is what is stored. *)
Lemma tableGet_stored (t : Table) key :
  table_ok t -> has_vacancy (t_entries t) -> same_object (t_entries t) key ->
  t_count t <> 0 ->
  exists r,
    tableGet t key = Ok r /\
    forall v, r = Some v <-> stored (t_entries t) key v.
Proof.
  intros [Hs Hf] Hv Hso Hc.
  destruct (findEntry_returns _ _ key Hs Hv) as (idx & e & Hidx & Hr & He & Hcases).
  unfold tableGet. destruct (Z.eqb_spec (t_count t) 0); [contradiction|].
  rewrite Hidx. cbn [Res_bind]. rewrite He. cbn [Res_bind].
  assert (Hi : t_entries t !! Z.to_nat idx = Some e).
  { apply array_get_Ok in He. tauto. }
  destruct (e_key e) as [k|] eqn:Hk.
  - eexists. split; [reflexivity|]. intros v.
    destruct Hcases as [Hh|]; [|discriminate]. split.
    + intros [= <-]. exists (Z.to_nat idx), e. auto.
    + intros (i & e1 & Hi1 & Hh1 & <-).
      pose proof (stored_at _ _ _ _ _ Hf Hso Hi1 Hh1) as Hat.
      rewrite Hidx in Hat. injection Hat as ->.
      rewrite Nat2Z.id in Hi. congruence.
  - eexists. split; [reflexivity|]. intros v. split; [discriminate|].
    intros (i & e1 & Hi1 & Hh1 & <-).
    pose proof (stored_at _ _ _ _ _ Hf Hso Hi1 Hh1) as Hat.
    rewrite Hidx in Hat. injection Hat as ->.
    rewrite Nat2Z.id in Hi. rewrite Hi in Hi1. injection Hi1 as <-.
    unfold holds in Hh1. rewrite Hk in Hh1. discriminate.
Qed.

(** A lookup right after a store, growth or not. *)
Lemma tableSet_tableGet (t t' : Table) key (v : Value) (isNew : bool) :
  tableSet t key v = Ok (isNew, t') ->
  tableGet t' key = Ok (if t_count t' =? 0 then None else Some v).
Proof.
  unfold tableSet. intros H. inv_bind H. rename a into t1.
  inv_bind H. rename a into idx. inv_bind H. rename a into e0.
  injection H as _ <-. unfold tableGet. cbn [t_count t_capacity t_entries].
  match goal with |- (if ?c then _ else _) = _ => destruct c; [reflexivity|] end.
  assert (Hr : 0 <= idx < Z.of_nat (length (t_entries t1))).
  { exact (findEntry_in_range _ _ _ _ Ha0). }
  unfold findEntry in *. destruct (t_capacity t1 <=? 0); [discriminate|].
  rewrite (probe_set_same _ _ _ _ v idx Hr _ _ Ha0). cbn [Res_bind].
  rewrite array_get_set by exact Hr. reflexivity.
Qed.

(** The body of [tableSet] on a table that need not grow. *)
Lemma tableSet_in_place (t : Table) key (v : Value) :
  table_ok t -> has_vacancy (t_entries t) -> same_object (t_entries t) key ->
  over_load t = false ->
  exists isNew t',
    tableSet t key v = Ok (isNew, t') /\
    table_ok t' /\ same_object (t_entries t') key /\
    t_capacity t' = t_capacity t /\
    (isNew = true <-> forall v0, ~ stored (t_entries t) key v0) /\
    stored (t_entries t') key v /\
    (forall k' v', same_string key k' = false ->
       (stored (t_entries t') k' v' <-> stored (t_entries t) k' v')) /\
    (t_count t' = t_count t \/ t_count t' = t_count t + 1) /\
    (counted t -> counted t' /\ has_vacancy (t_entries t')).
Proof.
  intros [Hs Hf] Hv Hso Hload.
  destruct (findEntry_returns _ _ key Hs Hv) as (idx & e0 & Hidx & Hr & He0 & Hcases).
  pose proof Hs as [Hcap Hlen].
  assert (Hi0 : t_entries t !! Z.to_nat idx = Some e0).
  { apply array_get_Ok in He0. tauto. }
  unfold tableSet. rewrite Hload. cbn [Res_bind]. rewrite Hidx. cbn [Res_bind].
  rewrite He0. cbn [Res_bind].
  eexists. eexists. split; [reflexivity|]. cbn [t_count t_capacity t_entries].
  assert (Hnew : forall k' : ObjString, same_string key k' = false ->
            holds k' e0 = false /\
            holds k' {| e_key := Some key; e_value := v |} = false).
  { intros k' Hk'. split; [|exact Hk'].
    unfold holds in *. destruct (e_key e0) as [k0|]; [|reflexivity].
    destruct Hcases as [Hh|]; [|discriminate].
    destruct (same_string k0 k') eqn:Hs0; [|reflexivity].
    rewrite <- Hk'. symmetry. rewrite same_string_sym in Hh.
    exact (same_string_trans _ _ _ Hh Hs0). }
  split; [|split; [|split; [|split; [|split; [|split; [|split]]]]]].
  - split.
    + split; [exact Hcap|]. cbn [t_entries t_capacity].
      rewrite array_set_length. exact Hlen.
    + apply set_keeps_findable; assumption.
  - apply same_object_set; [exact Hso|]. cbn [e_key]. intros k [= <-] _.
    reflexivity.
  - reflexivity.
  - destruct (e_key e0) as [k0|] eqn:Hk0.
    + split; [discriminate|]. intros Hno. exfalso.
      destruct Hcases as [Hh|]; [|discriminate].
      apply (Hno (e_value e0)). exists (Z.to_nat idx), e0. auto.
    + split; [|reflexivity]. intros _ v0 (i & e1 & Hi1 & Hh1 & _).
      pose proof (stored_at _ _ _ _ _ Hf Hso Hi1 Hh1) as Hat.
      rewrite Hidx in Hat. injection Hat as ->. rewrite Nat2Z.id in Hi0.
      rewrite Hi0 in Hi1. injection Hi1 as <-.
      unfold holds in Hh1. rewrite Hk0 in Hh1. discriminate.
  - exists (Z.to_nat idx), {| e_key := Some key; e_value := v |}.
    split; [|split; [|reflexivity]].
    + unfold array_set. destruct (Z.ltb_spec idx 0); [lia|].
      apply list_lookup_insert_eq. lia.
    + unfold holds. cbn [e_key]. apply same_string_refl.
  - intros k' v' Hk'. destruct (Hnew k' Hk') as [H1 H2].
    apply (stored_other _ _ e0); assumption.
  - destruct (e_key e0); cbn [andb]; [left; reflexivity|].
    destruct (IS_NIL (e_value e0)); [right | left]; reflexivity.
  - intros [Hu Hl].
    assert (Hused :
      used (array_set (t_entries t) idx {| e_key := Some key; e_value := v |}) =
      used (t_entries t) + (if vacant e0 then 1 else 0)).
    { unfold array_set. destruct (Z.ltb_spec idx 0); [lia|].
      rewrite (used_insert _ _ e0) by exact Hi0. cbn [vacant e_key].
      destruct (vacant e0); lia. }
    assert (Hcount :
      (if match e_key e0 with Some _ => false | None => true end
          && IS_NIL (e_value e0)
       then t_count t + 1 else t_count t) =
      t_count t + (if vacant e0 then 1 else 0)).
    { unfold vacant. destruct (e_key e0); cbn [andb]; [lia|].
      destruct (IS_NIL (e_value e0)); lia. }
    unfold over_load in Hload. apply Z.ltb_ge in Hload.
    assert (Hc' : counted
      {| t_count := if match e_key e0 with Some _ => false | None => true end
                       && IS_NIL (e_value e0)
                    then t_count t + 1 else t_count t;
         t_capacity := t_capacity t;
         t_entries := array_set (t_entries t) idx
                        {| e_key := Some key; e_value := v |} |}).
    { unfold counted. cbn [t_count t_capacity t_entries].
      rewrite Hused, Hcount. destruct (vacant e0); lia. }
    split; [exact Hc'|]. apply used_vacancy. rewrite array_set_length.
    destruct Hc' as [Hu' Hl']. cbn [t_count t_capacity t_entries] in *. lia.
Qed.

(** [tableDelete] on a table with an unused entry. *)
Lemma tableDelete_tombstone (t : Table) key :
  table_ok t -> has_vacancy (t_entries t) -> same_object (t_entries t) key ->
  t_count t <> 0 ->
  exists deleted t',
    tableDelete t key = Ok (deleted, t') /\
    table_ok t' /\ has_vacancy (t_entries t') /\
    same_object (t_entries t') key /\
    t_count t' = t_count t /\ t_capacity t' = t_capacity t /\
    (deleted = true <-> exists v0, stored (t_entries t) key v0) /\
    (forall v0, ~ stored (t_entries t') key v0) /\
    (forall k' v', same_string key k' = false ->
       (stored (t_entries t') k' v' <-> stored (t_entries t) k' v')) /\
    (counted t -> counted t').
Proof.
  intros [Hs Hf] Hv Hso Hc.
  destruct (findEntry_returns _ _ key Hs Hv) as (idx & e0 & Hidx & Hr & He0 & Hcases).
  pose proof Hs as [Hcap Hlen].
  assert (Hi0 : t_entries t !! Z.to_nat idx = Some e0).
  { apply array_get_Ok in He0. tauto. }
  assert (Honly : forall i e1 v0,
            t_entries t !! i = Some e1 -> holds key e1 = true ->
            e_value e1 = v0 -> Z.of_nat i = idx /\ e1 = e0).
  { intros i e1 v0 Hi1 Hh1 _.
    pose proof (stored_at _ _ _ _ _ Hf Hso Hi1 Hh1) as Hat.
    rewrite Hidx in Hat. injection Hat as ->. split; [reflexivity|].
    rewrite Nat2Z.id in Hi0. congruence. }
  unfold tableDelete. destruct (Z.eqb_spec (t_count t) 0); [contradiction|].
  rewrite Hidx. cbn [Res_bind]. rewrite He0. cbn [Res_bind].
  destruct (e_key e0) as [k0|] eqn:Hk0.
  - destruct Hcases as [Hh|]; [|discriminate].
    eexists. eexists. split; [reflexivity|].
    cbn [t_count t_capacity t_entries].
    split; [|split; [|split; [|split; [|split; [|split; [|split; [|split]]]]]]].
    + split.
      * split; [exact Hcap|]. cbn [t_entries t_capacity].
        rewrite array_set_length. exact Hlen.
      * apply (tombstone_keeps_findable _ _ key idx e0); assumption.
    + destruct Hv as (vi & ev & Hvi & Hvac). exists vi, ev. split; [|exact Hvac].
      unfold array_set. destruct (Z.ltb_spec idx 0); [lia|].
      rewrite list_lookup_insert_ne; [exact Hvi|]. intros <-.
      rewrite Hi0 in Hvi. injection Hvi as <-.
      unfold vacant in Hvac. rewrite Hk0 in Hvac. discriminate.
    + apply same_object_set; [exact Hso|]. discriminate.
    + reflexivity.
    + reflexivity.
    + split; [|reflexivity]. intros _. exists (e_value e0).
      exists (Z.to_nat idx), e0. auto.
    + intros v0 (i & e1 & Hi1 & Hh1 & Hv1).
      destruct (array_set_lookup _ _ _ _ _ Hi1) as [[_ ->]|[Hne Hi1']].
      * discriminate.
      * destruct (Honly i e1 v0 Hi1' Hh1 Hv1) as [Heq _]. contradiction.
    + intros k' v' Hk'. apply (stored_other _ _ e0); [exact He0| |reflexivity].
      unfold holds in *. rewrite Hk0 in *.
      destruct (same_string k0 k') eqn:Hs0; [|reflexivity].
      rewrite <- Hk'. symmetry. rewrite same_string_sym in Hh.
      exact (same_string_trans _ _ _ Hh Hs0).
    + intros [Hu Hl]. unfold counted. cbn [t_count t_capacity t_entries].
      split; [|exact Hl]. unfold array_set. destruct (Z.ltb_spec idx 0); [lia|].
      rewrite (used_insert _ _ e0) by exact Hi0. cbn [vacant e_key e_value IS_NIL].
      unfold vacant. rewrite Hk0. lia.
  - exists false, t. split; [reflexivity|].
    assert (Hno : forall v0, ~ stored (t_entries t) key v0).
    { intros v0 (i & e1 & Hi1 & Hh1 & Hv1).
      destruct (Honly i e1 v0 Hi1 Hh1 Hv1) as [_ ->].
      unfold holds in Hh1. rewrite Hk0 in Hh1. discriminate. }
    split; [split; assumption|]. split; [exact Hv|]. split; [exact Hso|].
    split; [reflexivity|]. split; [reflexivity|].
    split; [|split; [exact Hno|split; [reflexivity | auto]]].
    split; [discriminate|]. intros [v0 Hst]. destruct (Hno v0 Hst).
Qed.

(** The load that [tableSet] allows leaves an unused entry when the count
    is right. *)
Lemma counted_vacancy (t : Table) :
  sized (t_entries t) (t_capacity t) -> counted t -> has_vacancy (t_entries t).
Proof.
  intros [Hcap Hlen] [Hu Hl]. apply used_vacancy. lia.
Qed.

End TableTheorems.

(** ** [adjustCapacity] *)

Section TableGrowth.

Implicit Types (es old : list Entry) (key : ObjString).

Lemma key_in_set es (idx : Z) (e' : Entry) (k : ObjString) :
  key_in (array_set es idx e') k -> e_key e' = Some k \/ key_in es k.
Proof.
  intros (i & e & Hi & Hk).
  destruct (array_set_lookup _ _ _ _ _ Hi) as [[_ ->]|[_ Hi']].
  - left. exact Hk.
  - right. exists i, e. auto.
Qed.

(** The loop of [adjustCapacity] that copies the keys: with room for them
    all it returns, every key findable, every value still Nil. *)
Lemma adjustCapacity_copy_spec (capacity : Z) old :
  forall es,
    sized es capacity -> keys_findable es capacity ->
    Forall (fun e => e_value e = NIL_VAL) es ->
    used es + Z.of_nat (length old) < capacity ->
    (forall k1 k2,
       key_in old k1 \/ key_in es k1 -> key_in old k2 \/ key_in es k2 ->
       same_string k1 k2 = true -> k1 = k2) ->
    exists es',
      adjustCapacity_copy old es capacity = Ok es' /\
      sized es' capacity /\ keys_findable es' capacity /\
      Forall (fun e => e_value e = NIL_VAL) es' /\
      used es' <= used es + Z.of_nat (length old) /\
      (forall k, key_in es' k <-> key_in old k \/ key_in es k).
Proof.
  induction old as [|entry rest IH]; intros es Hs Hf Hnil Hroom Hco.
  - exists es. cbn [adjustCapacity_copy]. split; [reflexivity|].
    split; [exact Hs|]. split; [exact Hf|]. split; [exact Hnil|].
    split; [cbn [length]; lia|].
    intros k. split.
    + intros H. right. exact H.
    + intros [(i & e & Hi & _)|H]; [destruct i; discriminate | exact H].
  - cbn [adjustCapacity_copy]. cbn [length] in Hroom.
    assert (Hrest : forall k, key_in rest k -> key_in (entry :: rest) k).
    { intros k (i & e & Hi & Hk). exists (S i), e. auto. }
    destruct (e_key entry) as [k|] eqn:Hk.
    + assert (Hkin : key_in (entry :: rest) k).
      { exists 0%nat, entry. auto. }
      assert (Hso : same_object es k).
      { intros i e k0 Hi Hk0 Hsame. apply Hco; auto.
        right. exists i, e. auto. }
      pose proof Hs as [Hcap Hlen].
      assert (Hv : has_vacancy es) by (apply used_vacancy; lia).
      destruct (findEntry_returns _ _ k Hs Hv)
        as (dest & d & Hdest & Hr & Hd & Hcases).
      rewrite Hdest. cbn [Res_bind]. rewrite Hd. cbn [Res_bind].
      assert (Hid : es !! Z.to_nat dest = Some d).
      { apply array_get_Ok in Hd. tauto. }
      assert (Hdv : e_value d = NIL_VAL).
      { rewrite Forall_forall in Hnil. apply Hnil.
        eapply list_elem_of_lookup_2. exact Hid. }
      set (es1 := array_set es dest {| e_key := Some k; e_value := e_value d |}).
      assert (Hkeys1 : forall k0, key_in es1 k0 -> k0 = k \/ key_in es k0).
      { intros k0 H0. destruct (key_in_set _ _ _ _ H0) as [[= ->]|H1]; auto. }
      assert (Hkeep : forall k0, key_in es k0 -> key_in es1 k0).
      { intros k0 (i & e & Hi & Hk0).
        destruct (Z.eq_dec (Z.of_nat i) dest) as [Heq|Hne].
        - exists i. eexists. split.
          + unfold es1, array_set. destruct (Z.ltb_spec dest 0); [lia|].
            rewrite <- Heq, Nat2Z.id. apply list_lookup_insert_eq.
            apply lookup_lt_Some in Hi. exact Hi.
          + cbn [e_key]. f_equal. subst dest. rewrite Nat2Z.id in Hid.
            rewrite Hid in Hi. injection Hi as <-.
            destruct Hcases as [Hh|Hn]; [|congruence].
            unfold holds in Hh. rewrite Hk0 in Hh. symmetry. exact (Hso _ _ _ Hid Hk0 Hh).
        - exists i, e. split; [|exact Hk0]. unfold es1, array_set.
          destruct (Z.ltb_spec dest 0); [lia|].
          rewrite list_lookup_insert_ne; [exact Hi | lia]. }
      assert (Hkin1 : key_in es1 k).
      { exists (Z.to_nat dest). eexists. split.
        - unfold es1, array_set. destruct (Z.ltb_spec dest 0); [lia|].
          apply list_lookup_insert_eq. lia.
        - reflexivity. }
      assert (Hused1 : used es1 <= used es + 1).
      { unfold es1, array_set. destruct (Z.ltb_spec dest 0); [lia|].
        rewrite (used_insert _ _ d) by exact Hid. cbn [vacant e_key].
        destruct (vacant d); lia. }
      destruct (IH es1) as (es' & Hcopy & Hs' & Hf' & Hnil' & Hu' & Hkeys').
      * split; [exact Hcap|]. unfold es1. rewrite array_set_length. exact Hlen.
      * apply set_keeps_findable; assumption.
      * unfold es1, array_set. destruct (dest <? 0); [exact Hnil|].
        apply Forall_insert; [exact Hnil | exact Hdv].
      * lia.
      * intros k1 k2 H1 H2. apply Hco.
        -- destruct H1 as [H1|H1]; [left; auto|].
           destruct (Hkeys1 _ H1) as [->|]; auto.
        -- destruct H2 as [H2|H2]; [left; auto|].
           destruct (Hkeys1 _ H2) as [->|]; auto.
      * exists es'. split; [exact Hcopy|]. split; [exact Hs'|].
        split; [exact Hf'|]. split; [exact Hnil'|].
        split; [cbn [length]; lia|].
        intros k0. rewrite Hkeys'. split.
        -- intros [H0|H0]; [left; auto|].
           destruct (Hkeys1 _ H0) as [->|]; auto.
        -- intros [(i & e & Hi & Hk0)|H0].
           ++ destruct i as [|i].
              ** injection Hi as <-. right. congruence.
              ** left. exists i, e. auto.
           ++ right. auto.
    + destruct (IH es) as (es' & Hcopy & Hs' & Hf' & Hnil' & Hu' & Hkeys'); auto.
      * lia.
      * intros k1 k2 H1 H2. apply Hco.
        -- destruct H1; auto.
        -- destruct H2; auto.
      * exists es'. split; [exact Hcopy|]. split; [exact Hs'|].
        split; [exact Hf'|]. split; [exact Hnil'|].
        split; [cbn [length]; lia|].
        intros k0. rewrite Hkeys'. split.
        -- intros [H0|H0]; auto.
        -- intros [(i & e & Hi & Hk0)|H0]; [|auto].
           destruct i as [|i]; [injection Hi as <-; congruence|].
           left. exists i, e. auto.
Qed.

(** A fresh array: every entry unused. *)
Lemma fresh_entries (n : nat) :
  let es := replicate n {| e_key := None; e_value := NIL_VAL |} in
  used es = 0 /\ (forall k, ~ key_in es k) /\
  Forall (fun e => e_value e = NIL_VAL) es /\
  (forall capacity, keys_findable es capacity).
Proof.
  cbn zeta. split; [|split; [|split]].
  - induction n as [|n IH]; cbn [replicate used vacant e_key e_value IS_NIL];
      [reflexivity | lia].
  - intros k (i & e & Hi & Hk). apply lookup_replicate in Hi.
    destruct Hi as [-> _]. discriminate.
  - apply Forall_replicate. reflexivity.
  - intros capacity i e k Hi Hk. apply lookup_replicate in Hi.
    destruct Hi as [-> _]. discriminate.
Qed.

(** [adjustCapacity] to a larger array. *)
Lemma adjustCapacity_spec (t : Table) (capacity : Z) :
  Z.of_nat (length (t_entries t)) = t_capacity t ->
  t_capacity t < capacity -> coherent_keys (t_entries t) ->
  exists t',
    adjustCapacity t capacity = Ok t' /\
    t_count t' = 0 /\ t_capacity t' = capacity /\ table_ok t' /\
    (forall k, key_in (t_entries t') k <-> key_in (t_entries t) k) /\
    Forall (fun e => e_value e = NIL_VAL) (t_entries t') /\
    used (t_entries t') <= t_capacity t.
Proof.
  intros Hlen Hlt Hco. unfold adjustCapacity.
  rewrite firstn_all2 by lia.
  assert (Hcap : 0 < capacity) by lia.
  destruct (fresh_entries (Z.to_nat capacity)) as (Hu & Hnone & Hnil & Hf).
  cbn zeta in *.
  destruct (adjustCapacity_copy_spec capacity (t_entries t)
              (replicate (Z.to_nat capacity)
                 {| e_key := None; e_value := NIL_VAL |}))
    as (es' & Hcopy & Hs' & Hf' & Hnil' & Hu' & Hkeys').
  - split; [exact Hcap|]. rewrite length_replicate. lia.
  - apply Hf.
  - exact Hnil.
  - rewrite Hu. lia.
  - intros k1 k2 [H1|H1] [H2|H2]; try (destruct (Hnone _ H1));
      try (destruct (Hnone _ H2)). apply Hco; assumption.
  - rewrite Hcopy. cbn [Res_bind]. eexists. split; [reflexivity|].
    cbn [t_count t_capacity t_entries]. split; [reflexivity|].
    split; [reflexivity|]. split; [split; assumption|].
    split; [|split; [exact Hnil' | lia]].
    intros k. rewrite Hkeys'. split; [|auto].
    intros [H|H]; [exact H | destruct (Hnone _ H)].
Qed.

End TableGrowth.

(** ** The hash table, as its users see it *)

(** Case analysis over the entries of an array that is written out. *)
Ltac each_entry i H tac :=
  vm_compute in H;
  do 17 (try (destruct i as [|i]; [tac | simpl in H]));
  try discriminate H.

Lemma three_table_ok : table_ok three_table.
Proof.
  split; [split; vm_compute; [reflexivity | reflexivity]|].
  intros i e k Hi Hk.
  each_entry i Hi ltac:(injection Hi as <-; vm_compute in Hk;
                        try discriminate Hk; injection Hk as <-;
                        vm_compute; reflexivity).
Qed.

Lemma three_table_vacancy : has_vacancy (t_entries three_table).
Proof. exists 0%nat. eexists. split; vm_compute; reflexivity. Qed.

Lemma three_table_same_object (a : nat) (chars : string) :
  (3 < a)%nat -> same_object (t_entries three_table) (string_at a chars).
Proof.
  intros Ha i e k Hi Hk Hs. exfalso.
  each_entry i Hi ltac:(injection Hi as <-; vm_compute in Hk;
                        try discriminate Hk; injection Hk as <-;
                        unfold same_string, string_at in Hs; cbn [str_addr] in Hs;
                        apply Nat.eqb_eq in Hs; lia).
Qed.

Lemma three_table_same_a :
  same_object (t_entries three_table) (string_at 1%nat "a").
Proof.
  intros i e k Hi Hk Hs.
  each_entry i Hi ltac:(injection Hi as <-; vm_compute in Hk;
                        try discriminate Hk; injection Hk as <-;
                        vm_compute in Hs; try discriminate Hs;
                        vm_compute; reflexivity).
Qed.

Lemma three_table_counted : counted three_table.
Proof. split; vm_compute; discriminate. Qed.

(** X1: on a table whose stored keys are findable and that has an
    unused entry, [tableGet] returns for every key: a hit with the value
    stored under the key when there is one, a miss when there is none.
    When the count is zero it reports a miss without looking. *)
Theorem tableGet_returns_what_is_stored (t : Table) (key : ObjString) :
  table_ok t -> has_vacancy (t_entries t) -> same_object (t_entries t) key ->
  (t_count t = 0 -> tableGet t key = Ok None) /\
  (t_count t <> 0 ->
   exists r,
     tableGet t key = Ok r /\
     (forall v, r = Some v <-> stored (t_entries t) key v) /\
     (r = None <-> forall v, ~ stored (t_entries t) key v)).
Proof.
  intros Hok Hv Hso. split.
  - intros Hc. unfold tableGet. rewrite Hc. reflexivity.
  - intros Hc. destruct (tableGet_stored t key Hok Hv Hso Hc) as (r & Hr & Hst).
    exists r. split; [exact Hr|]. split; [exact Hst|]. split.
    + intros -> v Hs. apply Hst in Hs. discriminate.
    + intros Hno. destruct r as [v|]; [|reflexivity].
      destruct (Hno v). apply Hst. reflexivity.
Qed.

Lemma tableGet_returns_what_is_stored_witness :
  tableGet three_table (string_at 1%nat "a") = Ok (Some (NUMBER_VAL 1%float)) /\
  stored (t_entries three_table) (string_at 1%nat "a") (NUMBER_VAL 1%float) /\
  tableGet three_table (string_at 9%nat "z") = Ok None.
Proof.
  destruct (tableGet_returns_what_is_stored three_table (string_at 1%nat "a")
              three_table_ok three_table_vacancy three_table_same_a)
    as [_ Hhit].
  destruct Hhit as (r & Hr & Hst & _); [vm_compute; discriminate|].
  destruct (tableGet_returns_what_is_stored three_table (string_at 9%nat "z")
              three_table_ok three_table_vacancy
              (three_table_same_object 9 "z" ltac:(lia)))
    as [_ Hmiss].
  destruct Hmiss as (r' & Hr' & _ & Hnone); [vm_compute; discriminate|].
  assert (Ha : r = Some (NUMBER_VAL 1%float)).
  { pose proof Hr as Hr2. vm_compute in Hr2. congruence. }
  assert (Hz : r' = None).
  { pose proof Hr' as Hr2. vm_compute in Hr2. congruence. }
  split; [rewrite Hr, Ha; reflexivity|]. split; [apply Hst; exact Ha|].
  rewrite Hr', Hz. reflexivity.
Defined.

(** X2: whenever [tableSet] returns, growth or not, a [tableGet]
    of the same key right after it is a hit on the value just stored,
    unless the count of the table is then zero, and then it is a miss. *)
Theorem tableSet_then_tableGet (t t' : Table) (key : ObjString) (v : Value)
    (isNew : bool) :
  tableSet t key v = Ok (isNew, t') ->
  tableGet t' key = Ok (if t_count t' =? 0 then None else Some v).
Proof. apply tableSet_tableGet. Qed.

Lemma tableSet_then_tableGet_witness :
  exists t',
    tableSet three_table (string_at 9%nat "z") (BOOL_VAL true) = Ok (true, t') /\
    t_count t' = 4 /\
    tableGet t' (string_at 9%nat "z") = Ok (Some (BOOL_VAL true)).
Proof.
  eexists. split; [vm_compute; reflexivity|]. split; [reflexivity|].
  refine (tableSet_then_tableGet three_table _ (string_at 9%nat "z")
            (BOOL_VAL true) true _).
  vm_compute. reflexivity.
Defined.

(** X3: [tableSet] on a table that need not grow, whose stored
    keys are findable and that has an unused entry: it returns, reports a
    new key exactly when the key was not stored, stores the value under the
    key, leaves what is stored under every other key as it was, keeps every
    stored key findable, and adds at most one to the count.  If the count
    was right before, it is right after, and an unused entry is left. *)
Theorem tableSet_in_place_keeps_table (t : Table) (key : ObjString)
    (v : Value) :
  table_ok t -> has_vacancy (t_entries t) -> same_object (t_entries t) key ->
  over_load t = false ->
  exists isNew t',
    tableSet t key v = Ok (isNew, t') /\
    table_ok t' /\ same_object (t_entries t') key /\
    t_capacity t' = t_capacity t /\
    (isNew = true <-> forall v0, ~ stored (t_entries t) key v0) /\
    stored (t_entries t') key v /\
    (forall k' v', same_string key k' = false ->
       (stored (t_entries t') k' v' <-> stored (t_entries t) k' v')) /\
    (t_count t' = t_count t \/ t_count t' = t_count t + 1) /\
    (counted t -> counted t' /\ has_vacancy (t_entries t')).
Proof. apply tableSet_in_place. Qed.

Lemma tableSet_in_place_keeps_table_witness :
  exists t',
    tableSet three_table (string_at 1%nat "a") NIL_VAL = Ok (false, t') /\
    table_ok t' /\ counted t' /\
    stored (t_entries t') (string_at 1%nat "a") NIL_VAL /\
    stored (t_entries t') (string_at 2%nat "b") (NUMBER_VAL 2%float).
Proof.
  destruct (tableSet_in_place_keeps_table three_table (string_at 1%nat "a")
              NIL_VAL three_table_ok three_table_vacancy three_table_same_a)
    as (isNew & t' & Hset & Hok & _ & _ & _ & Hst & Hother & _ & Hc);
    [vm_compute; reflexivity|].
  exists t'.
  assert (HisNew : isNew = false).
  { vm_compute in Hset. congruence. }
  split; [rewrite Hset, HisNew; reflexivity|]. split; [exact Hok|].
  split; [exact (proj1 (Hc three_table_counted))|]. split; [exact Hst|].
  apply Hother; [vm_compute; reflexivity|].
  exists 5%nat. eexists. split; [vm_compute; reflexivity|].
  split; vm_compute; reflexivity.
Defined.

(** X4: [tableDelete] on a table whose stored keys are findable and
    that has an unused entry: it returns, reports whether the key was
    stored, leaves nothing stored under the key and everything stored under
    the other keys, keeps every stored key findable (the tombstone it puts
    in the entry does not cut the probe to a key behind it), keeps the
    unused entries unused and does not change the count, so a [tableGet] of
    the key right after it is a miss.  When the count is zero it deletes
    nothing, whatever is stored. *)
Theorem tableDelete_leaves_a_tombstone (t : Table) (key : ObjString) :
  table_ok t -> has_vacancy (t_entries t) -> same_object (t_entries t) key ->
  (t_count t = 0 -> tableDelete t key = Ok (false, t)) /\
  (t_count t <> 0 ->
   exists deleted t',
     tableDelete t key = Ok (deleted, t') /\
     table_ok t' /\ has_vacancy (t_entries t') /\
     t_count t' = t_count t /\ t_capacity t' = t_capacity t /\
     (deleted = true <-> exists v0, stored (t_entries t) key v0) /\
     (forall v0, ~ stored (t_entries t') key v0) /\
     (forall k' v', same_string key k' = false ->
        (stored (t_entries t') k' v' <-> stored (t_entries t) k' v')) /\
     (counted t -> counted t') /\
     tableGet t' key = Ok None).
Proof.
  intros Hok Hv Hso. split.
  - intros Hc. unfold tableDelete. rewrite Hc. reflexivity.
  - intros Hc.
    destruct (tableDelete_tombstone t key Hok Hv Hso Hc)
      as (deleted & t' & Hdel & Hok' & Hv' & Hso' & Hcount & Hcap & Hd & Hno
          & Hother & Hcounted).
    exists deleted, t'. split; [exact Hdel|]. split; [exact Hok'|].
    split; [exact Hv'|]. split; [exact Hcount|]. split; [exact Hcap|].
    split; [exact Hd|]. split; [exact Hno|]. split; [exact Hother|].
    split; [exact Hcounted|].
    destruct (tableGet_stored t' key Hok' Hv' Hso') as (r & Hr & Hst);
      [congruence|].
    rewrite Hr. destruct r as [v|]; [|reflexivity].
    destruct (Hno v). apply Hst. reflexivity.
Qed.

Lemma tableDelete_leaves_a_tombstone_witness :
  exists t',
    tableDelete three_table (string_at 1%nat "a") = Ok (true, t') /\
    tableGet t' (string_at 1%nat "a") = Ok None /\
    stored (t_entries t') (string_at 2%nat "b") (NUMBER_VAL 2%float) /\
    t_count t' = 3.
Proof.
  destruct (tableDelete_leaves_a_tombstone three_table (string_at 1%nat "a")
              three_table_ok three_table_vacancy three_table_same_a)
    as [_ Hdel].
  destruct Hdel as (deleted & t' & Hdel & _ & _ & Hcount & _ & _ & _ & Hother
                    & _ & Hget); [vm_compute; discriminate|].
  exists t'.
  assert (Hd : deleted = true).
  { pose proof Hdel as H. vm_compute in H. congruence. }
  split; [rewrite Hdel, Hd; reflexivity|]. split; [exact Hget|].
  split; [|rewrite Hcount; reflexivity].
  apply Hother; [vm_compute; reflexivity|].
  exists 5%nat. eexists. split; [vm_compute; reflexivity|].
  split; vm_compute; reflexivity.
Defined.

(** X5: while the count of a table is at least the number of its
    entries in use and within the load [tableSet] allows, an entry of the
    array is unused, so the probe of [findEntry] ends for every key: it
    returns an index of the array, of an entry that holds the key or of one
    with a null key. *)
Theorem counted_table_probe_ends (t : Table) (key : ObjString) :
  sized (t_entries t) (t_capacity t) -> counted t ->
  exists idx e,
    findEntry (t_entries t) (t_capacity t) key = Ok idx /\
    0 <= idx < t_capacity t /\
    array_get (t_entries t) idx = Ok e /\
    (holds key e = true \/ e_key e = None).
Proof.
  intros Hs Hc. apply findEntry_returns; [exact Hs|].
  apply counted_vacancy; assumption.
Qed.

Lemma counted_table_probe_ends_witness :
  exists idx,
    findEntry (t_entries three_table) (t_capacity three_table)
      (string_at 9%nat "z") = Ok idx /\
    0 <= idx < 8.
Proof.
  destruct (counted_table_probe_ends three_table (string_at 9%nat "z")
              (proj1 three_table_ok) three_table_counted)
    as (idx & e & Hidx & Hr & _).
  exists idx. split; [exact Hidx | exact Hr].
Defined.

Lemma coherent_keys_of (es : list Entry) :
  (forall i j e1 e2 k1 k2,
     es !! i = Some e1 -> es !! j = Some e2 ->
     e_key e1 = Some k1 -> e_key e2 = Some k2 ->
     same_string k1 k2 = true -> i = j) ->
  coherent_keys es.
Proof.
  intros H k1 k2 (i & e1 & Hi & Hk1) (j & e2 & Hj & Hk2) Hs.
  pose proof (H i j e1 e2 k1 k2 Hi Hj Hk1 Hk2 Hs) as <-. congruence.
Qed.

(** The body of [tableSet] after a growth. *)
Lemma tableSet_grows (t : Table) (key : ObjString) (v : Value) :
  Z.of_nat (length (t_entries t)) = t_capacity t ->
  coherent_keys (t_entries t) -> same_object (t_entries t) key ->
  over_load t = true ->
  exists isNew t',
    tableSet t key v = Ok (isNew, t') /\
    table_ok t' /\
    t_capacity t' = GROW_CAPACITY (t_capacity t) /\
    t_count t' = (if isNew then 1 else 0) /\
    (isNew = true <-> forall v0, ~ stored (t_entries t) key v0) /\
    stored (t_entries t') key v /\
    (forall k' v', same_string key k' = false ->
       (stored (t_entries t') k' v' <->
        v' = NIL_VAL /\ exists v0, stored (t_entries t) k' v0)).
Proof.
  intros Hlen Hco Hso Hload.
  assert (Hgrow : t_capacity t < GROW_CAPACITY (t_capacity t) /\
                  8 <= GROW_CAPACITY (t_capacity t)).
  { unfold GROW_CAPACITY. destruct (Z.ltb_spec (t_capacity t) 8); lia. }
  destruct (adjustCapacity_spec t (GROW_CAPACITY (t_capacity t)) Hlen
              (proj1 Hgrow) Hco)
    as (t1 & Hadj & Hcount1 & Hcap1 & Hok1 & Hkeys1 & Hnil1 & Hused1).
  assert (Hload1 : over_load t1 = false).
  { unfold over_load. rewrite Hcount1, Hcap1. apply Z.ltb_ge. lia. }
  assert (Heq : tableSet t key v = tableSet t1 key v).
  { unfold tableSet. rewrite Hload, Hload1, Hadj. reflexivity. }
  assert (Hv1 : has_vacancy (t_entries t1)).
  { apply used_vacancy. destruct Hok1 as [[_ Hl1] _]. lia. }
  assert (Hstored : forall k v0,
            stored (t_entries t1) k v0 <->
            v0 = NIL_VAL /\ exists v1, stored (t_entries t) k v1).
  { intros k v0. split.
    - intros (i & e & Hi & Hh & <-). split.
      + rewrite Forall_forall in Hnil1. apply Hnil1.
        eapply list_elem_of_lookup_2. exact Hi.
      + unfold holds in Hh. destruct (e_key e) as [k0|] eqn:Hk0; [|discriminate].
        destruct (proj1 (Hkeys1 k0)) as (j & e1 & Hj & Hk1);
          [exists i, e; auto|].
        exists (e_value e1), j, e1. unfold holds. rewrite Hk1. auto.
    - intros [-> (v1 & j & e1 & Hj & Hh & _)].
      unfold holds in Hh. destruct (e_key e1) as [k0|] eqn:Hk0; [|discriminate].
      destruct (proj2 (Hkeys1 k0)) as (i & e & Hi & Hk);
        [exists j, e1; auto|].
      exists i, e. unfold holds. rewrite Hk. split; [exact Hi|].
      split; [exact Hh|].
      rewrite Forall_forall in Hnil1. apply Hnil1.
      eapply list_elem_of_lookup_2. exact Hi. }
  assert (Hso1 : same_object (t_entries t1) key).
  { intros i e k Hi Hk Hs.
    destruct (proj1 (Hkeys1 k)) as (j & e1 & Hj & Hk1); [exists i, e; auto|].
    exact (Hso j e1 k Hj Hk1 Hs). }
  destruct (findEntry_returns _ _ key (proj1 Hok1) Hv1)
    as (idx & e0 & Hidx & Hr & He0 & Hcases).
  assert (Hi0 : t_entries t1 !! Z.to_nat idx = Some e0).
  { apply array_get_Ok in He0. tauto. }
  assert (Hnil0 : e_value e0 = NIL_VAL).
  { rewrite Forall_forall in Hnil1. apply Hnil1.
    eapply list_elem_of_lookup_2. exact Hi0. }
  destruct (tableSet_in_place t1 key v Hok1 Hv1 Hso1 Hload1)
    as (isNew & t' & Hset & Hok' & _ & Hcap' & HisNew & Hst' & Hother & _).
  exists isNew, t'. split; [rewrite Heq; exact Hset|].
  unfold tableSet in Hset. rewrite Hload1 in Hset. cbn [Res_bind] in Hset.
  rewrite Hidx in Hset. cbn [Res_bind] in Hset. rewrite He0 in Hset.
  cbn [Res_bind] in Hset. injection Hset as HisNew' Ht'.
  split; [exact Hok'|]. split; [congruence|]. split.
  { rewrite <- Ht', <- HisNew'. cbn [t_count]. rewrite Hnil0, Hcount1.
    destruct (e_key e0); reflexivity. }
  split.
  { rewrite HisNew. split; intros H v0 Hs0.
    - apply (H NIL_VAL). apply Hstored. split; [reflexivity|]. eauto.
    - apply Hstored in Hs0. destruct Hs0 as [_ [v1 Hs1]]. exact (H v1 Hs1). }
  split; [exact Hst'|].
  intros k' v' Hk'. rewrite (Hother k' v' Hk'). apply Hstored.
Qed.

(** X6: [tableSet] on a table that has to grow, its array as long as
    its capacity says (the empty table of [initTable] is one): it returns,
    in an array of GROW_CAPACITY entries in which every key of the old
    array is findable, and with the value stored under the key.  But
    [adjustCapacity] has copied the keys without their values and has not
    counted them: every other key that was stored is now stored with Nil,
    and the count is one if the key is new and zero if it is not, so that
    [tableGet] of a key that was there already misses it. *)
Theorem tableSet_growth_keeps_keys_only (t : Table) (key : ObjString)
    (v : Value) :
  Z.of_nat (length (t_entries t)) = t_capacity t ->
  coherent_keys (t_entries t) -> same_object (t_entries t) key ->
  over_load t = true ->
  exists isNew t',
    tableSet t key v = Ok (isNew, t') /\
    table_ok t' /\
    t_capacity t' = GROW_CAPACITY (t_capacity t) /\
    t_count t' = (if isNew then 1 else 0) /\
    (isNew = true <-> forall v0, ~ stored (t_entries t) key v0) /\
    stored (t_entries t') key v /\
    (forall k' v', same_string key k' = false ->
       (stored (t_entries t') k' v' <->
        v' = NIL_VAL /\ exists v0, stored (t_entries t) k' v0)) /\
    tableGet t' key = Ok (if isNew then Some v else None).
Proof.
  intros Hlen Hco Hso Hload.
  destruct (tableSet_grows t key v Hlen Hco Hso Hload)
    as (isNew & t' & Hset & Hok & Hcap & Hcount & HisNew & Hst & Hother).
  exists isNew, t'. split; [exact Hset|]. split; [exact Hok|].
  split; [exact Hcap|]. split; [exact Hcount|]. split; [exact HisNew|].
  split; [exact Hst|]. split; [exact Hother|].
  rewrite (tableSet_tableGet _ _ _ _ _ Hset), Hcount.
  destruct isNew; reflexivity.
Qed.

Lemma six_table_coherent : coherent_keys (t_entries six_table).
Proof.
  apply coherent_keys_of. intros i j e1 e2 k1 k2 Hi Hj Hk1 Hk2 Hs.
  each_entry i Hi ltac:(injection Hi as <-; vm_compute in Hk1;
    try discriminate Hk1; injection Hk1 as <-;
    each_entry j Hj ltac:(injection Hj as <-; vm_compute in Hk2;
      try discriminate Hk2; injection Hk2 as <-;
      first [reflexivity | vm_compute in Hs; discriminate Hs])).
Qed.

Lemma six_table_same_object (a : nat) (chars : string) :
  (6 < a)%nat -> same_object (t_entries six_table) (string_at a chars).
Proof.
  intros Ha i e k Hi Hk Hs. exfalso.
  each_entry i Hi ltac:(injection Hi as <-; vm_compute in Hk;
                        try discriminate Hk; injection Hk as <-;
                        unfold same_string, string_at in Hs;
                        cbn [str_addr] in Hs;
                        apply Nat.eqb_eq in Hs; lia).
Qed.

Lemma tableSet_growth_keeps_keys_only_witness :
  stored (t_entries six_table) (string_at 1%nat "a") (NUMBER_VAL 1%float) /\
  exists t',
    tableSet six_table (string_at 7%nat "g") (NUMBER_VAL 7%float)
      = Ok (true, t') /\
    t_count t' = 1 /\ t_capacity t' = 16 /\
    stored (t_entries t') (string_at 1%nat "a") NIL_VAL /\
    tableGet t' (string_at 7%nat "g") = Ok (Some (NUMBER_VAL 7%float)).
Proof.
  assert (Ha : stored (t_entries six_table) (string_at 1%nat "a")
                 (NUMBER_VAL 1%float)).
  { exists 4%nat. eexists. split; [vm_compute; reflexivity|].
    split; vm_compute; reflexivity. }
  split; [exact Ha|].
  destruct (tableSet_growth_keeps_keys_only six_table (string_at 7%nat "g")
              (NUMBER_VAL 7%float))
    as (isNew & t' & Hset & _ & Hcap & Hcount & _ & _ & Hother & Hget);
    [vm_compute; reflexivity | exact six_table_coherent
    | exact (six_table_same_object 7 "g" ltac:(lia))
    | vm_compute; reflexivity |].
  assert (Hn : isNew = true).
  { pose proof Hset as H. vm_compute in H. congruence. }
  exists t'. rewrite Hset, Hcount, Hcap, Hget, Hn.
  split; [reflexivity|]. split; [reflexivity|]. split; [reflexivity|].
  split; [|reflexivity].
  apply Hother; [vm_compute; reflexivity|]. split; [reflexivity|]. eauto.
Defined.

(** ** [tableFindString] *)

Section FindString.

Implicit Types (es : list Entry).

(** Whatever the loop returns has the bytes, the length and the hash asked
    for, and is a key of the array. *)
Lemma tableFindString_probe_sound (fuel : nat) es (capacity : Z)
    (chars : string) (length hash : Z) :
  forall (index : Z) (s : ObjString),
    tableFindString_probe fuel es capacity chars length hash index
      = Ok (Some s) ->
    key_in es s /\ str_hash s = hash /\
    Z.of_nat (String.length (str_chars s)) = length /\
    str_chars s = substring 0 (Z.to_nat length) chars.
Proof.
  induction fuel as [|fuel IH]; intros index s H; [discriminate|].
  cbn [tableFindString_probe] in H. inv_bind H. rename a into entry.
  assert (Hin : es !! Z.to_nat index = Some entry).
  { apply array_get_Ok in Ha. tauto. }
  destruct (e_key entry) as [k|] eqn:Hk.
  - destruct ((Z.of_nat (String.length (str_chars k)) =? length)
              && (str_hash k =? hash)) eqn:Htest; [|eauto].
    inv_bind H. rename a into same. destruct same; [|eauto].
    injection H as <-. apply andb_true_iff in Htest. destruct Htest as [Hl Hh].
    apply Z.eqb_eq in Hl, Hh. split; [exists (Z.to_nat index), entry; auto|].
    split; [exact Hh|]. split; [exact Hl|].
    unfold same_bytes in Ha0.
    destruct (Z.of_nat (String.length chars) <? length); [discriminate|].
    injection Ha0 as Heq. apply String.eqb_eq in Heq. exact Heq.
  - destruct (IS_NIL (e_value entry)); [discriminate | eauto].
Qed.

(** With an unused entry in the array and a buffer of [length] bytes the
    loop returns. *)
Lemma tableFindString_probe_total (fuel : nat) es (capacity : Z)
    (chars : string) (length hash : Z) (v : nat) (ev : Entry) :
  sized es capacity -> es !! v = Some ev -> vacant ev = true ->
  length <= Z.of_nat (String.length chars) ->
  forall index : Z,
    0 <= index < capacity ->
    (Z.of_nat v - index) mod capacity < Z.of_nat fuel ->
    exists r,
      tableFindString_probe fuel es capacity chars length hash index = Ok r.
Proof.
  intros [Hcap Hlen] Hv Hvac Hbuf.
  assert (Hvr : 0 <= Z.of_nat v < capacity).
  { apply lookup_lt_Some in Hv. lia. }
  induction fuel as [|fuel IH]; intros index Hi Hd.
  - pose proof (Z.mod_pos_bound (Z.of_nat v - index) capacity Hcap). lia.
  - cbn [tableFindString_probe].
    destruct (es !! Z.to_nat index) as [entry|] eqn:Hentry.
    2:{ apply lookup_ge_None in Hentry. lia. }
    assert (Hget : array_get es index = Ok entry).
    { apply array_get_Ok. split; [lia | exact Hentry]. }
    rewrite Hget. cbn [Res_bind].
    assert (Hnext : index <> Z.of_nat v ->
              exists r,
                tableFindString_probe fuel es capacity chars length hash
                  ((index + 1) mod capacity) = Ok r).
    { intros Hne. apply IH; [apply Z.mod_pos_bound; lia|].
      rewrite Zminus_mod_idemp_r.
      set (d := (Z.of_nat v - index) mod capacity) in *.
      pose proof (Z.mod_pos_bound (Z.of_nat v - index) capacity Hcap) as Hb.
      fold d in Hb.
      pose proof (Z.div_mod (Z.of_nat v - index) capacity ltac:(lia)) as Hq.
      fold d in Hq.
      assert (Hd0 : d <> 0).
      { intros H0. rewrite H0 in Hq.
        assert ((Z.of_nat v - index) / capacity = 0) by nia. nia. }
      rewrite <- (Z.mod_unique_pos (Z.of_nat v - (index + 1)) capacity
                    ((Z.of_nat v - index) / capacity) (d - 1)); lia. }
    assert (Hat : index = Z.of_nat v -> entry = ev).
    { intros ->. rewrite Nat2Z.id in Hentry. congruence. }
    unfold vacant in Hvac.
    assert (Hkey : forall k, e_key entry = Some k -> index <> Z.of_nat v).
    { intros k Hk He. rewrite (Hat He) in Hk. rewrite Hk in Hvac.
      discriminate. }
    destruct (e_key entry) as [k|] eqn:Hk.
    + destruct ((Z.of_nat (String.length (str_chars k)) =? length)
                && (str_hash k =? hash)); [|apply Hnext; eauto].
      unfold same_bytes.
      destruct (Z.ltb_spec (Z.of_nat (String.length chars)) length); [lia|].
      cbn [Res_bind].
      destruct (String.eqb _ _); [eauto | apply Hnext; eauto].
    + destruct (IS_NIL (e_value entry)) eqn:Hnil; [eauto|].
      apply Hnext. intros He. rewrite (Hat He) in Hk, Hnil.
      rewrite Hk in Hvac. congruence.
Qed.

(** The loop meets a stored key of these bytes before it meets an unused
    entry. *)
Lemma tableFindString_probe_complete (fuel : nat) es (capacity : Z)
    (chars : string) (length : Z) (s : ObjString) (j : Z) (found : Entry) :
  array_get es j = Ok found -> holds s found = true ->
  same_object es s ->
  Z.of_nat (String.length (str_chars s)) = length ->
  str_chars s = substring 0 (Z.to_nat length) chars ->
  length <= Z.of_nat (String.length chars) ->
  forall (index : Z) (tombstone : option Z),
    (forall t, tombstone = Some t -> t <> j) ->
    findEntry_probe fuel es capacity s index tombstone = Ok j ->
    exists s',
      tableFindString_probe fuel es capacity chars length (str_hash s) index
        = Ok (Some s').
Proof.
  intros Hj Hfound Hso Hlen Hbytes Hbuf.
  induction fuel as [|fuel IH]; intros index tombstone Ht H; [discriminate|].
  cbn [findEntry_probe] in H. cbn [tableFindString_probe].
  inv_bind H. rename a into entry. rewrite Ha. cbn [Res_bind].
  assert (Hin : es !! Z.to_nat index = Some entry).
  { apply array_get_Ok in Ha. tauto. }
  destruct (e_key entry) as [k|] eqn:Hk.
  - destruct (same_string k s) eqn:Hs.
    + rewrite (Hso _ _ _ Hin Hk Hs), Hlen, !Z.eqb_refl. cbn [andb].
      unfold same_bytes.
      destruct (Z.ltb_spec (Z.of_nat (String.length chars)) length); [lia|].
      cbn [Res_bind]. rewrite <- Hbytes, String.eqb_refl. eauto.
    + destruct ((Z.of_nat (String.length (str_chars k)) =? length)
                && (str_hash k =? str_hash s)); [|eapply IH; eauto].
      unfold same_bytes.
      destruct (Z.ltb_spec (Z.of_nat (String.length chars)) length); [lia|].
      cbn [Res_bind]. destruct (String.eqb _ _); [eauto | eapply IH; eauto].
  - destruct (IS_NIL (e_value entry)) eqn:Hnil.
    + exfalso. injection H as H. destruct tombstone as [t|].
      * exact (Ht t eq_refl H).
      * subst index. rewrite Ha in Hj. injection Hj as <-.
        unfold holds in Hfound. rewrite Hk in Hfound. discriminate.
    + eapply IH; [|exact H]. intros t Hsome. destruct tombstone as [t0|].
      * apply Ht. exact Hsome.
      * injection Hsome as <-. intros ->. rewrite Ha in Hj.
        injection Hj as <-. unfold holds in Hfound. rewrite Hk in Hfound.
        discriminate.
Qed.

End FindString.

(** X7: [tableFindString] only ever returns a key of the table
    that has the hash, the length and the bytes it was asked for.  When the
    stored keys are findable and the table holds a key of these bytes and
    this hash, it returns one; with an unused entry in the array and a
    buffer of [length] bytes it returns for every request; when the count
    is zero it returns the null pointer without looking. *)
Theorem tableFindString_finds_equal_bytes (t : Table) (chars : string)
    (length hash : Z) :
  (forall s,
     tableFindString t chars length hash = Ok (Some s) ->
     key_in (t_entries t) s /\ str_hash s = hash /\
     Z.of_nat (String.length (str_chars s)) = length /\
     str_chars s = substring 0 (Z.to_nat length) chars) /\
  (t_count t = 0 -> tableFindString t chars length hash = Ok None) /\
  (table_ok t -> t_count t <> 0 ->
   length <= Z.of_nat (String.length chars) ->
   (has_vacancy (t_entries t) ->
    exists r, tableFindString t chars length hash = Ok r) /\
   (forall s,
      key_in (t_entries t) s -> same_object (t_entries t) s ->
      str_hash s = hash ->
      Z.of_nat (String.length (str_chars s)) = length ->
      str_chars s = substring 0 (Z.to_nat length) chars ->
      exists s',
        tableFindString t chars length hash = Ok (Some s') /\
        str_chars s' = str_chars s)).
Proof.
  split; [|split].
  - unfold tableFindString. intros s H.
    destruct (t_count t =? 0); [discriminate|].
    destruct (t_capacity t <=? 0); [discriminate|].
    eapply tableFindString_probe_sound. exact H.
  - intros Hc. unfold tableFindString. rewrite Hc. reflexivity.
  - intros [Hs Hf] Hc Hbuf. pose proof Hs as [Hcap Hlen].
    unfold tableFindString.
    destruct (Z.eqb_spec (t_count t) 0); [contradiction|].
    destruct (Z.leb_spec (t_capacity t) 0); [lia|]. split.
    + intros (v & ev & Hv & Hvac).
      apply (tableFindString_probe_total _ _ _ _ _ _ v ev); auto.
      * apply Z.mod_pos_bound. lia.
      * pose proof (Z.mod_pos_bound
                      (Z.of_nat v - hash mod t_capacity t) (t_capacity t) Hcap).
        lia.
    + intros s (i & e & Hi & Hk) Hso Hh Hl Hb.
      pose proof (Hf i e s Hi Hk) as Hfind. unfold findEntry in Hfind.
      destruct (Z.leb_spec (t_capacity t) 0); [lia|].
      destruct (tableFindString_probe_complete (Z.to_nat (t_capacity t))
                  (t_entries t) (t_capacity t) chars length s (Z.of_nat i) e)
        with (index := str_hash s mod t_capacity t) (tombstone := @None Z)
        as (s' & Hs');
        [ rewrite array_get_nat, Hi; reflexivity
        | unfold holds; rewrite Hk; apply same_string_refl
        | exact Hso | exact Hl | exact Hb | exact Hbuf
        | discriminate | exact Hfind | ].
      rewrite Hh in Hs'. exists s'. split; [exact Hs'|].
      destruct (tableFindString_probe_sound _ _ _ _ _ _ _ _ Hs')
        as (_ & _ & _ & Hb'). congruence.
Qed.

Lemma tableFindString_finds_equal_bytes_witness :
  tableFindString three_table "abc" 1 (hashString "a") =
    Ok (Some (string_at 1%nat "a")) /\
  tableFindString three_table "zzz" 1 (hashString "z") = Ok None.
Proof.
  destruct (tableFindString_finds_equal_bytes three_table "abc" 1
              (hashString "a")) as (Hsound & _ & Hfind).
  destruct Hfind as [_ Hfind];
    [exact three_table_ok | vm_compute; discriminate | vm_compute; discriminate|].
  destruct (Hfind (string_at 1%nat "a")) as (s' & Hs' & _);
    [ exists 4%nat; eexists; split; vm_compute; reflexivity
    | exact three_table_same_a | reflexivity | reflexivity | reflexivity |].
  split; [|vm_compute; reflexivity].
  rewrite Hs'. pose proof Hs' as H. vm_compute in H. injection H as <-.
  vm_compute. reflexivity.
Defined.
Open Scope string_scope.
Open Scope list_scope.
Open Scope Z_scope.


(** ** The machine: errors *)

Section MachineMore.

Variable strtod : string -> float.

(** The trace of [runtimeError]: one line for each frame. *)
Lemma trace_returns (fs : list CallFrame) :
  Forall has_line fs ->
  exists t,
    trace fs = Ok t /\
    forall i frame, fs !! i = Some frame ->
      exists s, trace_line frame = Ok s /\ t !! i = Some s.
Proof.
  induction fs as [|f fs IH]; intros Hall.
  - exists []. split; [reflexivity|]. intros i frame Hi. destruct i; discriminate.
  - apply Forall_cons in Hall as [Hf Hall].
    destruct (IH Hall) as (t & Ht & Hlines).
    assert (Hline : exists s, trace_line f = Ok s).
    { unfold trace_line, has_line in *.
      destruct (lines (chunk (function (closure f))) !! Z.to_nat (ip f - 1))
        as [line|] eqn:Hl.
      - unfold array_get. destruct (Z.ltb_spec (ip f - 1) 0); [lia|].
        rewrite Hl. cbn [of_option Res_bind]. eauto.
      - apply lookup_ge_None in Hl. lia. }
    destruct Hline as (s & Hs). exists (s :: t). cbn [trace].
    rewrite Hs, Ht. cbn [Res_bind]. split; [reflexivity|].
    intros [|i] frame Hi.
    + injection Hi as <-. exists s. auto.
    + apply Hlines. exact Hi.
Qed.

Lemma trace_line_stuck (frame : CallFrame) :
  ~ has_line frame -> trace_line frame = Undefined.
Proof.
  unfold has_line, trace_line, array_get. intros Hno.
  destruct (Z.ltb_spec (ip frame - 1) 0); [reflexivity|].
  destruct (lines (chunk (function (closure frame))) !! Z.to_nat (ip frame - 1))
    as [line|] eqn:Hl; [|reflexivity].
  apply lookup_lt_Some in Hl. lia.
Qed.

(** X8: [runtimeError] writes the message and then one line
    for each call frame, the innermost first, each with the line of the
    instruction the frame was at; it empties the value stack, the frames
    and the open-upvalue list, and touches nothing else.  It reads the line
    at [ip - 1]: for a frame that has run no instruction, or whose [ip] is
    past the lines of its chunk, that read is outside the array. *)
Theorem runtimeError_reports_and_resets (message : string) (vm : VM) :
  (Forall has_line (frames vm) ->
   exists t vm',
     runtimeError message vm = Ok vm' /\
     err vm' = err vm ++ message :: t /\
     length t = length (frames vm) /\
     (forall i frame, frames vm !! i = Some frame ->
        exists s, trace_line frame = Ok s /\ t !! i = Some s) /\
     stackTop vm' = 0 /\ frames vm' = [] /\ openUpvalues vm' = None /\
     stack vm' = stack vm /\ globals vm' = globals vm /\
     heap vm' = heap vm /\ out vm' = out vm) /\
  (forall frame rest,
     frames vm = frame :: rest -> ~ has_line frame ->
     runtimeError message vm = Undefined).
Proof.
  split.
  - intros Hall. destruct (trace_returns _ Hall) as (t & Ht & Hlines).
    exists t. eexists. unfold runtimeError. rewrite Ht. cbn [Res_bind].
    split; [reflexivity|]. cbn. split; [reflexivity|].
    split; [exact (trace_length _ _ Ht)|]. split; [exact Hlines|].
    repeat split.
  - intros frame rest Hf Hno. unfold runtimeError. rewrite Hf. cbn [trace].
    rewrite (trace_line_stuck _ Hno). reflexivity.
Qed.

(** ** The machine: arithmetic *)

Lemma peek_pop (vm : VM) (v : Value) :
  peek 0 vm = Ok v ->
  pop vm = Ok (v, with_stackTop (stackTop vm - 1) vm).
Proof.
  unfold peek, pop. cbn [stack stackTop with_stackTop].
  replace (stackTop vm - 1 - 0) with (stackTop vm - 1) by lia.
  intros ->. reflexivity.
Qed.

Lemma peek_pop2 (vm : VM) (a b : Value) :
  peek 0 vm = Ok b -> peek 1 vm = Ok a ->
  pop vm = Ok (b, with_stackTop (stackTop vm - 1) vm) /\
  pop (with_stackTop (stackTop vm - 1) vm) =
    Ok (a, with_stackTop (stackTop vm - 2) vm).
Proof.
  intros Hb Ha. split; [exact (peek_pop _ _ Hb)|].
  unfold peek, pop in *. cbn [stack stackTop with_stackTop].
  replace (stackTop vm - 1 - 1) with (stackTop vm - 1 - 1) in * by lia.
  rewrite Ha. cbn [Res_bind]. do 2 f_equal.
  unfold with_stackTop. cbn. f_equal. lia.
Qed.

(** X9: the seven instructions that take two numbers check their
    operands before they pop them: when the value on top is no number, or
    the one under it is none, the run ends with the runtime error
    "Operands must be numbers." and the stack is not popped but reset.
    With two numbers the five instructions of double arithmetic and
    comparison pop both, the right operand first, and push the result. *)
Theorem numeric_operands_checked (o : OpCode) (vm : VM) (a b : Value) :
  o ∈ numeric_ops ->
  peek 0 vm = Ok b -> (IS_NUMBER b = true -> peek 1 vm = Ok a) ->
  (IS_NUMBER b && IS_NUMBER a = false ->
   exec strtod o vm =
     (vm' <- runtimeError "Operands must be numbers." vm ;;
      Ok (Halted INTERPRET_RUNTIME_ERROR vm'))) /\
  (forall x y : float,
     a = NUMBER_VAL x -> b = NUMBER_VAL y ->
     forall result : Value,
       match o with
       | OP_GREATER => Some (BOOL_VAL (PrimFloat.ltb y x))
       | OP_LESS => Some (BOOL_VAL (PrimFloat.ltb x y))
       | OP_SUBTRACT => Some (NUMBER_VAL (PrimFloat.sub x y))
       | OP_MULTIPLY => Some (NUMBER_VAL (PrimFloat.mul x y))
       | OP_DIVIDE => Some (NUMBER_VAL (PrimFloat.div x y))
       | _ => None
       end = Some result ->
       exec strtod o vm =
         Ok (Running (push result (with_stackTop (stackTop vm - 2) vm)))).
Proof.
  intros Ho Hb Ha. split.
  - intros Hno.
    assert (Hbody :
      (v0 <- peek 0 vm ;;
       v1 <- (if IS_NUMBER v0 then peek 1 vm else Ok NIL_VAL) ;;
       if negb (IS_NUMBER v0) || negb (IS_NUMBER v1) then
         vm' <- runtimeError "Operands must be numbers." vm ;;
         Ok (Halted INTERPRET_RUNTIME_ERROR vm')
       else Undefined) =
      (vm' <- runtimeError "Operands must be numbers." vm ;;
       Ok (Halted INTERPRET_RUNTIME_ERROR vm'))).
    { rewrite Hb. cbn [Res_bind]. destruct (IS_NUMBER b) eqn:Eb.
      - rewrite (Ha eq_refl). cbn [Res_bind]. cbn [andb] in Hno.
        rewrite Hno. reflexivity.
      - reflexivity. }
    unfold numeric_ops in Ho.
    repeat (apply elem_of_cons in Ho as [->|Ho]);
      try (apply elem_of_nil in Ho; destruct Ho);
      cbn [exec]; unfold BINARY_OP, intDivison, modulus;
      rewrite Hb; cbn [Res_bind]; destruct (IS_NUMBER b) eqn:Eb;
      try reflexivity; rewrite (Ha eq_refl); cbn [Res_bind];
      cbn [andb] in Hno; rewrite Hno; reflexivity.
  - intros x y -> -> result Hres.
    specialize (Ha eq_refl).
    destruct (peek_pop2 vm _ _ Hb Ha) as [Hp1 Hp2].
    destruct o; try discriminate Hres; injection Hres as <-;
      cbn [exec]; unfold BINARY_OP; rewrite Hb; cbn [Res_bind IS_NUMBER];
      rewrite Ha; cbn [Res_bind IS_NUMBER negb orb];
      rewrite Hp1; cbn [Res_bind fst snd AS_NUMBER];
      rewrite Hp2; reflexivity.
Qed.

(** The quotient of a double by a zero is an infinity or no number, and the
    conversion of either to [int] is undefined. *)
Lemma double_to_int_div_zero (x y : float) (s : bool) :
  FloatOps.Prim2SF y = SpecFloat.S754_zero s ->
  double_to_int (PrimFloat.div x y) = Undefined.
Proof.
  intros Hy. unfold double_to_int.
  rewrite FloatAxioms.div_spec, Hy.
  destruct (FloatOps.Prim2SF x); reflexivity.
Qed.

Lemma double_to_int_cases (x : float) :
  (exists z, double_to_int x = Ok z) \/ double_to_int x = Undefined.
Proof.
  unfold double_to_int. destruct (FloatOps.Prim2SF x); eauto.
  match goal with |- context [if ?b then _ else _] => destruct b end; eauto.
Qed.

(** X10: no instruction checks for a zero divisor.  OP_DIVIDE
    divides doubles, whatever the divisor.  OP_INT_DIVIDE converts both
    operands to [int] and divides them: with a divisor that truncates to
    zero that division is undefined.  OP_MODULUS converts the quotient of
    the doubles to [int]: with a zero divisor the quotient is an infinity
    or no number and the conversion is undefined.  Neither reports a
    runtime error. *)
Theorem zero_divisor_is_not_checked (vm : VM) (x y : float) :
  peek 0 vm = Ok (NUMBER_VAL y) -> peek 1 vm = Ok (NUMBER_VAL x) ->
  exec strtod OP_DIVIDE vm =
    Ok (Running (push (NUMBER_VAL (PrimFloat.div x y))
                   (with_stackTop (stackTop vm - 2) vm))) /\
  (double_to_int y = Ok 0 -> exec strtod OP_INT_DIVIDE vm = Undefined) /\
  (forall s, FloatOps.Prim2SF y = SpecFloat.S754_zero s ->
             exec strtod OP_MODULUS vm = Undefined).
Proof.
  intros Hb Ha. destruct (peek_pop2 vm _ _ Hb Ha) as [Hp1 Hp2].
  split; [|split].
  - cbn [exec]. unfold BINARY_OP. rewrite Hb. cbn [Res_bind IS_NUMBER].
    rewrite Ha. cbn [Res_bind IS_NUMBER negb orb].
    rewrite Hp1. cbn [Res_bind fst snd AS_NUMBER]. rewrite Hp2. reflexivity.
  - intros Hy. cbn [exec]. unfold intDivison. rewrite Hb.
    cbn [Res_bind IS_NUMBER]. rewrite Ha. cbn [Res_bind IS_NUMBER negb orb].
    rewrite Hp1. cbn [Res_bind fst snd AS_NUMBER]. rewrite Hp2.
    cbn [Res_bind fst snd AS_NUMBER]. rewrite Hy.
    destruct (double_to_int_cases x) as [[z ->]| ->]; reflexivity.
  - intros s Hy. cbn [exec]. unfold modulus. rewrite Hb.
    cbn [Res_bind IS_NUMBER]. rewrite Ha. cbn [Res_bind IS_NUMBER negb orb].
    rewrite Hp1. cbn [Res_bind fst snd AS_NUMBER]. rewrite Hp2.
    cbn [Res_bind fst snd AS_NUMBER].
    rewrite (double_to_int_div_zero x y s Hy). reflexivity.
Qed.

(** ** The machine: jumps *)

(** The sixteen bits of two bytes, the high one first. *)
Lemma two_bytes (hi lo : Z) :
  0 <= hi < 256 -> 0 <= lo < 256 ->
  Z.lor (Z.shiftl hi 8) lo mod 2 ^ 16 = hi * 256 + lo.
Proof.
  intros Hhi Hlo. rewrite Z.shiftl_mul_pow2 by lia.
  rewrite <- Z.add_nocarry_lor.
  - apply Z.mod_small. lia.
  - apply Z.bits_inj'. intros n Hn. rewrite Z.land_spec, Z.bits_0.
    destruct (Z.ltb_spec n 8).
    + rewrite Z.mul_pow2_bits_low by lia. reflexivity.
    + rewrite (Z.bits_above_log2 lo n); [apply andb_false_r | lia |].
      destruct (Z.eq_dec lo 0) as [->|Hne]; [simpl; lia|].
      apply Z.log2_lt_pow2; [lia|].
      apply Z.lt_le_trans with (2 ^ 8); [lia|].
      apply Z.pow_le_mono_r; lia.
Qed.

Lemma READ_SHORT_bytes (vm : VM) (frame : CallFrame) (rest : list CallFrame)
    (hi lo : Z) :
  frames vm = frame :: rest ->
  array_get (code (chunk (function (closure frame)))) (ip frame) = Ok hi ->
  array_get (code (chunk (function (closure frame)))) (ip frame + 1) = Ok lo ->
  0 <= hi < 256 -> 0 <= lo < 256 ->
  READ_SHORT vm =
    Ok (hi * 256 + lo, with_frames (set_ip (ip frame + 2) frame :: rest) vm).
Proof.
  intros Hf Hhi Hlo Rhi Rlo. unfold READ_SHORT. rewrite Hf.
  cbn [set_ip closure ip].
  replace (ip frame + 2 - 2) with (ip frame) by lia.
  replace (ip frame + 2 - 1) with (ip frame + 1) by lia.
  rewrite Hhi, Hlo. cbn [Res_bind]. rewrite two_bytes by assumption.
  reflexivity.
Qed.

(** X11: the operand of a jump is two bytes, the high one first.
    OP_JUMP moves [ip] forward by it from the byte after the operand,
    OP_LOOP moves it back by it, and OP_JUMP_IF_FALSE moves it forward
    when the value on top of the stack is Nil or false and leaves it after
    the operand otherwise; none of them pushes or pops: the condition stays
    on the stack. *)
Theorem jumps_move_ip_only (vm : VM) (frame : CallFrame)
    (rest : list CallFrame) (hi lo : Z) :
  frames vm = frame :: rest ->
  array_get (code (chunk (function (closure frame)))) (ip frame) = Ok hi ->
  array_get (code (chunk (function (closure frame)))) (ip frame + 1) = Ok lo ->
  0 <= hi < 256 -> 0 <= lo < 256 ->
  let at_ (i : Z) := with_frames (set_ip i frame :: rest) vm in
  exec strtod OP_JUMP vm =
    Ok (Running (at_ (ip frame + 2 + (hi * 256 + lo)))) /\
  exec strtod OP_LOOP vm =
    Ok (Running (at_ (ip frame + 2 - (hi * 256 + lo)))) /\
  (forall v, peek 0 vm = Ok v ->
     exec strtod OP_JUMP_IF_FALSE vm =
       Ok (Running
             (at_ (ip frame + 2 + (if isFalsey v then hi * 256 + lo else 0))))).
Proof.
  intros Hf Hhi Hlo Rhi Rlo at_.
  pose proof (READ_SHORT_bytes vm frame rest hi lo Hf Hhi Hlo Rhi Rlo) as Hs.
  split; [|split].
  - cbn [exec]. rewrite Hs. reflexivity.
  - cbn [exec]. rewrite Hs. cbn [Res_bind fst snd]. unfold jump.
    cbn [frames with_frames set_ip closure ip slots Res_bind]. unfold at_.
    replace (ip frame + 2 + - (hi * 256 + lo))
      with (ip frame + 2 - (hi * 256 + lo)) by lia.
    reflexivity.
  - intros v Hv. cbn [exec]. rewrite Hs. cbn [Res_bind fst snd].
    assert (Hpeek : peek 0 (with_frames (set_ip (ip frame + 2) frame :: rest) vm)
                    = Ok v) by exact Hv.
    rewrite Hpeek. cbn [Res_bind]. destruct (isFalsey v).
    + reflexivity.
    + unfold at_. rewrite Z.add_0_r. reflexivity.
Qed.

End MachineMore.

(** ** The machine: closing upvalues *)

Section ClosingUpvalues.

Lemma closeUpvalues_loop_reads (last : Z) l :
  forall (fuel : nat) (vm : VM) zs,
    open_list vm l zs -> slots_in_stack vm zs -> (length l < fuel)%nat ->
    exists vm',
      closeUpvalues_loop fuel last vm = Ok vm' /\
      same_but_upvalues vm vm' /\
      forall a v, read_location a vm = Ok v -> read_location a vm' = Ok v.
Proof.
  induction l as [|p l IH]; intros fuel vm zs Hl Hin Hf;
    pose proof Hl as (Hc & Ho & Hd); unfold chain in Hc; simpl in Hc.
  - exists vm. destruct fuel; simpl; rewrite Hc;
      (split; [reflexivity|]; split; [repeat split | auto]).
  - destruct Hc as (Hhead & u & Hu & Hc).
    inversion Ho as [|? z ? zs' Hp Ho']; subst.
    unfold open_slot in Hp. rewrite Hu in Hp.
    destruct (location u) as [s|] eqn:Hloc; [|discriminate]. injection Hp as ->.
    destruct fuel as [|fuel]; [simpl in Hf; lia|].
    simpl. rewrite Hhead, Hu. simpl. rewrite Hloc.
    destruct (Z.leb_spec last z) as [Hge|Hlt].
    + inversion Hin as [|? ? Hz Hin']; subst.
      destruct (lookup_lt_is_Some_2 (stack vm) (Z.to_nat z)) as [v Hv]; [lia|].
      assert (Hget : array_get (stack vm) z = Ok v).
      { apply array_get_Ok. split; [lia | exact Hv]. }
      rewrite Hget. simpl.
      set (u' := {| location := ClosedField; closed := v; next := next u |}).
      set (vm1 := with_openUpvalues (next u)
                    (with_heap (with_cells (<[p:=u']> (cells (heap vm))) (heap vm))
                       vm)).
      pose proof (open_list_close vm p u u' l zs' z Hl Hu) as Hl1.
      destruct (IH fuel vm1 zs' Hl1 Hin' ltac:(simpl in Hf; lia))
        as (vm' & Hrun & Hsame & Hread).
      exists vm'. split; [exact Hrun|]. split; [exact Hsame|].
      intros a w Ha. apply Hread. unfold read_location in *.
      cbn [vm1 heap cells with_openUpvalues with_heap with_cells stack].
      destruct (decide (a = p)) as [->|Hne].
      * rewrite lookup_insert_eq. rewrite Hu in Ha. simpl in Ha |- *.
        rewrite Hloc, Hget in Ha. exact Ha.
      * rewrite lookup_insert_ne by congruence. exact Ha.
    + exists vm. split; [reflexivity|]. split; [repeat split | auto].
Qed.

Lemma closeUpvalues_reads (last : Z) (vm : VM) l zs :
  open_list vm l zs -> slots_in_stack vm zs ->
  exists vm',
    closeUpvalues last vm = Ok vm' /\
    same_but_upvalues vm vm' /\
    (forall a v, read_location a vm = Ok v -> read_location a vm' = Ok v) /\
    (forall p z, open_slot (cells (heap vm')) p = Some z ->
                 open_slot (cells (heap vm)) p = Some z /\
                 (p ∈ l -> z < last)).
Proof.
  intros Hl Hin. pose proof Hl as (Hc & Ho & Hd).
  pose proof (chain_length _ _ _ _ Hc Ho Hd) as Hlen.
  destruct (closeUpvalues_loop_reads last l (S (size (cells (heap vm)))) vm zs
              Hl Hin ltac:(lia)) as (vm' & Hrun & Hsame & Hread).
  exists vm'. split; [exact Hrun|]. split; [exact Hsame|].
  split; [exact Hread|].
  intros p z Hz.
  destruct (closeUpvalues_loop_sorted _ _ _ _ _ _ Hl Hrun)
    as (l1 & l2 & zs1 & zs2 & -> & -> & (Hc2 & Ho2 & Hd2) & _ & Hlo & Hcl
        & Hfr & _).
  rewrite Forall_forall in Hcl.
  assert (Hp1 : p ∉ l1).
  { intros Hp. destruct (Hcl p Hp) as (u & Hu & Hloc).
    unfold open_slot in Hz. rewrite Hu, Hloc in Hz. discriminate. }
  split.
  - unfold open_slot in *. rewrite <- (Hfr p Hp1). exact Hz.
  - intros Hp. apply elem_of_app in Hp as [Hp|Hp]; [contradiction|].
    destruct (open_on_elem _ _ _ _ Ho2 Hp) as (z' & Hin' & Hz').
    rewrite Hz in Hz'. injection Hz' as <-.
    rewrite Forall_forall in Hlo. apply Hlo, Hin'.
Qed.

(** X12: when the open upvalues form their sorted list and the
    slots they are open on lie in the stack array, [closeUpvalues] returns;
    it changes nothing but upvalue objects and the head of their list; every
    upvalue reads the value it read before, closed or not; and an upvalue
    that is open afterwards was open before, on the same slot, which for
    one of the list lies below [last]. *)
Theorem closeUpvalues_keeps_values (last : Z) (vm : VM) l zs :
  open_list vm l zs -> slots_in_stack vm zs ->
  exists vm',
    closeUpvalues last vm = Ok vm' /\
    same_but_upvalues vm vm' /\
    (forall a v, read_location a vm = Ok v -> read_location a vm' = Ok v) /\
    (forall p z, open_slot (cells (heap vm')) p = Some z ->
                 open_slot (cells (heap vm)) p = Some z /\
                 (p ∈ l -> z < last)).
Proof. apply closeUpvalues_reads. Qed.

(** ** The machine: returning *)

Variable strtod : string -> float.

Lemma return_to_caller (vm : VM) (frame : CallFrame)
    (rest : list CallFrame) (result : Value) l zs :
  frames vm = frame :: rest -> rest <> [] ->
  peek 0 vm = Ok result ->
  open_list vm l zs -> slots_in_stack vm zs ->
  exists vm',
    exec strtod OP_RETURN vm = Ok (Running vm') /\
    frames vm' = rest /\
    stackTop vm' = slots frame + 1 /\
    stack vm' = array_set (stack vm) (slots frame) result /\
    globals vm' = globals vm /\ out vm' = out vm /\ err vm' = err vm /\
    forall a v,
      a ∈ l \/ open_slot (cells (heap vm)) a = None ->
      read_location a vm = Ok v -> read_location a vm' = Ok v.
Proof.
  intros Hf Hne Hpeek Hl Hin.
  set (vm1 := with_stackTop (stackTop vm - 1) vm).
  assert (Hpop : pop vm = Ok (result, vm1)).
  { unfold pop. fold vm1. cbn [vm1 stack stackTop with_stackTop].
    unfold peek in Hpeek.
    replace (stackTop vm - 1 - 0) with (stackTop vm - 1) in Hpeek by lia.
    rewrite Hpeek. reflexivity. }
  destruct (closeUpvalues_reads (slots frame) vm1 l zs Hl Hin)
    as (vm2 & Hclose & (S1 & S2 & S3 & S4 & S5 & S6 & S7) & Hread & Hopen).
  cbn [vm1 frames stack stackTop globals heap out err with_stackTop] in *.
  eexists. split.
  - cbn [exec]. rewrite Hpop. cbn [Res_bind fst snd].
    cbn [vm1 frames with_stackTop]. rewrite Hf, Hclose. cbn [Res_bind].
    unfold frameCount. cbn [frames with_frames].
    destruct rest as [|caller rest]; [congruence|].
    cbn [length]. reflexivity.
  - cbn [push frames stack stackTop globals out err heap
           with_stack with_stackTop with_frames].
    rewrite S2. repeat (split; [first [reflexivity | assumption]|]).
    intros a v Ha Hv. pose proof (Hread a v Hv) as Hv2.
    unfold read_location in Hv2 |- *.
    cbn [push heap stack stackTop with_stack with_stackTop with_frames].
    destruct (cells (heap vm2) !! a) as [u|] eqn:Hu; [|discriminate Hv2].
    cbn [of_option Res_bind] in Hv2 |- *.
    destruct (location u) as [z|] eqn:Hloc; [|exact Hv2].
    destruct (Hopen a z) as (Hz & Hlt).
    { unfold open_slot. rewrite Hu, Hloc. reflexivity. }
    destruct Ha as [Ha|Ha]; [|congruence].
    rewrite array_get_set_ne; [exact Hv2|].
    specialize (Hlt Ha). lia.
Qed.

(** X13: OP_RETURN with the sorted list of open upvalues, on slots of
    the stack array.  From a called function whose window starts in the
    array it discards the frame, leaves the result in the slot that held
    the callee, the stack top one above, and the rest of the stack, the
    globals and the output as they were; what the upvalues of the list and
    the closed ones read is what they read before.  From the script it
    ends the run with INTERPRET_OK, the result and the script's closure
    popped. *)
Theorem OP_RETURN_leaves_result (vm : VM) (frame : CallFrame)
    (rest : list CallFrame) (result : Value) l zs :
  frames vm = frame :: rest ->
  peek 0 vm = Ok result ->
  open_list vm l zs -> slots_in_stack vm zs ->
  (rest <> [] -> 0 <= slots frame < Z.of_nat (length (stack vm)) ->
   exists vm',
     exec strtod OP_RETURN vm = Ok (Running vm') /\
     frames vm' = rest /\
     stackTop vm' = slots frame + 1 /\
     stack vm' = array_set (stack vm) (slots frame) result /\
     globals vm' = globals vm /\ out vm' = out vm /\ err vm' = err vm /\
     forall a v,
       a ∈ l \/ open_slot (cells (heap vm)) a = None ->
       read_location a vm = Ok v -> read_location a vm' = Ok v) /\
  (rest = [] -> 2 <= stackTop vm ->
   exists vm',
     exec strtod OP_RETURN vm = Ok (Halted INTERPRET_OK vm') /\
     frames vm' = [] /\ stackTop vm' = stackTop vm - 2 /\
     stack vm' = stack vm /\ globals vm' = globals vm /\
     out vm' = out vm /\ err vm' = err vm).
Proof.
  intros Hf Hpeek Hl Hin. split.
  - intros Hne _. apply (return_to_caller vm frame rest result l zs); assumption.
  - intros -> Htop.
    set (vm1 := with_stackTop (stackTop vm - 1) vm).
    assert (Hpop : pop vm = Ok (result, vm1)).
    { unfold pop. fold vm1. cbn [vm1 stack stackTop with_stackTop].
      unfold peek in Hpeek.
      replace (stackTop vm - 1 - 0) with (stackTop vm - 1) in Hpeek by lia.
      rewrite Hpeek. reflexivity. }
    destruct (closeUpvalues_reads (slots frame) vm1 l zs Hl Hin)
      as (vm2 & Hclose & (S1 & S2 & S3 & S4 & S5 & S6 & S7) & Hread & Hopen).
    cbn [vm1 frames stack stackTop globals heap out err with_stackTop] in *.
    assert (Hlen : stackTop vm - 1 < Z.of_nat (length (stack vm))).
    { unfold peek in Hpeek. apply array_get_Ok in Hpeek as [_ Hp].
      apply lookup_lt_Some in Hp. lia. }
    destruct (lookup_lt_is_Some_2 (stack vm) (Z.to_nat (stackTop vm - 2)))
      as [w Hw]; [lia|].
    eexists. split.
    + cbn [exec]. rewrite Hpop. cbn [Res_bind fst snd].
      cbn [vm1 frames with_stackTop]. rewrite Hf, Hclose. cbn [Res_bind].
      unfold frameCount. cbn [frames with_frames length Z.of_nat Z.eqb].
      unfold pop. cbn [stack stackTop with_stackTop with_frames].
      rewrite S2, S3.
      replace (stackTop vm - 1 - 1) with (stackTop vm - 2) by lia.
      assert (Hget : array_get (stack vm) (stackTop vm - 2) = Ok w).
      { apply array_get_Ok. split; [lia | exact Hw]. }
      rewrite Hget. reflexivity.
    + cbn [frames stack stackTop globals out err heap
             with_stack with_stackTop with_frames snd].
      repeat (split; [first [reflexivity | assumption | lia]|]).
      assumption.
Qed.

End ClosingUpvalues.

(** ** The machine: the stack top *)

Section StackUse.

Variable strtod : string -> float.

Lemma READ_BYTE_top (vm : VM) (r : Z * VM) :
  READ_BYTE vm = Ok r ->
  stackTop (snd r) = stackTop vm /\ stack (snd r) = stack vm.
Proof.
  destruct r as [b vm']. intros H.
  apply READ_BYTE_Ok in H as (f & fs & _ & _ & ->). auto.
Qed.

Lemma READ_CONSTANT_top (vm : VM) (r : Value * VM) :
  READ_CONSTANT vm = Ok r ->
  stackTop (snd r) = stackTop vm /\ stack (snd r) = stack vm.
Proof.
  unfold READ_CONSTANT. intros H. inv_ok. subst r. simpl.
  eapply READ_BYTE_top; eassumption.
Qed.

Lemma READ_STRING_top (vm : VM) (r : ObjString * VM) :
  READ_STRING vm = Ok r ->
  stackTop (snd r) = stackTop vm /\ stack (snd r) = stack vm.
Proof.
  unfold READ_STRING. intros H. inv_ok. subst r. simpl.
  eapply READ_CONSTANT_top; eassumption.
Qed.

Lemma READ_SHORT_top (vm : VM) (r : Z * VM) :
  READ_SHORT vm = Ok r ->
  stackTop (snd r) = stackTop vm /\ stack (snd r) = stack vm.
Proof.
  unfold READ_SHORT. destruct (frames vm); [discriminate|].
  intros H. inv_ok. subst r. auto.
Qed.

Lemma jump_top (offset : Z) (vm vm' : VM) :
  jump offset vm = Ok vm' ->
  stackTop vm' = stackTop vm /\ stack vm' = stack vm.
Proof.
  unfold jump. destruct (frames vm); [discriminate|].
  intros H. inv_ok. subst vm'. auto.
Qed.

Lemma closure_upvalues_top (n : nat) (vm : VM) (r : list addr * VM) :
  closure_upvalues n vm = Ok r ->
  stackTop (snd r) = stackTop vm /\ stack (snd r) = stack vm.
Proof.
  intros H. apply closure_upvalues_depth in H as (_ & ? & _ & ?). auto.
Qed.

Lemma peek_top (distance : Z) (vm : VM) (v : Value) :
  peek distance vm = Ok v -> distance + 1 <= stackTop vm.
Proof.
  unfold peek. intros H. apply array_get_Ok in H as [H _]. lia.
Qed.

Lemma pop_top (vm : VM) (r : Value * VM) :
  pop vm = Ok r ->
  1 <= stackTop vm /\ stackTop (snd r) = stackTop vm - 1 /\
  stack (snd r) = stack vm.
Proof.
  destruct r as [v vm']. intros H. apply pop_keeps in H as (-> & H).
  apply array_get_Ok in H as [H _]. simpl. repeat split; auto; lia.
Qed.

Lemma push_top (v : Value) (vm : VM) : stackTop (push v vm) = stackTop vm + 1.
Proof. reflexivity. Qed.

(** Bring every fact about the stack top into the context. *)
Ltac top_facts :=
  repeat match goal with
  | H : READ_BYTE _ = Ok _ |- _ => apply READ_BYTE_top in H; destruct H
  | H : READ_CONSTANT _ = Ok _ |- _ => apply READ_CONSTANT_top in H; destruct H
  | H : READ_STRING _ = Ok _ |- _ => apply READ_STRING_top in H; destruct H
  | H : READ_SHORT _ = Ok _ |- _ => apply READ_SHORT_top in H; destruct H
  | H : jump _ _ = Ok _ |- _ => apply jump_top in H; destruct H
  | H : closure_upvalues _ _ = Ok _ |- _ =>
      apply closure_upvalues_top in H; destruct H
  | H : pop _ = Ok _ |- _ => apply pop_top in H; destruct H as (? & ? & ?)
  | H : peek _ _ = Ok _ |- _ => apply peek_top in H
  | H : closeUpvalues _ _ = Ok _ |- _ =>
      apply closeUpvalues_keeps in H; destruct H as (_ & ? & ? & _)
  end.

Ltac top_close :=
  inv_ok;
  repeat match goal with
  | H : Halted _ _ = Running _ |- _ => discriminate H
  | H : Running _ = Running _ |- _ => injection H as H
  end;
  top_facts; subst; cbn [fst snd] in *;
  repeat rewrite push_top;
  cbn [stackTop with_stackTop with_stack with_heap with_globals with_out
         with_frames with_openUpvalues] in *;
  try (split; lia).

Lemma concatenate_top (vm vm' : VM) :
  concatenate vm = Ok vm' ->
  2 <= stackTop vm /\ stackTop vm' = stackTop vm - 1.
Proof. unfold concatenate. intros H. top_close. Qed.

Lemma write_location_top (a : addr) (v : Value) (vm vm' : VM) :
  write_location a v vm = Ok vm' -> stackTop vm' = stackTop vm.
Proof.
  unfold write_location. intros H. inv_bind H.
  destruct (location a0); inv_ok; subst; reflexivity.
Qed.

Lemma BINARY_OP_top (f : float -> float -> Value) (vm vm' : VM) :
  BINARY_OP f vm = Ok (Running vm') ->
  2 <= stackTop vm /\ stackTop vm' = stackTop vm - 1.
Proof.
  unfold BINARY_OP. intros H. inv_bind H. inv_bind H.
  destruct (negb (IS_NUMBER a) || negb (IS_NUMBER a0)); top_close.
Qed.

Lemma modulus_top (vm vm' : VM) :
  modulus vm = Ok (Running vm') ->
  2 <= stackTop vm /\ stackTop vm' = stackTop vm - 1.
Proof.
  unfold modulus. intros H. inv_bind H. inv_bind H.
  destruct (negb (IS_NUMBER a) || negb (IS_NUMBER a0)); top_close.
Qed.

Lemma intDivison_top (vm vm' : VM) :
  intDivison vm = Ok (Running vm') ->
  2 <= stackTop vm /\ stackTop vm' = stackTop vm - 1.
Proof.
  unfold intDivison. intros H. inv_bind H. inv_bind H.
  destruct (negb (IS_NUMBER a) || negb (IS_NUMBER a0)); top_close.
Qed.

(** X14: when the case of an instruction other than OP_CALL and
    OP_RETURN, run with room for one more value on the stack, ends with
    the loop of [run] going on, the stack held at least the values the
    instruction reads, and the stack top has moved by the amount fixed for
    the instruction. *)
Theorem instruction_stack_use (o : OpCode) (vm vm' : VM) (need net : Z) :
  stack_use o = Some (need, net) ->
  0 <= stackTop vm < Z.of_nat (length (stack vm)) ->
  exec strtod o vm = Ok (Running vm') ->
  need <= stackTop vm /\ stackTop vm' = stackTop vm + net.
Proof.
  intros Hu H0 H. destruct o; simpl in Hu; try discriminate Hu; injection Hu as <- <-;
    cbn [exec] in H.
  all: try (apply BINARY_OP_top in H; lia).
  all: try (apply modulus_top in H; lia).
  all: try (apply intDivison_top in H; lia).
  all: try solve [top_close].
  - (* OP_SET_UPVALUE *)
    inv_bind H. destruct a. inv_bind H. inv_bind H. inv_bind H. inv_bind H.
    apply write_location_top in Ha3. top_close.
  - (* OP_ADD *)
    inv_bind H. inv_bind H.
    destruct (IS_STRING a && IS_STRING a0).
    + inv_bind H. apply concatenate_top in Ha1. top_close.
    + inv_bind H. destruct (IS_NUMBER a && IS_NUMBER a1); top_close.
Qed.

End StackUse.
Open Scope string_scope.
Open Scope list_scope.
Open Scope Z_scope.

(** ** The compiler: the code it writes *)

Section CompiledCode.

Variable strtod : string -> float.

Lemma decode_op (o : OpCode) : decode (op o) = Some o.
Proof. destruct o; reflexivity. Qed.

Lemma op_byte (o : OpCode) : 0 <= op o <= UINT8_MAX.
Proof. destruct o; unfold UINT8_MAX; simpl; lia. Qed.

Lemma straight_line_app (n : Z) (a b : list Z) :
  forall d d1,
    straight_line n a d = Some d1 ->
    straight_line n (a ++ b) d = straight_line n b d1.
Proof.
  remember (length a) as len eqn:Hlen.
  revert a Hlen. induction len as [len IH] using lt_wf_ind.
  intros a Hlen d d1 H. destruct a as [|byte rest]; simpl in *.
  - injection H as <-. reflexivity.
  - destruct (decode byte) as [o|]; [|discriminate].
    destruct (stack_use o) as [[need net]|]; [|discriminate].
    destruct (shape o) as [[|]|]; [| |discriminate].
    + destruct (d <? need); [discriminate|].
      apply (IH (length rest)); [lia | reflexivity | exact H].
    + destruct rest as [|k rest']; [discriminate|]. simpl.
      destruct ((d <? need) || (k <? 0) || (n <=? k)); [discriminate|].
      apply (IH (length rest')); [simpl in Hlen; lia | reflexivity | exact H].
Qed.

Lemma straight_line_more (n n' : Z) (a : list Z) :
  n <= n' ->
  forall d d1, straight_line n a d = Some d1 -> straight_line n' a d = Some d1.
Proof.
  intros Hn. remember (length a) as len eqn:Hlen.
  revert a Hlen. induction len as [len IH] using lt_wf_ind.
  intros a Hlen d d1 H. destruct a as [|byte rest]; simpl in *; [exact H|].
  destruct (decode byte) as [o|]; [|discriminate].
  destruct (stack_use o) as [[need net]|]; [|discriminate].
  destruct (shape o) as [[|]|]; [| |discriminate].
  - destruct (d <? need); [discriminate|].
    apply (IH (length rest)); [lia | reflexivity | exact H].
  - destruct rest as [|k rest']; [discriminate|].
    destruct (d <? need); [discriminate|]. destruct (k <? 0); [discriminate|].
    simpl in H |- *.
    destruct (Z.leb_spec n k); [discriminate|].
    destruct (Z.leb_spec n' k); [lia|].
    apply (IH (length rest')); [simpl in Hlen; lia | reflexivity | exact H].
Qed.

(** *** The relation [compiled] *)

Lemma compiled_same (c c' : Compiler) :
  compilingChunk c' = compilingChunk c ->
  (hadError (parser c) = true -> hadError (parser c') = true) ->
  (panic_flagged c -> panic_flagged c') ->
  compiled 0 0 c c'.
Proof.
  intros Hk Hf Hp. unfold compiled. rewrite Hk.
  split; [exact Hf|]. split; [exact Hp|]. split; [lia|].
  exists []. rewrite app_nil_r. split; [reflexivity|].
  split; [simpl; lia|]. split; [constructor|].
  intros _ _ n d _ _. simpl. f_equal. lia.
Qed.

Lemma compiled_refl (c : Compiler) : compiled 0 0 c c.
Proof. apply compiled_same; auto. Qed.

Lemma compiled_trans (n1 t1 n2 t2 : Z) (c c1 c2 : Compiler) :
  compiled n1 t1 c c1 -> compiled n2 t2 c1 c2 -> n2 <= n1 + t1 ->
  compiled n1 (t1 + t2) c c2.
Proof.
  intros (F1 & P1 & K1 & b1 & E1 & L1 & B1 & S1)
         (F2 & P2 & K2 & b2 & E2 & L2 & B2 & S2) Hn.
  split; [auto|]. split; [auto|]. split; [lia|].
  exists (b1 ++ b2). split; [rewrite E2, E1, app_assoc; reflexivity|].
  split; [rewrite L2, L1, length_app; lia|].
  split; [apply Forall_app; auto|].
  intros Hp He n d Hk Hd.
  assert (He1 : hadError (parser c1) = false).
  { destruct (hadError (parser c1)) eqn:E; [|reflexivity].
    rewrite (F2 eq_refl) in He. discriminate. }
  rewrite (straight_line_app n b1 b2 d (d + t1)).
  - rewrite (S2 (P1 Hp) He n (d + t1) Hk ltac:(lia)). f_equal. lia.
  - apply (S1 Hp He1 n d); lia.
Qed.

Lemma compiled_need (need need' net : Z) (c c' : Compiler) :
  compiled need net c c' -> need <= need' -> compiled need' net c c'.
Proof.
  intros (F & P & K & b & E & L & B & S) Hn.
  split; [auto|]. split; [auto|]. split; [lia|].
  exists b. repeat (split; [assumption|]).
  intros Hp He n d Hk Hd. apply S; auto. lia.
Qed.

(** Once an error is reported, nothing is said of the code. *)
Lemma compiled_failed (need net need' net' : Z) (c c' : Compiler) :
  compiled need net c c' ->
  (panic_flagged c -> hadError (parser c') = true) ->
  compiled need' net' c c'.
Proof.
  intros (F & P & K & b & E & L & B & S) Hf.
  split; [auto|]. split; [auto|]. split; [lia|].
  exists b. repeat (split; [assumption|]).
  intros Hp He. rewrite (Hf Hp) in He. discriminate.
Qed.

Lemma compiled_flag (need net : Z) (c c' : Compiler) :
  compiled need net c c' ->
  hadError (parser c') = false -> hadError (parser c) = false.
Proof.
  intros (F & _) He. destruct (hadError (parser c)); [|reflexivity].
  rewrite (F eq_refl) in He. discriminate.
Qed.

(** *** Errors and tokens *)

Lemma errorAt_compiled (token : Token) (message : string) (c : Compiler) :
  compiled 0 0 c (errorAt token message c) /\
  (panic_flagged c -> hadError (parser (errorAt token message c)) = true).
Proof.
  unfold errorAt, panic_flagged.
  destruct (panicMode (parser c)) eqn:Hp.
  - split; [apply compiled_refl | auto].
  - split; [|reflexivity].
    apply compiled_same; [reflexivity | reflexivity |].
    unfold panic_flagged. simpl. auto.
Qed.

Lemma advance_loop_compiled (s : Scanner) (c : Compiler) :
  compiled 0 0 c (advance_loop s c).
Proof.
  revert c. induction s as [|t rest IH]; intros c; simpl.
  - apply compiled_same; [reflexivity | simpl; auto | ].
    unfold panic_flagged. simpl. auto.
  - assert (H0 : compiled 0 0 c (set_current t c)).
    { apply compiled_same; [reflexivity | simpl; auto |].
      unfold panic_flagged. simpl. auto. }
    destruct (type_eqb (tk_type t) TOKEN_ERROR).
    + apply (compiled_trans 0 0 0 0 c (set_current t c)); [exact H0| |lia].
      apply (compiled_trans 0 0 0 0 _ (errorAtCurrent (tk_start t)
                                         (set_current t c))); [| apply IH | lia].
      apply errorAt_compiled.
    + apply compiled_same; [reflexivity | simpl; auto |].
      unfold panic_flagged. simpl. auto.
Qed.

Lemma advance_compiled (c : Compiler) : compiled 0 0 c (advance c).
Proof.
  unfold advance.
  set (c0 := with_parser _ c).
  apply (compiled_trans 0 0 0 0 c c0); [| apply advance_loop_compiled | lia].
  apply compiled_same; [reflexivity | simpl; auto |].
  unfold panic_flagged. simpl. auto.
Qed.

Lemma consume_compiled (type : TokenType) (message : string) (c : Compiler) :
  compiled 0 0 c (consume type message c).
Proof.
  unfold consume. destruct (type_eqb _ type).
  - apply advance_compiled.
  - apply errorAt_compiled.
Qed.

Lemma match_compiled (type : TokenType) (c : Compiler) :
  compiled 0 0 c (snd (match_ type c)).
Proof.
  unfold match_. destruct (negb (check type c)); simpl.
  - apply compiled_refl.
  - apply advance_compiled.
Qed.

(** *** Bytes *)

Lemma emitByte_compiled (o : OpCode) (need net : Z) (c : Compiler) :
  stack_use o = Some (need, net) -> shape o = Some NoOperand ->
  compiled need net c (emitByte (op o) c).
Proof.
  intros Hu Hs. unfold compiled, emitByte, writeChunk. simpl.
  split; [auto|]. split; [auto|]. split; [lia|].
  exists [op o]. split; [reflexivity|].
  split; [rewrite length_app; simpl; lia|].
  split; [repeat constructor; apply op_byte|].
  intros _ _ n d _ Hd. simpl. rewrite decode_op, Hu, Hs.
  destruct (Z.ltb_spec d need); [lia | reflexivity].
Qed.

Lemma emitBytes_compiled (o : OpCode) (need net k : Z) (c : Compiler) :
  stack_use o = Some (need, net) -> shape o = Some ConstantOperand ->
  0 <= k <= UINT8_MAX ->
  k < Z.of_nat (length (constants (compilingChunk c))) ->
  compiled need net c (emitBytes (op o) k c).
Proof.
  intros Hu Hs Hk Hc. unfold compiled, emitBytes, emitByte, writeChunk. simpl.
  split; [auto|]. split; [auto|]. split; [lia|].
  exists [op o; k]. split; [rewrite <- app_assoc; reflexivity|].
  split; [rewrite !length_app; simpl; lia|].
  split; [repeat constructor; try apply op_byte; lia|].
  intros _ He n d Hn Hd. simpl. rewrite decode_op, Hu, Hs.
  destruct (Z.ltb_spec d need); [lia|].
  destruct (Z.ltb_spec k 0); [lia|].
  destruct (Z.leb_spec n k); [lia | reflexivity].
Qed.

Lemma makeConstant_compiled (value : Value) (c : Compiler) :
  compiled 0 0 c (snd (makeConstant value c)) /\
  0 <= fst (makeConstant value c) <= UINT8_MAX /\
  fst (makeConstant value c)
    < Z.of_nat (length (constants (compilingChunk (snd (makeConstant value c))))).
Proof.
  unfold makeConstant, addConstant.
  set (c1 := with_chunk _ c).
  assert (H1 : compiled 0 0 c c1).
  { unfold compiled, c1. simpl. split; [auto|]. split; [auto|].
    split; [rewrite length_app; lia|].
    exists []. rewrite app_nil_r. split; [reflexivity|].
    split; [simpl; lia|]. split; [constructor|].
    intros _ _ n d _ _. simpl. f_equal. lia. }
  destruct (Z.ltb_spec UINT8_MAX (Z.of_nat (length (constants (compilingChunk c)))))
    as [Hbig|Hsmall]; simpl.
  - destruct (errorAt_compiled (previous (parser c1))
                "Too many constants in one chunk." c1) as (He & Hf).
    split; [|split].
    + apply (compiled_trans 0 0 0 0 c c1); [exact H1 | exact He | lia].
    + unfold UINT8_MAX. lia.
    + unfold error, errorAt, c1.
      destruct (panicMode _); simpl; rewrite length_app; simpl; lia.
  - split; [exact H1|]. split; [lia|].
    unfold c1. simpl. rewrite length_app. simpl. lia.
Qed.

Lemma intern_compiled (chars : string) (c : Compiler) :
  compiled 0 0 c (snd (intern chars c)).
Proof.
  unfold intern. simpl. apply compiled_same; [reflexivity | auto | auto].
Qed.

Lemma emitConstant_compiled (value : Value) (c : Compiler) :
  compiled 0 1 c (emitConstant value c).
Proof.
  unfold emitConstant.
  destruct (makeConstant_compiled value c) as (H1 & Hk & Hc).
  destruct (makeConstant value c) as [k c1]. cbn [fst snd] in *.
  apply (compiled_trans 0 0 0 1 c c1); [exact H1 | | lia].
  apply (emitBytes_compiled OP_CONSTANT 0 1); auto.
Qed.

Lemma identifierConstant_compiled (name : Token) (c : Compiler) :
  compiled 0 0 c (snd (identifierConstant name c)) /\
  0 <= fst (identifierConstant name c) <= UINT8_MAX /\
  fst (identifierConstant name c)
    < Z.of_nat (length (constants
                          (compilingChunk (snd (identifierConstant name c))))).
Proof.
  unfold identifierConstant.
  pose proof (intern_compiled (lexeme name) c) as H0.
  destruct (intern (lexeme name) c) as [s c0]. simpl in H0.
  destruct (makeConstant_compiled (OBJ_VAL (OBJ_STRING s)) c0) as (H1 & Hk & Hc).
  split; [|auto].
  apply (compiled_trans 0 0 0 0 c c0); [exact H0 | exact H1 | lia].
Qed.

Lemma namedVariable_compiled (name : Token) (c : Compiler) :
  compiled 0 1 c (namedVariable name c).
Proof.
  unfold namedVariable.
  destruct (identifierConstant_compiled name c) as (H1 & Hk & Hc).
  destruct (identifierConstant name c) as [k c1]. cbn [fst snd] in *.
  apply (compiled_trans 0 0 0 1 c c1); [exact H1 | | lia].
  apply (emitBytes_compiled OP_GET_GLOBAL 0 1); auto.
Qed.

Lemma string_compiled (c : Compiler) : compiled 0 1 c (string_ c).
Proof.
  unfold string_.
  pose proof (intern_compiled
                (substring 1 (tk_length (previous (parser c)) - 2)
                   (tk_start (previous (parser c)))) c) as H0.
  destruct (intern _ c) as [s c0]. simpl in H0.
  apply (compiled_trans 0 0 0 1 c c0); [exact H0 | | lia].
  apply emitConstant_compiled.
Qed.

(** *** Expressions *)

Lemma prefix_compiled (pp : Z -> Compiler -> Res Compiler) (fn : ParseFn)
    (c c' : Compiler) :
  expression_parser pp ->
  prefix (getRule (tk_type (previous (parser c)))) = Some fn ->
  call_rule strtod pp fn c = Ok c' ->
  compiled 0 1 c c'.
Proof.
  intros Hpp Hfn H.
  destruct (tk_type (previous (parser c))) eqn:Ht; simpl in Hfn;
    try discriminate; injection Hfn as <-; cbn [call_rule] in H.
  - (* grouping *)
    unfold grouping, expression in H. inv_bind H. injection H as <-.
    apply (compiled_trans 0 1 0 0 c a);
      [eapply Hpp; [|eassumption]; unfold PREC_ASSIGNMENT; lia
      | apply consume_compiled | lia].
  - (* unary minus *)
    unfold unary in H. rewrite Ht in H. inv_bind H. injection H as <-.
    apply (compiled_trans 0 1 1 0 c a);
      [eapply Hpp; [|eassumption]; unfold PREC_UNARY; lia | | lia].
    apply (emitByte_compiled OP_NEGATE); reflexivity.
  - (* unary bang *)
    unfold unary in H. rewrite Ht in H. inv_bind H. injection H as <-.
    apply (compiled_trans 0 1 1 0 c a);
      [eapply Hpp; [|eassumption]; unfold PREC_UNARY; lia | | lia].
    apply (emitByte_compiled OP_NOT); reflexivity.
  - injection H as <-. apply namedVariable_compiled.
  - injection H as <-. apply string_compiled.
  - injection H as <-. apply emitConstant_compiled.
  - injection H as <-. unfold literal. rewrite Ht.
    apply (emitByte_compiled OP_FALSE); reflexivity.
  - injection H as <-. unfold literal. rewrite Ht.
    apply (emitByte_compiled OP_NIL); reflexivity.
  - injection H as <-. unfold literal. rewrite Ht.
    apply (emitByte_compiled OP_TRUE); reflexivity.
Qed.

Lemma two_bytes_compiled (o1 o2 : OpCode) (c : Compiler) :
  stack_use o1 = Some (2, -1) -> shape o1 = Some NoOperand ->
  stack_use o2 = Some (1, 0) -> shape o2 = Some NoOperand ->
  compiled 2 (-1) c (emitBytes (op o1) (op o2) c).
Proof.
  intros U1 S1 U2 S2. unfold emitBytes.
  apply (compiled_trans 2 (-1) 1 0 c (emitByte (op o1) c)); [| |lia];
    apply emitByte_compiled; assumption.
Qed.

Lemma infix_compiled (pp : Z -> Compiler -> Res Compiler) (fn : ParseFn)
    (c c' : Compiler) :
  expression_parser pp ->
  infix (getRule (tk_type (previous (parser c)))) = Some fn ->
  call_rule strtod pp fn c = Ok c' ->
  compiled 1 0 c c'.
Proof.
  intros Hpp Hfn H.
  destruct (tk_type (previous (parser c))) eqn:Ht; simpl in Hfn;
    try discriminate; injection Hfn as <-; cbn [call_rule] in H;
    unfold binary in H; rewrite Ht in H; inv_bind H; injection H as <-;
    (apply (compiled_trans 1 1 2 (-1) c a);
     [apply (compiled_need 0);
      [eapply Hpp; [|eassumption];
       pose proof (rule_precedence (tk_type (previous (parser c)))) as Hr;
       rewrite Ht in Hr; lia
      | lia] | | lia]).
  - apply (emitByte_compiled OP_SUBTRACT); reflexivity.
  - apply (emitByte_compiled OP_ADD); reflexivity.
  - apply (emitByte_compiled OP_DIVIDE); reflexivity.
  - apply (emitByte_compiled OP_MULTIPLY); reflexivity.
  - apply (two_bytes_compiled OP_EQUAL OP_NOT); reflexivity.
  - apply (emitByte_compiled OP_EQUAL); reflexivity.
  - apply (emitByte_compiled OP_GREATER); reflexivity.
  - apply (two_bytes_compiled OP_LESS OP_NOT); reflexivity.
  - apply (emitByte_compiled OP_LESS); reflexivity.
  - apply (two_bytes_compiled OP_GREATER OP_NOT); reflexivity.
Qed.

Lemma parse_infix_compiled (pp : Z -> Compiler -> Res Compiler) :
  expression_parser pp ->
  forall (fuel : nat) (prec : Z) (c c' : Compiler),
    1 <= prec ->
    parse_infix strtod fuel pp prec c = Ok c' -> compiled 1 0 c c'.
Proof.
  intros Hpp. induction fuel as [|fuel IH]; intros prec c c' Hprec H;
    simpl in H;
    destruct (Z.leb_spec prec
                (precedence (getRule (tk_type (current (parser c))))));
    try discriminate;
    try (injection H as <-; apply (compiled_need 0); [apply compiled_refl | lia]).
  destruct (advance_later c) as (_ & Hprev & _).
  destruct (rule_infix (tk_type (current (parser c))) ltac:(lia)) as (Hi & _).
  rewrite Hprev, Hi in H. inv_bind H.
  apply (compiled_trans 1 0 1 0 c a); [| eapply IH; eassumption | lia].
  apply (compiled_trans 1 0 1 0 c (advance c)); [| | lia].
  - apply (compiled_need 0); [apply advance_compiled | lia].
  - eapply infix_compiled; [exact Hpp | | eassumption].
    rewrite Hprev. exact Hi.
Qed.

Lemma parsePrecedence_compiled (fuel : nat) :
  forall prec c c',
    1 <= prec -> parsePrecedence strtod fuel prec c = Ok c' ->
    compiled 0 1 c c'.
Proof.
  induction fuel as [|fuel IH]; intros prec c c' Hprec H; [discriminate|].
  simpl in H.
  destruct (advance_later c) as (_ & Hprev & _).
  pose proof (advance_compiled c) as Ha.
  destruct (prefix (getRule (tk_type (previous (parser (advance c))))))
    as [fn|] eqn:Hfn.
  - inv_bind H.
    apply (compiled_trans 0 0 0 1 c (advance c)); [exact Ha | | lia].
    apply (compiled_trans 0 1 1 0 (advance c) a); [| | lia].
    + eapply prefix_compiled; [exact IH | exact Hfn | eassumption].
    + eapply parse_infix_compiled; [exact IH | exact Hprec | eassumption].
  - injection H as <-.
    destruct (errorAt_compiled (previous (parser (advance c)))
                "Expect expression." (advance c)) as (He & Hf).
    apply (compiled_trans 0 0 0 1 c (advance c)); [exact Ha | | lia].
    apply (compiled_failed 0 0); [exact He | exact Hf].
Qed.

(** *** Statements *)

Lemma expression_compiled (fuel : nat) (c c' : Compiler) :
  expression (parsePrecedence strtod fuel) c = Ok c' -> compiled 0 1 c c'.
Proof.
  unfold expression. apply parsePrecedence_compiled.
  unfold PREC_ASSIGNMENT. lia.
Qed.

Lemma varDecleration_compiled (fuel : nat) (c c' : Compiler) :
  varDecleration strtod fuel c = Ok c' -> compiled 0 0 c c'.
Proof.
  unfold varDecleration, parseVariable. intros H.
  set (c0 := consume TOKEN_IDENTIFIER "Expect variable name." c) in *.
  pose proof (consume_compiled TOKEN_IDENTIFIER "Expect variable name." c) as H0.
  fold c0 in H0.
  destruct (identifierConstant_compiled (previous (parser c0)) c0)
    as (H1 & Hk & Hc).
  destruct (identifierConstant (previous (parser c0)) c0) as [global c1].
  cbn [fst snd] in *.
  pose proof (match_compiled TOKEN_EQUAL c1) as H2.
  destruct (match_ TOKEN_EQUAL c1) as [m c2]. cbn [snd] in H2.
  inv_bind H. injection H as <-.
  assert (H3 : compiled 0 1 c2 a).
  { destruct m.
    - eapply expression_compiled. eassumption.
    - injection Ha as <-. apply (emitByte_compiled OP_NIL); reflexivity. }
  set (c4 := consume TOKEN_SEMICOLON "Expect ';' after variable decleration." a).
  pose proof (consume_compiled TOKEN_SEMICOLON
                "Expect ';' after variable decleration." a) as H4.
  fold c4 in H4.
  assert (Hc4 : global < Z.of_nat (length (constants (compilingChunk c4)))).
  { destruct H2 as (_ & _ & K2 & _). destruct H3 as (_ & _ & K3 & _).
    destruct H4 as (_ & _ & K4 & _). lia. }
  apply (compiled_trans 0 0 0 0 c c0); [exact H0 | | lia].
  apply (compiled_trans 0 0 0 0 c0 c1); [exact H1 | | lia].
  apply (compiled_trans 0 0 0 0 c1 c2); [exact H2 | | lia].
  apply (compiled_trans 0 1 1 (-1) c2 a); [exact H3 | | lia].
  apply (compiled_trans 1 0 1 (-1) a c4); [| | lia].
  - apply (compiled_need 0); [exact H4 | lia].
  - apply (emitBytes_compiled OP_DEFINE_GLOBAL 1 (-1)); auto.
Qed.

Lemma expressionStatement_compiled (fuel : nat) (c c' : Compiler) :
  expressionStatement strtod fuel c = Ok c' -> compiled 0 0 c c'.
Proof.
  unfold expressionStatement. intros H. inv_bind H. injection H as <-.
  apply (compiled_trans 0 1 1 (-1) c a);
    [eapply expression_compiled; eassumption | | lia].
  apply (compiled_trans 1 0 1 (-1) a
           (consume TOKEN_SEMICOLON "Expect ';' after expression." a));
    [| | lia].
  - apply (compiled_need 0); [apply consume_compiled | lia].
  - apply (emitByte_compiled OP_POP); reflexivity.
Qed.

Lemma printStatement_compiled (fuel : nat) (c c' : Compiler) :
  printStatement strtod fuel c = Ok c' -> compiled 0 0 c c'.
Proof.
  unfold printStatement. intros H. inv_bind H. injection H as <-.
  apply (compiled_trans 0 1 1 (-1) c a);
    [eapply expression_compiled; eassumption | | lia].
  apply (compiled_trans 1 0 1 (-1) a
           (consume TOKEN_SEMICOLON "Expect ';' after value." a));
    [| | lia].
  - apply (compiled_need 0); [apply consume_compiled | lia].
  - apply (emitByte_compiled OP_PRINT); reflexivity.
Qed.

Lemma statement_compiled (fuel : nat) (c c' : Compiler) :
  statement strtod fuel c = Ok c' -> compiled 0 0 c c'.
Proof.
  unfold statement. intros H.
  pose proof (match_compiled TOKEN_PRINT c) as H0.
  destruct (match_ TOKEN_PRINT c) as [m c0]. cbn [snd] in H0.
  apply (compiled_trans 0 0 0 0 c c0); [exact H0 | | lia].
  destruct m.
  - eapply printStatement_compiled. eassumption.
  - eapply expressionStatement_compiled. eassumption.
Qed.

Lemma synchronize_loop_compiled (fuel : nat) :
  forall c c', synchronize_loop fuel c = Ok c' -> compiled 0 0 c c'.
Proof.
  induction fuel as [|fuel IH]; intros c c' H; simpl in H;
    destruct (type_eqb (tk_type (current (parser c))) TOKEN_EOF);
    try (injection H as <-; apply compiled_refl);
    destruct (type_eqb (tk_type (previous (parser c))) TOKEN_SEMICOLON);
    try (injection H as <-; apply compiled_refl);
    destruct (tk_type (current (parser c)));
    try (injection H as <-; apply compiled_refl);
    try discriminate;
    (apply (compiled_trans 0 0 0 0 c (advance c));
     [apply advance_compiled | apply IH; exact H | lia]).
Qed.

Lemma synchronize_compiled (c c' : Compiler) :
  synchronize c = Ok c' -> compiled 0 0 c c'.
Proof.
  unfold synchronize. intros H.
  apply (compiled_trans 0 0 0 0 c (clear_panic c)); [| | lia].
  - apply compiled_same; [reflexivity | simpl; auto |].
    unfold panic_flagged. simpl. discriminate.
  - eapply synchronize_loop_compiled. eassumption.
Qed.

Lemma decleration_compiled (fuel : nat) (c c' : Compiler) :
  decleration strtod fuel c = Ok c' -> compiled 0 0 c c'.
Proof.
  unfold decleration. intros H.
  pose proof (match_compiled TOKEN_VAR c) as H0.
  destruct (match_ TOKEN_VAR c) as [m c0]. cbn [snd] in H0.
  inv_bind H.
  assert (H1 : compiled 0 0 c0 a).
  { destruct m.
    - eapply varDecleration_compiled. eassumption.
    - eapply statement_compiled. eassumption. }
  apply (compiled_trans 0 0 0 0 c c0); [exact H0 | | lia].
  apply (compiled_trans 0 0 0 0 c0 a); [exact H1 | | lia].
  destruct (panicMode (parser a)).
  - apply synchronize_compiled. exact H.
  - injection H as <-. apply compiled_refl.
Qed.

Lemma compile_loop_compiled (fuel : nat) :
  forall c c', compile_loop strtod fuel c = Ok c' -> compiled 0 0 c c'.
Proof.
  induction fuel as [|fuel IH]; intros c c' H; simpl in H;
    pose proof (match_compiled TOKEN_EOF c) as H0;
    destruct (match_ TOKEN_EOF c) as [m c0]; cbn [snd] in H0;
    destruct m; try discriminate;
    try (injection H as <-; exact H0).
  inv_bind H.
  apply (compiled_trans 0 0 0 0 c c0); [exact H0 | | lia].
  apply (compiled_trans 0 0 0 0 c0 a); [| apply IH; exact H | lia].
  eapply decleration_compiled. eassumption.
Qed.

Lemma compile_compiled (source : Scanner) (k : Chunk) (h : Heap) :
  exists (c : Compiler) (body : list Z),
    compile strtod source k h = Ok (negb (hadError (parser c)), c) /\
    code (compilingChunk c) = code k ++ body ++ [op OP_RETURN] /\
    length (lines (compilingChunk c))
      = (length (lines k) + length body + 1)%nat /\
    (length (constants k) <= length (constants (compilingChunk c)))%nat /\
    Forall (fun b => 0 <= b <= UINT8_MAX) body /\
    (hadError (parser c) = false ->
     straight_line (Z.of_nat (length (constants (compilingChunk c)))) body 0
       = Some 0).
Proof.
  unfold compile, compile_with.
  set (t0 := mkToken TOKEN_EOF EmptyString 0 0).
  set (c0 := mkCompiler (mkParser t0 t0 false false) source k h []).
  destruct (advance_later c0) as (Hl0 & _).
  pose proof (later_left _ _ Hl0) as Hn.
  assert (H0 : tokens_left c0 = length source).
  { unfold tokens_left, weight, c0, t0. simpl. lia. }
  destruct (compile_loop_later strtod (S (S (length source))) (advance c0)
              ltac:(lia)) as (c1 & Hrun & _).
  rewrite Hrun. cbn [Res_bind].
  pose proof (compiled_trans 0 0 0 0 c0 (advance c0) c1
                (advance_compiled c0)
                (compile_loop_compiled _ _ _ Hrun) ltac:(lia))
    as (_ & _ & K & body & E & L & B & S).
  exists (endCompiler c1), body. split; [reflexivity|].
  unfold endCompiler, emitReturn, emitByte, writeChunk. simpl.
  split; [rewrite E, app_assoc; reflexivity|].
  split; [rewrite length_app, L; simpl; lia|].
  split; [exact K|]. split; [exact B|].
  intros He. apply (S ltac:(unfold panic_flagged; simpl; discriminate) He);
    lia.
Qed.

(** X15: when [compile] returns true, the code it has added to the
    chunk is, before the final OP_RETURN, a sequence of whole instructions
    whose constant operands are indices of constants of the chunk, and
    which, run on an empty stack, never reads a value that is not there
    and leaves the stack empty. *)
Theorem compile_writes_balanced_code (source : Scanner) (k : Chunk) (h : Heap)
    (c : Compiler) :
  compile strtod source k h = Ok (true, c) ->
  exists body,
    code (compilingChunk c) = code k ++ body ++ [op OP_RETURN] /\
    straight_line (Z.of_nat (length (constants (compilingChunk c)))) body 0
      = Some 0.
Proof.
  intros H.
  destruct (compile_compiled source k h) as (c' & body & Hc & E & _ & _ & _ & S).
  rewrite Hc in H. injection H as Hf <-.
  exists body. split; [exact E|]. apply S.
  destruct (hadError (parser c')); [discriminate | reflexivity].
Qed.


End CompiledCode.

(** ** The compiler: the errors it reports *)

Section Reports.

Variable strtod : string -> float.

Lemma reports_same (c c' : Compiler) :
  panicMode (parser c') = panicMode (parser c) -> c_err c' = c_err c ->
  reports c c'.
Proof.
  intros Hp He. split; intros H; rewrite Hp, He; auto.
Qed.

Lemma reports_refl (c : Compiler) : reports c c.
Proof. apply reports_same; reflexivity. Qed.

Lemma reports_trans (c1 c2 c3 : Compiler) :
  reports c1 c2 -> reports c2 c3 -> reports c1 c3.
Proof.
  intros [P1 Q1] [P2 Q2]. split; intros H.
  - destruct (P1 H) as [H1 E1]. destruct (P2 H1) as [H2 E2].
    split; [exact H2 | congruence].
  - destruct (Q1 H) as [[H1 E1] | (H1 & line & E1)].
    + destruct (Q2 H1) as [[H2 E2] | (H2 & line & E2)].
      * left. split; [exact H2 | congruence].
      * right. split; [exact H2|]. exists line. congruence.
    + destruct (P2 H1) as [H2 E2]. right. split; [exact H2|].
      exists line. congruence.
Qed.

Lemma errorAt_reports (token : Token) (message : string) (c : Compiler) :
  reports c (errorAt token message c).
Proof.
  unfold errorAt. destruct (panicMode (parser c)) eqn:Hp.
  - apply reports_refl.
  - split; intros H; [congruence|]. right. simpl. eauto.
Qed.

Lemma advance_loop_reports (s : Scanner) (c : Compiler) :
  reports c (advance_loop s c).
Proof.
  revert c. induction s as [|t rest IH]; intros c; simpl.
  - apply reports_same; reflexivity.
  - destruct (type_eqb (tk_type t) TOKEN_ERROR).
    + apply (reports_trans c (set_current t c)); [apply reports_same; reflexivity|].
      eapply reports_trans; [|apply IH]. apply errorAt_reports.
    + apply reports_same; reflexivity.
Qed.

Lemma advance_reports (c : Compiler) : reports c (advance c).
Proof.
  unfold advance. set (c0 := with_parser _ c).
  apply (reports_trans c c0); [apply reports_same; reflexivity|].
  apply advance_loop_reports.
Qed.

Lemma consume_reports (type : TokenType) (message : string) (c : Compiler) :
  reports c (consume type message c).
Proof.
  unfold consume. destruct (type_eqb _ type).
  - apply advance_reports.
  - apply errorAt_reports.
Qed.

Lemma match_reports (type : TokenType) (c : Compiler) :
  reports c (snd (match_ type c)).
Proof.
  unfold match_. destruct (negb (check type c)); simpl.
  - apply reports_refl.
  - apply advance_reports.
Qed.

Lemma emitByte_reports (byte : Z) (c : Compiler) : reports c (emitByte byte c).
Proof. apply reports_same; reflexivity. Qed.

Lemma emitBytes_reports (byte1 byte2 : Z) (c : Compiler) :
  reports c (emitBytes byte1 byte2 c).
Proof. apply reports_same; reflexivity. Qed.

Lemma makeConstant_reports (value : Value) (c : Compiler) :
  reports c (snd (makeConstant value c)).
Proof.
  unfold makeConstant, addConstant. set (c1 := with_chunk _ c).
  destruct (UINT8_MAX <? _); simpl.
  - apply (reports_trans c c1); [apply reports_same; reflexivity|].
    apply errorAt_reports.
  - apply reports_same; reflexivity.
Qed.

Lemma emitConstant_reports (value : Value) (c : Compiler) :
  reports c (emitConstant value c).
Proof.
  unfold emitConstant. pose proof (makeConstant_reports value c) as H.
  destruct (makeConstant value c) as [k c1]. cbn [snd] in H.
  eapply reports_trans; [exact H | apply emitBytes_reports].
Qed.

Lemma identifierConstant_reports (name : Token) (c : Compiler) :
  reports c (snd (identifierConstant name c)).
Proof.
  unfold identifierConstant.
  assert (H0 : reports c (snd (intern (lexeme name) c)))
    by (apply reports_same; reflexivity).
  destruct (intern (lexeme name) c) as [s c0]. cbn [snd] in H0.
  eapply reports_trans; [exact H0 | apply makeConstant_reports].
Qed.

Lemma namedVariable_reports (name : Token) (c : Compiler) :
  reports c (namedVariable name c).
Proof.
  unfold namedVariable. pose proof (identifierConstant_reports name c) as H.
  destruct (identifierConstant name c) as [k c1]. cbn [snd] in H.
  eapply reports_trans; [exact H | apply emitBytes_reports].
Qed.

Lemma string_reports (c : Compiler) : reports c (string_ c).
Proof.
  unfold string_.
  assert (H0 : reports c
                 (snd (intern (substring 1 (tk_length (previous (parser c)) - 2)
                                 (tk_start (previous (parser c)))) c)))
    by (apply reports_same; reflexivity).
  destruct (intern _ c) as [s c0]. cbn [snd] in H0.
  eapply reports_trans; [exact H0 | apply emitConstant_reports].
Qed.

Lemma literal_reports (c : Compiler) : reports c (literal c).
Proof.
  unfold literal. destruct (tk_type (previous (parser c)));
    first [apply reports_refl | apply emitByte_reports].
Qed.

Lemma call_rule_reports (pp : Z -> Compiler -> Res Compiler) (fn : ParseFn)
    (c c' : Compiler) :
  (forall prec c c', pp prec c = Ok c' -> reports c c') ->
  call_rule strtod pp fn c = Ok c' -> reports c c'.
Proof.
  intros Hpp H. destruct fn; cbn [call_rule] in H.
  - unfold grouping, expression in H. inv_bind H. injection H as <-.
    eapply reports_trans; [eapply Hpp; eassumption | apply consume_reports].
  - unfold unary in H. inv_bind H. injection H as <-.
    eapply reports_trans; [eapply Hpp; eassumption |].
    destruct (tk_type (previous (parser c))); cbv iota;
      first [apply reports_refl | apply emitByte_reports].
  - unfold binary in H. inv_bind H. injection H as <-.
    eapply reports_trans; [eapply Hpp; eassumption |].
    destruct (tk_type (previous (parser c))); cbv iota;
      first [apply reports_refl | apply emitByte_reports
            | apply emitBytes_reports].
  - injection H as <-. apply literal_reports.
  - injection H as <-. apply namedVariable_reports.
  - injection H as <-. apply string_reports.
  - injection H as <-. apply emitConstant_reports.
Qed.

Lemma parse_infix_reports (pp : Z -> Compiler -> Res Compiler) :
  (forall prec c c', pp prec c = Ok c' -> reports c c') ->
  forall (fuel : nat) (prec : Z) (c c' : Compiler),
    parse_infix strtod fuel pp prec c = Ok c' -> reports c c'.
Proof.
  intros Hpp. induction fuel as [|fuel IH]; intros prec c c' H; simpl in H;
    destruct (prec <=? precedence (getRule (tk_type (current (parser c)))));
    try discriminate; try (injection H as <-; apply reports_refl).
  destruct (infix (getRule (tk_type (previous (parser (advance c))))))
    as [fn|]; [|discriminate].
  inv_bind H.
  apply (reports_trans c (advance c)); [apply advance_reports|].
  eapply reports_trans;
    [eapply (call_rule_reports pp); [exact Hpp | eassumption]|].
  eapply IH. eassumption.
Qed.

Lemma parsePrecedence_reports (fuel : nat) :
  forall prec c c',
    parsePrecedence strtod fuel prec c = Ok c' -> reports c c'.
Proof.
  induction fuel as [|fuel IH]; intros prec c c' H; [discriminate|].
  simpl in H.
  apply (reports_trans c (advance c)); [apply advance_reports|].
  destruct (prefix (getRule (tk_type (previous (parser (advance c))))))
    as [fn|].
  - inv_bind H.
    eapply reports_trans;
      [eapply (call_rule_reports (parsePrecedence strtod fuel));
       [exact IH | eassumption]|].
    eapply (parse_infix_reports (parsePrecedence strtod fuel));
      [exact IH | eassumption].
  - injection H as <-. apply errorAt_reports.
Qed.

Lemma varDecleration_reports (fuel : nat) (c c' : Compiler) :
  varDecleration strtod fuel c = Ok c' -> reports c c'.
Proof.
  unfold varDecleration, parseVariable. intros H.
  set (c0 := consume TOKEN_IDENTIFIER "Expect variable name." c) in *.
  assert (H0 : reports c c0) by apply consume_reports.
  pose proof (identifierConstant_reports (previous (parser c0)) c0) as H1.
  destruct (identifierConstant (previous (parser c0)) c0) as [global c1].
  cbn [snd] in H1.
  pose proof (match_reports TOKEN_EQUAL c1) as H2.
  destruct (match_ TOKEN_EQUAL c1) as [m c2]. cbn [snd] in H2.
  inv_bind H. injection H as <-.
  assert (H3 : reports c2 a).
  { destruct m.
    - eapply parsePrecedence_reports. eassumption.
    - injection Ha as <-. apply emitByte_reports. }
  eapply reports_trans; [exact H0|]. eapply reports_trans; [exact H1|].
  eapply reports_trans; [exact H2|]. eapply reports_trans; [exact H3|].
  eapply reports_trans; [apply consume_reports | apply emitBytes_reports].
Qed.

Lemma statement_reports (fuel : nat) (c c' : Compiler) :
  statement strtod fuel c = Ok c' -> reports c c'.
Proof.
  unfold statement. intros H.
  pose proof (match_reports TOKEN_PRINT c) as H0.
  destruct (match_ TOKEN_PRINT c) as [m c0]. cbn [snd] in H0.
  eapply reports_trans; [exact H0|].
  destruct m; [unfold printStatement in H | unfold expressionStatement in H];
    inv_bind H; injection H as <-;
    (eapply reports_trans; [eapply parsePrecedence_reports; eassumption|]);
    (eapply reports_trans; [apply consume_reports | apply emitByte_reports]).
Qed.

(** X17: a statement or a variable declaration reports one error at
    most, whatever it meets: it leaves panic mode as it found it and
    reports nothing, or it starts out of panic mode, reports one line and
    ends in panic mode. *)
Theorem statement_reports_one_error (fuel : nat) (c c' : Compiler) :
  statement strtod fuel c = Ok c' \/ varDecleration strtod fuel c = Ok c' ->
  (panicMode (parser c') = panicMode (parser c) /\ c_err c' = c_err c) \/
  (panicMode (parser c) = false /\ panicMode (parser c') = true /\
   exists line, c_err c' = c_err c ++ [line]).
Proof.
  intros H.
  assert (Hr : reports c c').
  { destruct H; [eapply statement_reports | eapply varDecleration_reports];
      eassumption. }
  destruct Hr as [P Q]. destruct (panicMode (parser c)) eqn:Hp.
  - left. destruct (P eq_refl) as [-> ->]. auto.
  - destruct (Q eq_refl) as [[-> ->] | (H1 & line & E)]; [auto|].
    right. eauto.
Qed.

Lemma advance_chunk (c : Compiler) :
  compilingChunk (advance c) = compilingChunk c.
Proof.
  unfold advance. set (c0 := with_parser _ c).
  destruct (advance_loop_later (scanner c0) c0) as (_ & Hk & _).
  exact Hk.
Qed.

Lemma synchronize_loop_stops (fuel : nat) :
  forall c c',
    synchronize_loop fuel c = Ok c' ->
    at_boundary c' = true /\ compilingChunk c' = compilingChunk c /\
    reports c c'.
Proof.
  induction fuel as [|fuel IH]; intros c c' H; simpl in H.
  - destruct (type_eqb (tk_type (current (parser c))) TOKEN_EOF) eqn:E1;
      [injection H as <-; unfold at_boundary; rewrite E1;
       split; [reflexivity|]; split; [reflexivity | apply reports_refl]|].
    destruct (type_eqb (tk_type (previous (parser c))) TOKEN_SEMICOLON) eqn:E2;
      [injection H as <-; unfold at_boundary; rewrite E1, E2;
       split; [reflexivity|]; split; [reflexivity | apply reports_refl]|].
    destruct (tk_type (current (parser c))) eqn:E3; try discriminate;
      injection H as <-; unfold at_boundary; rewrite E3, E2;
      (split; [reflexivity|]; split; [reflexivity | apply reports_refl]).
  - destruct (type_eqb (tk_type (current (parser c))) TOKEN_EOF) eqn:E1;
      [injection H as <-; unfold at_boundary; rewrite E1;
       split; [reflexivity|]; split; [reflexivity | apply reports_refl]|].
    destruct (type_eqb (tk_type (previous (parser c))) TOKEN_SEMICOLON) eqn:E2;
      [injection H as <-; unfold at_boundary; rewrite E1, E2;
       split; [reflexivity|]; split; [reflexivity | apply reports_refl]|].
    destruct (tk_type (current (parser c))) eqn:E3;
      try (injection H as <-; unfold at_boundary; rewrite E3, E2;
           split; [reflexivity|]; split; [reflexivity | apply reports_refl]);
      (apply IH in H as (Hb & Hk & Hr);
       split; [exact Hb|]; split; [rewrite Hk; apply advance_chunk|];
       eapply reports_trans; [apply advance_reports | exact Hr]).
Qed.

(** X18: [synchronize] returns, at the end of the source, after
    a semicolon or before a keyword that starts a statement; it writes no
    code; and it comes back out of panic mode with nothing reported, or in
    panic mode again with one line reported, for an error token it has
    skipped. *)
Theorem synchronize_stops_at_boundary (c : Compiler) :
  exists c',
    synchronize c = Ok c' /\
    at_boundary c' = true /\
    compilingChunk c' = compilingChunk c /\
    ((panicMode (parser c') = false /\ c_err c' = c_err c) \/
     (panicMode (parser c') = true /\
      exists line, c_err c' = c_err c ++ [line])).
Proof.
  destruct (synchronize_later c) as (c' & H & _).
  exists c'. split; [exact H|].
  unfold synchronize in H.
  apply synchronize_loop_stops in H as (Hb & Hk & _ & Hr).
  split; [exact Hb|]. split; [exact Hk|].
  exact (Hr eq_refl).
Qed.

(** *** Error tokens *)

Lemma type_eqb_eq (a b : TokenType) : type_eqb a b = true <-> a = b.
Proof.
  split; [|intros ->; unfold type_eqb; apply Z.eqb_refl].
  destruct a, b; first [reflexivity | discriminate].
Qed.

Lemma errorAtCurrent_scan (t : Token) (c : Compiler) :
  type_eqb (tk_type t) TOKEN_ERROR = true ->
  panicMode (parser c) = false ->
  c_err (errorAtCurrent (tk_start t) (set_current t c))
    = c_err c ++ [scan_error_line t].
Proof.
  intros Ht Hp. apply type_eqb_eq in Ht.
  unfold errorAtCurrent, errorAt, set_current. simpl. rewrite Hp. simpl.
  rewrite Ht. reflexivity.
Qed.

Lemma advance_loop_skips (s : Scanner) :
  forall c : Compiler,
    exists skipped,
      Forall (fun t => type_eqb (tk_type t) TOKEN_ERROR = true) skipped /\
      type_eqb (tk_type (current (parser (advance_loop s c)))) TOKEN_ERROR
        = false /\
      (s = skipped ++ current (parser (advance_loop s c))
                   :: scanner (advance_loop s c) \/
       s = skipped /\ scanner (advance_loop s c) = [] /\
       tk_type (current (parser (advance_loop s c))) = TOKEN_EOF) /\
      c_err (advance_loop s c)
        = c_err c ++
          (if panicMode (parser c) then []
           else match skipped with
                | [] => []
                | t :: _ => [scan_error_line t]
                end) /\
      panicMode (parser (advance_loop s c))
        = panicMode (parser c) || (0 <? length skipped)%nat.
Proof.
  induction s as [|t rest IH]; intros c; simpl.
  - exists []. split; [constructor|]. split; [reflexivity|].
    split; [right; auto|].
    split; [destruct (panicMode (parser c)); rewrite app_nil_r; reflexivity|].
    simpl. rewrite orb_false_r. reflexivity.
  - destruct (type_eqb (tk_type t) TOKEN_ERROR) eqn:Et.
    + destruct (IH (errorAtCurrent (tk_start t) (set_current t c)))
        as (skipped & Hs & Hc & Hsplit & He & Hp).
      exists (t :: skipped). split; [constructor; assumption|].
      split; [exact Hc|].
      split.
      { destruct Hsplit as [E | (E & E1 & E2)].
        - left. simpl. f_equal. exact E.
        - right. split; [f_equal; exact E | auto]. }
      assert (Hpanic : panicMode (parser (errorAtCurrent (tk_start t)
                                            (set_current t c))) = true).
      { unfold errorAtCurrent, errorAt.
        destruct (panicMode (parser (set_current t c))) eqn:E; [exact E|].
        reflexivity. }
      rewrite Hpanic in He, Hp. rewrite app_nil_r in He.
      split.
      * rewrite He. destruct (panicMode (parser c)) eqn:Hpc.
        -- unfold errorAtCurrent, errorAt, set_current. simpl. rewrite Hpc.
           simpl. rewrite app_nil_r. reflexivity.
        -- apply errorAtCurrent_scan; assumption.
      * rewrite Hp. simpl. rewrite orb_true_r. reflexivity.
    + exists []. split; [constructor|]. simpl. split; [exact Et|].
      split; [left; reflexivity|].
      split; [destruct (panicMode (parser c)); rewrite app_nil_r; reflexivity|].
      rewrite orb_false_r. reflexivity.
Qed.

(** X19: [advance] keeps the current token as the previous one and
    takes the next token of the scanner that is no TOKEN_ERROR, or
    TOKEN_EOF when there is none; of the error tokens it skips it reports
    the first, with the scanner's message, unless the parser panics
    already, and after a skipped token the parser panics. *)
Theorem advance_skips_error_tokens (c : Compiler) :
  exists skipped,
    Forall (fun t => type_eqb (tk_type t) TOKEN_ERROR = true) skipped /\
    previous (parser (advance c)) = current (parser c) /\
    type_eqb (tk_type (current (parser (advance c)))) TOKEN_ERROR = false /\
    (scanner c = skipped ++ current (parser (advance c))
                         :: scanner (advance c) \/
     scanner c = skipped /\ scanner (advance c) = [] /\
     tk_type (current (parser (advance c))) = TOKEN_EOF) /\
    c_err (advance c)
      = c_err c ++
        (if panicMode (parser c) then []
         else match skipped with
              | [] => []
              | t :: _ => [scan_error_line t]
              end) /\
    panicMode (parser (advance c))
      = panicMode (parser c) || (0 <? length skipped)%nat.
Proof.
  destruct (advance_later c) as (_ & Hprev & _).
  unfold advance in *. set (c0 := with_parser _ c) in *.
  destruct (advance_loop_skips (scanner c0) c0)
    as (skipped & Hs & Hc & Hsplit & He & Hp).
  exists skipped. split; [exact Hs|]. split; [exact Hprev|].
  split; [exact Hc|]. split; [exact Hsplit|]. split; [exact He | exact Hp].
Qed.

End Reports.
Open Scope string_scope.
Open Scope list_scope.
Open Scope Z_scope.

(** ** The chunk of bytes *)

Section ByteChunkFacts.

Import ByteChunk.

Lemma writeChunk_sound (chunk : Chunk) (byte : Z) :
  sound chunk -> count chunk < 2 ^ 30 ->
  exists chunk',
    writeChunk chunk byte = Ok chunk' /\
    sound chunk' /\
    count chunk' = count chunk + 1 /\
    bytes chunk' = bytes chunk ++ [Some byte].
Proof.
  intros ((Hc0 & Hc1) & Hlen & Hpow & Hamort) Hsmall.
  unfold writeChunk.
  destruct (Z.eqb_spec (count chunk) INT_MAX) as [E|_];
    [unfold INT_MAX in E; lia|].
  destruct (Z.ltb_spec (capacity chunk) (count chunk + 1)) as [Hfull|Hroom].
  - assert (Hcc : count chunk = capacity chunk) by lia.
    assert (Hg : exists k, 3 <= k <= 30 /\
                   GROW_CAPACITY (capacity chunk) = 2 ^ k /\
                   capacity chunk < 2 ^ k /\
                   2 ^ k <= Z.max 8 (2 * capacity chunk)).
    { unfold GROW_CAPACITY. destruct Hpow as [E0 | (k & Hk & Ek)].
      - rewrite E0. exists 3. change (2 ^ 3) with 8. simpl.
        repeat split; lia.
      - destruct (Z.ltb_spec (capacity chunk) 8) as [H8|H8].
        + assert (H3 : 2 ^ 3 <= 2 ^ k) by (apply Z.pow_le_mono_r; lia).
          change (2 ^ 3) with 8 in H3. lia.
        + assert (k < 30).
          { destruct (Z.eq_dec k 30) as [->|]; [|lia]. lia. }
          exists (Z.succ k). rewrite Z.pow_succ_r by lia.
          repeat split; lia. }
    destruct Hg as (k & Hk & Eg & Hlt & Hle). rewrite Eg.
    assert (Hmax : 2 ^ k <= 2 ^ 30) by (apply Z.pow_le_mono_r; lia).
    destruct (Z.ltb_spec INT_MAX (2 ^ k)) as [Hover|_];
      [unfold INT_MAX in Hover; lia|].
    cbn [Res_bind count capacity code].
    unfold GROW_ARRAY, reallocate.
    destruct (Z.eqb_spec (2 ^ k) 0) as [E|_]; [lia|].
    rewrite take_ge by lia.
    set (block := code chunk ++ replicate (Z.to_nat (2 ^ k) - length (code chunk))
                                   None).
    assert (Hbl : Z.of_nat (length block) = 2 ^ k).
    { unfold block. rewrite length_app, length_replicate. lia. }
    destruct (Z.ltb_spec (count chunk) 0); [lia|].
    destruct (Z.leb_spec (Z.of_nat (length block)) (count chunk)); [lia|].
    simpl. eexists. split; [reflexivity|].
    split; [|split; [reflexivity|]].
    + unfold sound. cbn [count capacity code].
      rewrite length_insert.
      split; [lia|]. split; [exact Hbl|]. split; [right; eauto | lia].
    + unfold bytes. cbn [count code].
      replace (Z.to_nat (count chunk + 1)) with (S (Z.to_nat (count chunk)))
        by lia.
      unfold block.
      assert (Hn : Z.to_nat (count chunk) = length (code chunk)) by lia.
      rewrite Hn. rewrite (take_ge (code chunk)) by lia.
      rewrite insert_app_r_alt by lia. rewrite Nat.sub_diag.
      destruct (Z.to_nat (2 ^ k) - length (code chunk))%nat eqn:Er; [lia|].
      simpl. rewrite cons_middle, app_assoc.
      apply take_app_length'. rewrite length_app. simpl. lia.
  - cbn [Res_bind].
    destruct (Z.ltb_spec (count chunk) 0); [lia|].
    destruct (Z.leb_spec (Z.of_nat (length (code chunk))) (count chunk)); [lia|].
    simpl. eexists. split; [reflexivity|].
    split; [|split; [reflexivity|]].
    + unfold sound. cbn [count capacity code]. rewrite length_insert.
      split; [lia|]. split; [exact Hlen|]. split; [exact Hpow | lia].
    + unfold bytes. cbn [count code].
      replace (Z.to_nat (count chunk + 1)) with (S (Z.to_nat (count chunk)))
        by lia.
      destruct (lookup_lt_is_Some_2 (code chunk) (Z.to_nat (count chunk)))
        as [old Hold]; [lia|].
      rewrite (take_S_r _ _ (Some byte)).
      * rewrite take_insert_ge by lia. reflexivity.
      * apply list_lookup_insert_eq. lia.
Qed.

Lemma initChunk_sound : sound initChunk.
Proof. unfold sound, initChunk. simpl. repeat split; lia. Qed.

Lemma writeAll_sound (l : list Z) :
  forall chunk : Chunk,
    sound chunk -> count chunk + Z.of_nat (length l) <= 2 ^ 30 ->
    exists chunk',
      writeAll chunk l = Ok chunk' /\
      sound chunk' /\
      count chunk' = count chunk + Z.of_nat (length l) /\
      bytes chunk' = bytes chunk ++ map Some l.
Proof.
  induction l as [|byte rest IH]; intros chunk Hs Hn; simpl.
  - exists chunk. split; [reflexivity|]. split; [exact Hs|].
    split; [lia | rewrite app_nil_r; reflexivity].
  - destruct (writeChunk_sound chunk byte Hs ltac:(simpl in Hn; lia))
      as (c1 & -> & Hs1 & Hc1 & Hb1).
    cbn [Res_bind].
    destruct (IH c1 Hs1 ltac:(simpl in Hn; lia)) as (c2 & -> & Hs2 & Hc2 & Hb2).
    exists c2. split; [reflexivity|]. split; [exact Hs2|].
    split; [simpl; lia|].
    rewrite Hb2, Hb1, <- app_assoc. reflexivity.
Qed.

(** X20: on a chunk that keeps the invariant of the dynamic
    array, with fewer than 2^30 bytes, [writeChunk] returns; the chunk
    keeps the invariant, with one byte more: the bytes it held, then the
    new one, whether the array has grown or not.  At 2^30 bytes the
    capacity to come is no [int] and the call is undefined. *)
Theorem writeChunk_appends (chunk : Chunk) (byte : Z) :
  sound chunk ->
  (count chunk < 2 ^ 30 ->
   exists chunk',
     writeChunk chunk byte = Ok chunk' /\
     sound chunk' /\
     count chunk' = count chunk + 1 /\
     bytes chunk' = bytes chunk ++ [Some byte]) /\
  (count chunk = 2 ^ 30 -> writeChunk chunk byte = Undefined).
Proof.
  intros Hs. split; [apply writeChunk_sound; exact Hs|].
  destruct Hs as ((Hc0 & Hc1) & Hlen & Hpow & Hamort). intros Hc.
  assert (Hcap : capacity chunk = 2 ^ 30).
  { destruct Hpow as [E0 | (k & Hk & Ek)]; [lia|].
    assert (2 ^ k <= 2 ^ 30) by (apply Z.pow_le_mono_r; lia). lia. }
  unfold writeChunk. rewrite Hc, Hcap.
  reflexivity.
Qed.

(** X21: the bytes written to a fresh chunk, 2^30 at most, are the
    bytes of the chunk, in the order of the writes; the chunk keeps the
    invariant of the dynamic array, so its block is at most twice as large
    as the bytes need, 8 cells at least. *)
Theorem written_bytes_are_kept (l : list Z) :
  Z.of_nat (length l) <= 2 ^ 30 ->
  exists chunk,
    writeAll initChunk l = Ok chunk /\
    sound chunk /\
    count chunk = Z.of_nat (length l) /\
    bytes chunk = map Some l.
Proof.
  intros Hn.
  destruct (writeAll_sound l initChunk initChunk_sound ltac:(simpl; lia))
    as (chunk & H & Hs & Hc & Hb).
  exists chunk. split; [exact H|]. split; [exact Hs|].
  split; [exact Hc | exact Hb].
Qed.

End ByteChunkFacts.

(** ** Reading a script *)

Section ReadingFiles.

(** The buffer of [readFile] after [fread]: one cell more than the file has
    bytes. *)
Lemma buffer_length (bytes : list Z) (n : nat) :
  Z.of_nat
    (length
       ((Some <$> take (Z.to_nat (Z.of_nat (Nat.min n (length bytes)))) bytes) ++
        drop (Z.to_nat (Z.of_nat (Nat.min n (length bytes))))
          (replicate (Z.to_nat (Z.of_nat (length bytes) + 1)) (@None Z))))
  = Z.of_nat (length bytes) + 1.
Proof.
  rewrite length_app, length_fmap, length_take, length_drop, length_replicate.
  lia.
Qed.

Lemma readFile_exits (libc : Libc) (path : string) (out : list string)
    (r : Ran (list (option Z))) :
  readFile libc path = Ok (out, r) ->
  r = Exited 74 /\ exists line, out = [line].
Proof.
  unfold readFile. intros H.
  destruct (fopen libc path) as [file|];
    [|injection H as <- <-; split; eauto].
  destruct (malloc_succeeds libc); cbn [negb] in H;
    [|injection H as <- <-; split; eauto].
  rewrite buffer_length in H.
  destruct (Z.ltb_spec
              (Z.of_nat (Nat.min (f_read file) (length (f_bytes file))))
              (Z.of_nat (length (f_bytes file))));
    [injection H as <- <-; split; eauto|].
  destruct (Z.leb_spec (Z.of_nat (length (f_bytes file)) + 1)
              (Z.of_nat (Nat.min (f_read file) (length (f_bytes file))) + 1));
    [discriminate | lia].
Qed.

(** X22: [readFile] never returns a buffer.  When the file does
    not open, the memory is not found or the read falls short, it reports
    the failure in one line and exits with status 74; when the file is
    read in full, the terminator is stored one cell past the end of the
    buffer, which is undefined.  So [runFile] never reaches [interpret]:
    it exits with 74 or is undefined, whatever the script. *)
Theorem readFile_stores_past_the_buffer (libc : Libc) (path : string)
    (interpret : list (option Z) -> InterpretResult) :
  (forall file,
     fopen libc path = Some file -> malloc_succeeds libc = true ->
     (length (f_bytes file) <= f_read file)%nat ->
     readFile libc path = Undefined) /\
  (forall out r,
     readFile libc path = Ok (out, r) ->
     r = Exited 74 /\ exists line, out = [line]) /\
  (forall out r,
     runFile libc interpret path = Ok (out, r) -> r = Exited 74).
Proof.
  split; [|split; [apply readFile_exits|]].
  - intros file Hf Hm Hall. unfold readFile. rewrite Hf, Hm. cbn [negb].
    rewrite buffer_length.
    destruct (Z.ltb_spec
                (Z.of_nat (Nat.min (f_read file) (length (f_bytes file))))
                (Z.of_nat (length (f_bytes file)))); [lia|].
    destruct (Z.leb_spec (Z.of_nat (length (f_bytes file)) + 1)
                (Z.of_nat (Nat.min (f_read file) (length (f_bytes file))) + 1));
      [reflexivity | lia].
  - intros out r H. unfold runFile in H. inv_bind H. destruct a as [o ran].
    destruct (readFile_exits _ _ _ _ Ha) as (-> & _). cbn [snd fst] in H.
    injection H as _ <-. reflexivity.
Qed.

End ReadingFiles.
Open Scope string_scope.
Open Scope list_scope.
Open Scope Z_scope.

(** ** The machine: calls and globals *)

Section CallsAndGlobals.

Variable strtod : string -> float.

(** X23: a call of a closure that succeeds and the OP_RETURN
    that ends it compose to the calling convention: once the callee is
    back in the frame the call has pushed, with its result on top of the
    stack, OP_RETURN gives the caller its frames back, and the callee and
    its [argCount] arguments have made place for the result: the stack top
    is [argCount] lower than before the call, the result is in the slot of
    the callee, and no other cell of the stack has changed. *)
Theorem call_then_return (vm vm1 vm2 : VM) (c : ObjClosure) (argCount : Z)
    (result : Value) l zs :
  call c argCount vm = Ok (true, vm1) ->
  frames vm <> [] ->
  frames vm2 = frames vm1 -> peek 0 vm2 = Ok result ->
  open_list vm2 l zs -> slots_in_stack vm2 zs ->
  0 <= stackTop vm - argCount - 1 < Z.of_nat (length (stack vm2)) ->
  argCount = arity (function c) /\
  exists vm3,
    exec strtod OP_RETURN vm2 = Ok (Running vm3) /\
    frames vm3 = frames vm /\
    stackTop vm3 = stackTop vm - argCount /\
    array_get (stack vm3) (stackTop vm - argCount - 1) = Ok result /\
    forall i, i <> stackTop vm - argCount - 1 ->
              array_get (stack vm3) i = array_get (stack vm2) i.
Proof.
  intros Hcall Hne Hf Hpeek Hl Hin Hslot.
  unfold call in Hcall.
  destruct (Z.eqb_spec argCount (arity (function c))) as [Ha|Ha];
    cbn [negb] in Hcall; [|inv_ok; discriminate].
  destruct (frameCount vm =? FRAMES_MAX); [inv_ok; discriminate|].
  injection Hcall as <-. cbn [frames with_frames] in Hf.
  split; [exact Ha|].
  destruct (return_to_caller strtod vm2 _ _ result l zs Hf Hne Hpeek Hl Hin)
    as (vm3 & He & F3 & T3 & S3 & _).
  cbn [slots] in T3, S3.
  exists vm3. split; [exact He|]. split; [exact F3|].
  split; [lia|]. rewrite S3. split.
  - apply array_get_set. lia.
  - intros i Hi. apply array_get_set_ne. lia.
Qed.

Lemma READ_STRING_globals (vm : VM) (r : ObjString * VM) :
  READ_STRING vm = Ok r -> globals (snd r) = globals vm.
Proof.
  unfold READ_STRING, READ_CONSTANT. intros H.
  inv_bind H. inv_bind Ha. destruct a0 as [b vm'].
  apply READ_BYTE_Ok in Ha0 as (f & fs & _ & _ & ->).
  inv_ok. subst. reflexivity.
Qed.

(** X24: OP_GET_GLOBAL on a table of globals whose stored keys
    are findable and that has an unused entry: it pushes the value stored
    under the name, and when nothing is stored under the name it ends the
    run with the runtime error that names the variable.  When the count of
    the table is zero it reports the variable as undefined whatever the
    table stores. *)
Theorem OP_GET_GLOBAL_reads_or_reports (vm vm1 : VM) (name : ObjString) :
  READ_STRING vm = Ok (name, vm1) ->
  table_ok (globals vm) -> has_vacancy (t_entries (globals vm)) ->
  same_object (t_entries (globals vm)) name ->
  let undefined :=
    vm' <- runtimeError
             ("Undefined variable '" ++ str_chars name ++ "'.")%string vm1 ;;
    Ok (Halted INTERPRET_RUNTIME_ERROR vm') in
  (forall v,
     t_count (globals vm) <> 0 -> stored (t_entries (globals vm)) name v ->
     exec strtod OP_GET_GLOBAL vm = Ok (Running (push v vm1))) /\
  (t_count (globals vm) = 0 \/
   (forall v, ~ stored (t_entries (globals vm)) name v) ->
   exec strtod OP_GET_GLOBAL vm = undefined).
Proof.
  intros Hr Hok Hv Hso undefined.
  pose proof (READ_STRING_globals vm _ Hr) as Hg. cbn [snd] in Hg.
  split.
  - intros v Hc Hs.
    destruct (tableGet_stored _ _ Hok Hv Hso Hc) as (r & Hget & Hiff).
    apply Hiff in Hs. subst r.
    cbn [exec]. rewrite Hr. cbn [Res_bind]. rewrite Hg, Hget. reflexivity.
  - intros Hcase. cbn [exec]. rewrite Hr. cbn [Res_bind]. rewrite Hg.
    destruct (Z.eq_dec (t_count (globals vm)) 0) as [Hc|Hc].
    + unfold tableGet. rewrite Hc. reflexivity.
    + destruct Hcase as [Hc0|Hnone]; [contradiction|].
      destruct (tableGet_stored _ _ Hok Hv Hso Hc) as (r & Hget & Hiff).
      rewrite Hget. destruct r as [v|]; [|reflexivity].
      exfalso. apply (Hnone v), Hiff. reflexivity.
Qed.

End CallsAndGlobals.

(** ** The compiler: the constants of a chunk *)

Section Constants.

(** X25: [makeConstant] adds the value to the constants of the chunk in
    every case.  While the chunk holds 255 constants or fewer it returns
    the index of the new one and reports nothing, so a chunk takes 256
    constants; from the 257th on it returns 0, and reports the error in one
    line unless the parser panics already. *)
Theorem makeConstant_allows_256 (value : Value) (c : Compiler) :
  let n := Z.of_nat (length (constants (compilingChunk c))) in
  let r := makeConstant value c in
  constants (compilingChunk (snd r)) = constants (compilingChunk c) ++ [value] /\
  code (compilingChunk (snd r)) = code (compilingChunk c) /\
  (n <= UINT8_MAX ->
   fst r = n /\ c_err (snd r) = c_err c /\ parser (snd r) = parser c) /\
  (UINT8_MAX < n ->
   fst r = 0 /\
   (panicMode (parser c) = true ->
    c_err (snd r) = c_err c /\ parser (snd r) = parser c) /\
   (panicMode (parser c) = false ->
    hadError (parser (snd r)) = true /\ panicMode (parser (snd r)) = true /\
    exists at_,
      c_err (snd r)
        = c_err c ++
          ["[line " ++ fmt_d (tk_line (previous (parser c))) ++ "] Error" ++
           at_ ++ ": Too many constants in one chunk."]%string)).
Proof.
  intros n r. unfold r, makeConstant, addConstant. fold n.
  destruct (Z.ltb_spec UINT8_MAX n) as [Hbig|Hsmall]; cbn [fst snd].
  - unfold error, errorAt. cbn [parser with_chunk panicMode].
    destruct (panicMode (parser c)) eqn:Hp;
      cbn [compilingChunk with_chunk constants code c_err parser hadError
             panicMode previous];
      (split; [reflexivity|]; split; [reflexivity|]; split; [lia|]);
      intros _; (split; [reflexivity|]); split; intros Hx;
      try discriminate Hx; auto.
    split; [reflexivity|]. split; [reflexivity|]. eexists. reflexivity.
  - cbn [compilingChunk with_chunk constants code c_err parser].
    split; [reflexivity|]. split; [reflexivity|].
    split; [auto | lia].
Qed.

End Constants.

(** * Examples for the further theorems *)

(** The error of [print 'a' + 1;], reported from the script. *)
Lemma runtimeError_reports_and_resets_witness :
  let vm := after_turns 2 add_script in
  Forall has_line (frames vm) /\
  exists vm',
    runtimeError "Operands must be numbers." vm = Ok vm' /\
    err vm' = ["Operands must be numbers."; "[line 1] in script"] /\
    stackTop vm' = 0 /\ frames vm' = [].
Proof.
  intros vm.
  assert (Hfs : exists frame, frames vm = [frame] /\
                trace_line frame = Ok "[line 1] in script" /\ has_line frame).
  { eexists. vm_compute. repeat split; discriminate. }
  destruct Hfs as (frame & Hfs & Hline & Hh).
  assert (He0 : err vm = []) by (vm_compute; reflexivity).
  assert (Hl : Forall has_line (frames vm)).
  { rewrite Hfs. constructor; [exact Hh | constructor]. }
  split; [exact Hl|].
  destruct (proj1 (runtimeError_reports_and_resets
                     "Operands must be numbers." vm) Hl)
    as (t & vm' & Hr & He & Hn & Ht & Hs & Hf & _).
  exists vm'. split; [exact Hr|]. split; [|split; assumption].
  rewrite He, He0. rewrite Hfs in Ht, Hn.
  destruct (Ht 0%nat frame eq_refl) as (s & Hs1 & Hs2).
  rewrite Hline in Hs1. injection Hs1 as <-.
  destruct t as [|s' [|? ?]]; try discriminate Hn.
  injection Hs2 as ->. reflexivity.
Defined.

(** 7 - 2 is 5, and Nil is no number. *)
Lemma numeric_operands_checked_witness :
  exec strtod_digits OP_SUBTRACT (two_pushed (NUMBER_VAL 7) (NUMBER_VAL 2)) =
    Ok (Running
          (push (NUMBER_VAL 5)
             (with_stackTop
                (stackTop (two_pushed (NUMBER_VAL 7) (NUMBER_VAL 2)) - 2)
                (two_pushed (NUMBER_VAL 7) (NUMBER_VAL 2))))) /\
  exec strtod_digits OP_LESS (two_pushed NIL_VAL (NUMBER_VAL 2)) =
    (vm' <- runtimeError "Operands must be numbers."
              (two_pushed NIL_VAL (NUMBER_VAL 2)) ;;
     Ok (Halted INTERPRET_RUNTIME_ERROR vm')).
Proof.
  split.
  - apply (proj2 (numeric_operands_checked strtod_digits OP_SUBTRACT
                    (two_pushed (NUMBER_VAL 7) (NUMBER_VAL 2))
                    (NUMBER_VAL 7) (NUMBER_VAL 2)
                    ltac:(vm_compute; set_solver)
                    ltac:(vm_compute; reflexivity)
                    ltac:(intros _; vm_compute; reflexivity))
             7%float 2%float eq_refl eq_refl).
    vm_compute. reflexivity.
  - apply (proj1 (numeric_operands_checked strtod_digits OP_LESS
                    (two_pushed NIL_VAL (NUMBER_VAL 2))
                    NIL_VAL (NUMBER_VAL 2)
                    ltac:(vm_compute; set_solver)
                    ltac:(vm_compute; reflexivity)
                    ltac:(intros _; vm_compute; reflexivity))).
    reflexivity.
Defined.

(** 1 divided by 0: an infinity, and two undefined conversions. *)
Lemma zero_divisor_is_not_checked_witness :
  let vm := two_pushed (NUMBER_VAL 1) (NUMBER_VAL 0) in
  exec strtod_digits OP_DIVIDE vm =
    Ok (Running (push (NUMBER_VAL infinity) (with_stackTop (stackTop vm - 2) vm))) /\
  exec strtod_digits OP_INT_DIVIDE vm = Undefined /\
  exec strtod_digits OP_MODULUS vm = Undefined.
Proof.
  intros vm.
  destruct (zero_divisor_is_not_checked strtod_digits vm 1%float 0%float)
    as (Hd & Hi & Hm).
  - vm_compute. reflexivity.
  - vm_compute. reflexivity.
  - split; [exact Hd|]. split.
    + apply Hi. reflexivity.
    + apply (Hm false). reflexivity.
Defined.

(** The jumps of [while (false) {}], from the operand at offset 2. *)
Lemma jumps_move_ip_only_witness :
  let vm := fetched (after_turns 1 loop_script) in
  exists frame rest,
    frames vm = frame :: rest /\ ip frame = 2 /\
    peek 0 vm = Ok (BOOL_VAL false) /\
    exec strtod_digits OP_JUMP_IF_FALSE vm =
      Ok (Running (with_frames (set_ip 8 frame :: rest) vm)) /\
    exec strtod_digits OP_LOOP vm =
      Ok (Running (with_frames (set_ip 0 frame :: rest) vm)).
Proof.
  intros vm.
  assert (Hf : exists frame, frames vm = [frame] /\ ip frame = 2 /\
             code (chunk (function (closure frame))) =
               code (chunk loop_script)).
  { eexists. vm_compute. repeat split. }
  destruct Hf as (frame & Hf & Hip & Hc).
  assert (Hp : peek 0 vm = Ok (BOOL_VAL false)) by (vm_compute; reflexivity).
  exists frame, []. split; [exact Hf|]. split; [exact Hip|].
  split; [exact Hp|].
  destruct (jumps_move_ip_only strtod_digits vm frame [] 0 4 Hf)
    as (_ & Hl & Hj); try lia.
  - rewrite Hc, Hip. reflexivity.
  - rewrite Hc, Hip. reflexivity.
  - split.
    + rewrite (Hj _ Hp), Hip. reflexivity.
    + rewrite Hl, Hip. reflexivity.
Defined.

(** The upvalue on slot 3 reads 7 before and after it is closed. *)
Lemma closeUpvalues_keeps_values_witness :
  open_list one_open [0%nat] [3] /\ slots_in_stack one_open [3] /\
  read_location 0%nat one_open = Ok (NUMBER_VAL 7) /\
  exists vm',
    closeUpvalues 2 one_open = Ok vm' /\
    read_location 0%nat vm' = Ok (NUMBER_VAL 7) /\
    stack vm' = stack one_open /\
    forall z, open_slot (cells (heap vm')) 0%nat = Some z -> z < 2.
Proof.
  assert (H1 : openUpvalues one_open = Some 0%nat) by (vm_compute; reflexivity).
  assert (H2 : exists u, cells (heap one_open) !! 0%nat = Some u /\
                         next u = None).
  { eexists. vm_compute. split; reflexivity. }
  assert (H3 : open_slot (cells (heap one_open)) 0%nat = Some 3)
    by (vm_compute; reflexivity).
  assert (H4 : (3 <? Z.of_nat (length (stack one_open))) = true)
    by (vm_compute; reflexivity).
  assert (Hl : open_list one_open [0%nat] [3]).
  { split; [|split].
    - split; [exact H1|]. destruct H2 as (u & Hu & Hn). exists u.
      split; [exact Hu | exact Hn].
    - constructor; [exact H3 | constructor].
    - repeat constructor. }
  assert (Hin : slots_in_stack one_open [3]).
  { constructor; [|constructor]. apply Z.ltb_lt in H4. lia. }
  assert (Hr : read_location 0%nat one_open = Ok (NUMBER_VAL 7)).
  { vm_compute. reflexivity. }
  split; [exact Hl|]. split; [exact Hin|]. split; [exact Hr|].
  destruct (closeUpvalues_keeps_values 2 one_open [0%nat] [3] Hl Hin)
    as (vm' & Hc & (_ & Hs & _) & Hread & Hopen).
  exists vm'. split; [exact Hc|]. split; [exact (Hread _ _ Hr)|].
  split; [exact Hs|].
  intros z Hz. apply (Hopen _ _ Hz). constructor.
Defined.

(** The return from the first call of [f]: Nil lands in slot 1. *)
Lemma OP_RETURN_leaves_result_witness :
  exists frame caller,
    frames in_call = [frame; caller] /\ slots frame = 1 /\
    peek 0 in_call = Ok NIL_VAL /\
    exists vm',
      exec strtod_digits OP_RETURN in_call = Ok (Running vm') /\
      frames vm' = [caller] /\ stackTop vm' = 2 /\
      stack vm' = array_set (stack in_call) 1 NIL_VAL.
Proof.
  assert (Hf : exists frame caller,
             frames in_call = [frame; caller] /\ slots frame = 1).
  { eexists _, _. vm_compute. split; reflexivity. }
  destruct Hf as (frame & caller & Hf & Hs).
  assert (Hp : peek 0 in_call = Ok NIL_VAL) by (vm_compute; reflexivity).
  assert (Ho : openUpvalues in_call = None) by (vm_compute; reflexivity).
  assert (Hl : open_list in_call [] []).
  { split; [exact Ho|]. split; constructor. }
  exists frame, caller. split; [exact Hf|]. split; [exact Hs|].
  split; [exact Hp|].
  assert (Hin : 0 <= 1 < Z.of_nat (length (stack in_call))).
  { vm_compute. split; [discriminate | reflexivity]. }
  rewrite <- Hs in Hin.
  destruct (proj1 (OP_RETURN_leaves_result strtod_digits in_call frame [caller]
                     NIL_VAL [] [] Hf Hp Hl ltac:(constructor))
              ltac:(discriminate) Hin)
    as (vm' & He & Hfr & Ht & Hst & _).
  exists vm'. rewrite Hs in Ht, Hst. auto.
Defined.

(** [var a = 1; print a + 2;] compiles to two balanced statements. *)
Lemma compile_writes_balanced_code_witness :
  exists c,
    compile strtod_digits print_sum_tokens empty_chunk empty_heap
      = Ok (true, c) /\
    exists body,
      code (compilingChunk c) = code empty_chunk ++ body ++ [op OP_RETURN] /\
      straight_line (Z.of_nat (length (constants (compilingChunk c)))) body 0
        = Some 0.
Proof.
  eexists. split; [vm_compute; reflexivity|].
  apply (compile_writes_balanced_code strtod_digits print_sum_tokens
           empty_chunk empty_heap).
  vm_compute. reflexivity.
Defined.

(** OP_SUBTRACT reads two values and leaves one. *)
Lemma instruction_stack_use_witness :
  exists vm',
    exec strtod_digits OP_SUBTRACT (two_pushed (NUMBER_VAL 7) (NUMBER_VAL 2))
      = Ok (Running vm') /\
    2 <= stackTop (two_pushed (NUMBER_VAL 7) (NUMBER_VAL 2)) /\
    stackTop vm' = stackTop (two_pushed (NUMBER_VAL 7) (NUMBER_VAL 2)) + -1.
Proof.
  assert (He : exists vm',
             exec strtod_digits OP_SUBTRACT
               (two_pushed (NUMBER_VAL 7) (NUMBER_VAL 2)) = Ok (Running vm')).
  { eexists. vm_compute. reflexivity. }
  destruct He as (vm' & He). exists vm'. split; [exact He|].
  apply (instruction_stack_use strtod_digits OP_SUBTRACT _ vm' 2 (-1) eq_refl);
    [vm_compute; split; [discriminate | reflexivity] | exact He].
Defined.

(** [print ) ) ;]: two errors met, one reported. *)
Lemma statement_reports_one_error_witness :
  exists c',
    statement strtod_digits 5 at_bad_print = Ok c' /\
    c_err c' = ["[line 1] Error at ')': Expect expression."] /\
    ((panicMode (parser c') = panicMode (parser at_bad_print) /\
      c_err c' = c_err at_bad_print) \/
     (panicMode (parser at_bad_print) = false /\
      panicMode (parser c') = true /\
      exists line, c_err c' = c_err at_bad_print ++ [line])).
Proof.
  eexists. split; [vm_compute; reflexivity|].
  split; [vm_compute; reflexivity|].
  apply (statement_reports_one_error strtod_digits 5). left.
  vm_compute. reflexivity.
Defined.

(** The ninth byte makes the array grow from 8 cells to 16. *)
Lemma writeChunk_appends_witness :
  ByteChunk.sound ByteChunk.eight_bytes /\
  exists chunk',
    ByteChunk.writeChunk ByteChunk.eight_bytes 9 = Ok chunk' /\
    ByteChunk.sound chunk' /\
    ByteChunk.count chunk' = 9 /\
    ByteChunk.bytes chunk'
      = ByteChunk.bytes ByteChunk.eight_bytes ++ [Some 9].
Proof.
  assert (Hs : ByteChunk.sound ByteChunk.eight_bytes).
  { unfold ByteChunk.sound. simpl. split; [lia|]. split; [reflexivity|].
    split; [right; exists 3; split; [lia | reflexivity] | lia]. }
  split; [exact Hs|].
  apply (proj1 (writeChunk_appends ByteChunk.eight_bytes 9 Hs)).
  vm_compute. reflexivity.
Defined.

(** Three bytes written to a fresh chunk. *)
Lemma written_bytes_are_kept_witness :
  exists chunk,
    ByteChunk.writeAll ByteChunk.initChunk [7; 8; 9] = Ok chunk /\
    ByteChunk.sound chunk /\
    ByteChunk.count chunk = 3 /\
    ByteChunk.bytes chunk = [Some 7; Some 8; Some 9].
Proof.
  apply (written_bytes_are_kept [7; 8; 9]). vm_compute. discriminate.
Defined.

(** The call of [f] in [recursive_script], ended at once with Nil. *)
Lemma call_then_return_witness :
  call callee 0 before_call = Ok (true, called) /\
  exists vm3,
    exec strtod_digits OP_RETURN (push NIL_VAL called) = Ok (Running vm3) /\
    frames vm3 = frames before_call /\
    stackTop vm3 = stackTop before_call - 0 /\
    array_get (stack vm3) (stackTop before_call - 0 - 1) = Ok NIL_VAL.
Proof.
  assert (Hc : call callee 0 before_call = Ok (true, called))
    by (vm_compute; reflexivity).
  split; [exact Hc|].
  assert (Ho : openUpvalues (push NIL_VAL called) = None)
    by (vm_compute; reflexivity).
  destruct (call_then_return strtod_digits before_call called
              (push NIL_VAL called) callee 0 NIL_VAL [] [] Hc)
    as (_ & vm3 & He & Hf & Ht & Hs & _).
  - vm_compute. discriminate.
  - reflexivity.
  - vm_compute. reflexivity.
  - split; [exact Ho|]. split; constructor.
  - constructor.
  - vm_compute. split; [discriminate | reflexivity].
  - exists vm3. auto.
Defined.

(** The globals of [recursive_script] once [f] is defined. *)
Lemma globals_f_ok : table_ok globals_f.
Proof.
  split; [split; vm_compute; [reflexivity | reflexivity]|].
  intros i e k Hi Hk.
  each_entry i Hi ltac:(injection Hi as <-; vm_compute in Hk;
                        try discriminate Hk; injection Hk as <-;
                        vm_compute; reflexivity).
Qed.

Lemma globals_f_same_f : same_object (t_entries globals_f) name_f.
Proof.
  intros i e k Hi Hk Hs.
  each_entry i Hi ltac:(injection Hi as <-; vm_compute in Hk;
                        try discriminate Hk; injection Hk as <-;
                        vm_compute in Hs; try discriminate Hs;
                        reflexivity).
Qed.

(** [f] is defined when [recursive_script] reads it. *)
Lemma OP_GET_GLOBAL_reads_or_reports_witness :
  exists vm1 v,
    READ_STRING at_get_global = Ok (name_f, vm1) /\
    stored (t_entries (globals at_get_global)) name_f v /\
    exec strtod_digits OP_GET_GLOBAL at_get_global = Ok (Running (push v vm1)).
Proof.
  assert (Hr : exists vm1, READ_STRING at_get_global = Ok (name_f, vm1)).
  { eexists. vm_compute. reflexivity. }
  destruct Hr as (vm1 & Hr).
  assert (Hs : exists v, stored (t_entries globals_f) name_f v).
  { eexists. unfold stored. exists 1%nat. eexists.
    split; [vm_compute; reflexivity|]. split; vm_compute; reflexivity. }
  destruct Hs as (v & Hs).
  exists vm1, v. split; [exact Hr|]. split; [exact Hs|].
  apply (proj1 (OP_GET_GLOBAL_reads_or_reports strtod_digits at_get_global vm1
                  name_f Hr globals_f_ok
                  ltac:(exists 0%nat; eexists; split; vm_compute; reflexivity)
                  globals_f_same_f) v).
  - vm_compute. discriminate.
  - exact Hs.
Defined.
